(** * cps-future: the future engine of [cps/future/implementation.h] and
      [cps/base_future.h], embedded in Rocq.

    The repository holds two independent implementations:

    - [cps::future<T>] (module [Typed]): one task queue, a value, a failure
      reason and an exception pointer; resolution goes through
      [apply_state], composition through [then].
    - [cps::base_future] (module [Base]): an untyped future with three
      callback queues, [propagate], [then], [needs_all] and [repeat].

    Futures live in a heap (a list indexed by address); a
    [std::shared_ptr] is an address.  Closures are first-order data
    (one constructor per lambda of the source, holding what the lambda
    captures) and are run by an interpreter that takes fuel, because a
    callback may resolve another future, whose callbacks run in turn. *)

From stdpp Require Import list strings pretty.
From Stdlib Require Import ZArith Lia.

Local Open Scope string_scope.

(** ** Exceptions of the C++ program *)

(** What a [throw] can carry.  [runtime_error], [logic_error] and
    [std_exception] derive from [std::exception] and have a [what()];
    [thrown_string] is a thrown [std::string]; [foreign] stands for any
    other thrown object. *)
Inductive exn : Type :=
| runtime_error (what : string)
| logic_error (what : string)
| std_exception (what : string)
| thrown_string (s : string)
| foreign (tag : nat).

(** [e.what()] when [catch(const std::exception &e)] matches. *)
Definition what_of (e : exn) : option string :=
  match e with
  | runtime_error m | logic_error m | std_exception m => Some m
  | thrown_string _ | foreign _ => None
  end.

(** How a run of the interpreter ended. *)
Inductive verdict : Type := returned | threw (e : exn) | crashed | starved.

(** A [std::shared_ptr] to a future: its index in the heap. *)
Abbreviation addr := nat (only parsing).

(** * cps::future<T> *)
Module Typed.

(** [enum class state]. *)
Inductive state : Type := pending | done_state | failed | cancelled.

Definition state_eqb (a b : state) : bool :=
  match a, b with
  | pending, pending | done_state, done_state
  | failed, failed | cancelled, cancelled => true
  | _, _ => false
  end.

(** [state_string]. *)
Definition state_string (s : state) : string :=
  match s with
  | pending => "pending"
  | failed => "failed"
  | cancelled => "cancelled"
  | done_state => "done"
  end.

(** [future_errc], from [cps/future/error_code.h]; only the three
    enumerators that [value(std::error_code &)] names are needed. *)
Inductive future_errc : Type := is_pending_errc | is_failed_errc | is_cancelled_errc.

Section Future.

(** The template parameter, and [T()]. *)
Context {T : Type} (T_default : T).

(** Code of the caller handed to [on_ready], [on_done], [on_fail] or
    [on_cancel]: it records its invocation under [tag] and then returns,
    or throws [throws]. *)
Record user_code : Type := mk_user { tag : nat; throws : option exn }.

(** [std::function<void(T)>] given to [on_done]. *)
Inductive done_code : Type :=
| done_into (f : addr)              (* [f](inner_type v) { f->done(v); } *)
| done_user (u : user_code).

(** [std::function<void(std::string)>] given to [on_fail]. *)
Inductive fail_code : Type :=
| fail_from_into (f inner : addr)   (* [f, inner](const std::string &) { f->fail_from( *inner); } *)
| fail_user (u : user_code).

(** [std::function<void()>] given to [on_cancel]. *)
Inductive cancel_code : Type :=
| cancel_of (f : addr)              (* [f]() { f->cancel(); } and [inner]() { inner->cancel(); } *)
| cancel_user (u : user_code).

(** The [ok] argument of [then] and the code of a failure handler: caller
    code that records its invocation and returns a future, or throws. *)
Inductive continuation : Type :=
| k_return (tag : nat) (result : addr)
| k_throw (tag : nat) (e : exn).

(** One element of [items] in [then]: the result of
    [exception_hoisting_callback].  [h_string] is the overload for a
    handler taking a string (it accepts every [std::exception] and is
    given [what()]); [h_typed] is the overload for a handler taking an
    exception type, [accepts] telling which exceptions
    [catch(const exception_type &)] matches. *)
Inductive handler : Type :=
| h_string (code : continuation)
| h_typed (accepts : exn -> bool) (code : continuation).

(** Elements of [tasks_]: [std::function<void(future<T> &)>]. *)
Inductive task : Type :=
| task_on_ready (code : user_code)
| task_on_done (code : done_code)
| task_on_fail (code : fail_code)
| task_on_cancel (code : cancel_code)
| task_then (f : addr) (ok : continuation) (items : list handler).

(** The data members of [future<T>] ([mutex_], [weak_ptr_] and the two
    time stamps are left out). *)
Record future : Type := mk_future {
  state_ : state;
  tasks_ : list task;
  value_ : T;
  failure_reason_ : string;
  ex_ : option exn;
  label_ : string
}.

(** What a caller-supplied closure was called with. *)
Inductive arg : Type :=
| arg_value (v : T)
| arg_reason (s : string)
| arg_exn (e : exn)
| arg_future (a : addr)
| arg_none.

Record world : Type := mk_world {
  heap : list future;
  log : list (nat * arg)
}.

(** ** The monad of the interpreter

    A call returns, throws (the heap keeps what was written before the
    throw), crashes (undefined behaviour or a failed [assert]) or runs
    out of fuel. *)
Inductive outcome (A : Type) : Type :=
| Ret (w : world) (a : A)
| Exc (w : world) (e : exn)
| Crash
| OutOfFuel.
Arguments Ret {A} w a.
Arguments Exc {A} w e.
Arguments Crash {A}.
Arguments OutOfFuel {A}.

Definition M (A : Type) : Type := world -> outcome A.

Definition ret {A} (a : A) : M A := fun w => Ret w a.
Definition bind {A B} (m : M A) (k : A -> M B) : M B :=
  fun w => match m w with
           | Ret w' a => k a w'
           | Exc w' e => Exc w' e
           | Crash => Crash
           | OutOfFuel => OutOfFuel
           end.
Definition throw {A} (e : exn) : M A := fun w => Exc w e.
Definition crash {A} : M A := fun _ => Crash.
Definition out_of_fuel {A} : M A := fun _ => OutOfFuel.
(** [try { m } catch(...) { h(current_exception()) }]. *)
Definition try_catch {A} (m : M A) (h : exn -> M A) : M A :=
  fun w => match m w with
           | Exc w' e => h e w'
           | o => o
           end.

Notation "'let*' x ':=' m 'in' k" := (bind m (fun x => k))
  (at level 10, x name, m at level 100, k at level 200).
Notation "m >> k" := (bind m (fun _ => k))
  (at level 100, k at level 200, right associativity).

Fixpoint for_each {A} (l : list A) (body : A -> M unit) : M unit :=
  match l with
  | [] => ret tt
  | x :: l' => body x >> for_each l' body
  end.

(** Dereferencing a pointer to no future is undefined. *)
Definition get (a : addr) : M future :=
  fun w => match heap w !! a with
           | Some f => Ret w f
           | None => Crash
           end.
Definition put (a : addr) (f : future) : M unit :=
  fun w => Ret (mk_world (<[a := f]> (heap w)) (log w)) tt.
Definition modify (a : addr) (g : future -> future) : M unit :=
  let* f := get a in put a (g f).
Definition record (tag : nat) (x : arg) : M unit :=
  fun w => Ret (mk_world (heap w) (log w ++ [(tag, x)])) tt.

Definition set_state (s : state) (f : future) : future :=
  mk_future s (tasks_ f) (value_ f) (failure_reason_ f) (ex_ f) (label_ f).
Definition set_tasks (l : list task) (f : future) : future :=
  mk_future (state_ f) l (value_ f) (failure_reason_ f) (ex_ f) (label_ f).
Definition set_value (v : T) (f : future) : future :=
  mk_future (state_ f) (tasks_ f) v (failure_reason_ f) (ex_ f) (label_ f).
Definition set_failure (reason : string) (e : exn) (f : future) : future :=
  mk_future (state_ f) (tasks_ f) (value_ f) reason (Some e) (label_ f).

(** ** Construction *)

(** The default constructor. *)
Definition new_future (label : string) : future :=
  mk_future pending [] T_default "" None label.

(** [create_shared]. *)
Definition create_shared (label : string) : M addr :=
  fun w => Ret (mk_world (heap w ++ [new_future label]) (log w)) (length (heap w)).

(** ** Observers (const member functions) *)

Definition is_ready (f : future) : bool := negb (state_eqb (state_ f) pending).
Definition is_done (f : future) : bool := state_eqb (state_ f) done_state.
Definition is_failed (f : future) : bool := state_eqb (state_ f) failed.
Definition is_cancelled (f : future) : bool := state_eqb (state_ f) cancelled.
Definition is_pending (f : future) : bool := state_eqb (state_ f) pending.

(** [value()]: the value, or the exception that leaves the call. *)
Definition value (f : future) : T + exn :=
  match state_ f with
  | pending => inr (runtime_error "future is not complete")
  | failed =>
      match ex_ f with
      | Some e => inr e                 (* std::rethrow_exception(ex_) *)
      | None => inr (logic_error "no exception available")
      end
  | cancelled => inr (runtime_error "future was cancelled")
  | done_state => inl (value_ f)
  end.

(** [value(std::error_code &ec)]: the value returned and [ec] after the
    call.  [std::error_code] and [make_error_code] come from headers
    that are not part of the sources, so they are parameters. *)
Definition value_ec {error_code : Type} (make_error_code : future_errc -> error_code)
    (f : future) (ec : error_code) : T * error_code :=
  match state_ f with
  | pending => (T_default, make_error_code is_pending_errc)
  | failed => (T_default, make_error_code is_failed_errc)
  | cancelled => (T_default, make_error_code is_cancelled_errc)
  | done_state => (value_ f, ec)
  end.

(** [failure_reason()]. *)
Definition failure_reason (f : future) : string + exn :=
  if negb (state_eqb (state_ f) failed)
  then inr (runtime_error "future is not failed")
  else inl (failure_reason_ f).

(** [exception_ptr()]. *)
Definition exception_ptr (f : future) : option exn + exn :=
  if negb (state_eqb (state_ f) failed)
  then inr (runtime_error "future is not failed")
  else inl (ex_ f).

(** [describe()]; time stamps are not modelled, so [time_string()]
    contributes what it prints for a zero duration: nothing. *)
Definition current_state (f : future) : string := state_string (state_ f).
Definition describe (f : future) : string :=
  label_ f +:+ " (" +:+ current_state f +:+ "), ".

(** The exceptions behind the conditions the specification names
    [NotReady], [WasCancelled] and [NotFailed]. *)
Definition NotReady : exn := runtime_error "future is not complete".
Definition WasCancelled : exn := runtime_error "future was cancelled".
Definition NotFailed : exn := runtime_error "future is not failed".

(** Lifting a const member function that may throw. *)
Definition lift {A} (r : A + exn) : M A :=
  match r with
  | inl a => ret a
  | inr e => throw e
  end.

(** ** Member functions that run closures

    [run] is how a closure found in a task queue is run; it is the
    interpreter itself, one unit of fuel down (see [run_task]). *)
Section Run.

Variable run : task -> addr -> M unit.

(** [shared()]: every future here was made by [create_shared]. *)
Definition shared (me : addr) : M addr := ret me.

(** [call_when_ready]. *)
Definition call_when_ready (me : addr) (code : task) : M addr :=
  let* f := get me in
  let ready := negb (state_eqb (state_ f) pending) in
  (if ready then ret tt else put me (set_tasks (tasks_ f ++ [code]) f)) >>
  (if ready then run code me else ret tt) >>
  shared me.

Definition double_resolve (s : state) (f : future) : exn :=
  logic_error ("tried to resolve future twice, wanted " +:+ state_string s +:+ ":" +:+ describe f).

(** [apply_state]. *)
Definition apply_state (me : addr) (code : addr -> M unit) (s : state) : M addr :=
  if state_eqb s pending then crash (* assert(s != state::pending) *)
  else
    let* f := get me in
    if negb (state_eqb (state_ f) pending) then throw (double_resolve s f)
    else
      code me >>
      let* f' := get me in
      let pending_tasks := tasks_ f' in
      put me (set_tasks [] f') >>
      modify me (set_state s) >>
      for_each pending_tasks (fun v => run v me) >>
      shared me.

Definition on_ready (me : addr) (code : user_code) : M addr :=
  call_when_ready me (task_on_ready code).
Definition on_done (me : addr) (code : done_code) : M addr :=
  call_when_ready me (task_on_done code).
Definition on_fail (me : addr) (code : fail_code) : M addr :=
  call_when_ready me (task_on_fail code).
Definition on_cancel (me : addr) (code : cancel_code) : M addr :=
  call_when_ready me (task_on_cancel code).

(** [done]. *)
Definition done (me : addr) (v : T) : M addr :=
  apply_state me (fun me => modify me (set_value v)) done_state.

(** What the two [catch] clauses of [fail], [fail_from] and
    [fail_exception_pointer] store for a thrown [e]. *)
Definition store_failure (e : exn) (f : future) : future :=
  match what_of e with
  | Some w => set_failure w e f
  | None => set_failure "unknown" e f
  end.

(** [fail], the overload for an exception object. *)
Definition fail (me : addr) (ex : exn) : M addr :=
  apply_state me (fun me => modify me (store_failure ex)) failed.

(** [fail], the overload for a string. *)
Definition fail_string (me : addr) (ex : string) : M addr :=
  fail me (runtime_error ex).

(** [fail_from].  Inside the [try] block [f.exception_ptr()] may itself
    throw, and rethrowing a null pointer is undefined. *)
Definition fail_from (me : addr) (f : addr) : M addr :=
  let* src := get f in
  if negb (is_failed src) then throw (logic_error "future is not failed")
  else
    apply_state me (fun me =>
      let* src := get f in
      match exception_ptr src with
      | inr e => modify me (store_failure e)
      | inl None => crash
      | inl (Some e) => modify me (store_failure e)
      end) failed.

(** [fail_exception_pointer]. *)
Definition fail_exception_pointer (me : addr) (ex : option exn) : M addr :=
  apply_state me (fun me =>
    match ex with
    | None => crash
    | Some e => modify me (store_failure e)
    end) failed.

(** [cancel]. *)
Definition cancel (me : addr) : M addr :=
  apply_state me (fun _ => ret tt) cancelled.

(** Calling the closures. *)
Definition call_user (u : user_code) (x : arg) : M unit :=
  record (tag u) x >>
  match throws u with
  | Some e => throw e
  | None => ret tt
  end.

Definition call_done_code (c : done_code) (v : T) : M unit :=
  match c with
  | done_into f => done f v >> ret tt
  | done_user u => call_user u (arg_value v)
  end.

Definition call_fail_code (c : fail_code) (reason : string) : M unit :=
  match c with
  | fail_from_into f inner => fail_from f inner >> ret tt
  | fail_user u => call_user u (arg_reason reason)
  end.

Definition call_cancel_code (c : cancel_code) : M unit :=
  match c with
  | cancel_of f => cancel f >> ret tt
  | cancel_user u => call_user u arg_none
  end.

Definition call_continuation (k : continuation) (x : arg) : M addr :=
  match k with
  | k_return t result => record t x >> ret result
  | k_throw t e => record t x >> throw e
  end.

(** The closure returned by [exception_hoisting_callback], applied to
    [original]: the future the handler returns, or [nullptr]. *)
Definition call_handler (h : handler) (original : option exn) : M (option addr) :=
  match original with
  | None => crash
  | Some e =>
      match h with
      | h_string code =>
          match what_of e with
          | Some msg => let* r := call_continuation code (arg_reason msg) in ret (Some r)
          | None => ret None
          end
      | h_typed accepts code =>
          if accepts e
          then let* r := call_continuation code (arg_exn e) in ret (Some r)
          else ret None
      end
  end.

(** The four registrations [then] makes once it has the inner future. *)
Definition wire (f inner : addr) : M unit :=
  let* i1 := on_done inner (done_into f) in
  let* i2 := on_fail i1 (fail_from_into f inner) in
  on_cancel i2 (cancel_of f) >>
  on_cancel f (cancel_of inner) >>
  ret tt.

(** The loop over [items] in the failed branch of [then], with the
    [fail_from] that follows it. *)
Fixpoint try_handlers (items : list handler) (f me : addr) : M unit :=
  match items with
  | [] => fail_from f me >> ret tt
  | it :: rest =>
      let* m := get me in
      let* inner := call_handler it (ex_ m) in
      match inner with
      | Some i => wire f i
      | None => try_handlers rest f me
      end
  end.

(** The closure [then] registers on the source [me]. *)
Definition then_task (f : addr) (ok : continuation) (items : list handler) (me : addr) : M unit :=
  try_catch
    (let* d := get f in
     if is_ready d then ret tt
     else
       let* m := get me in
       if is_done m then
         let* v := lift (value m) in
         let* inner := call_continuation ok (arg_value v) in
         wire f inner
       else if is_failed m then try_handlers items f me
       else if is_cancelled m then cancel f >> ret tt
       else ret tt)
    (fun ex => fail_exception_pointer f (Some ex) >> ret tt).

(** The body of each kind of closure in [tasks_], applied to [*this]. *)
Definition task_body (t : task) (me : addr) : M unit :=
  match t with
  | task_on_ready code => call_user code (arg_future me)
  | task_on_done code =>
      let* f := get me in
      if is_done f then let* v := lift (value f) in call_done_code code v
      else ret tt
  | task_on_fail code =>
      let* f := get me in
      if is_failed f then let* r := lift (failure_reason f) in call_fail_code code r
      else ret tt
  | task_on_cancel code =>
      let* f := get me in
      if is_cancelled f then call_cancel_code code
      else ret tt
  | task_then f ok items => then_task f ok items me
  end.

(** [then]: [items] are the handlers after
    [exception_hoisting_callback]. *)
Definition then_ (me : addr) (ok : continuation) (items : list handler) : M addr :=
  let* f := create_shared "unlabelled future" in
  call_when_ready me (task_then f ok items) >>
  ret f.

End Run.

(** Running a queued closure with [n] nested calls allowed. *)
Fixpoint run_task (n : nat) (t : task) (me : addr) : M unit :=
  match n with
  | 0 => out_of_fuel
  | S n' => task_body (run_task n') t me
  end.

(** ** Vocabulary of the statements *)

(** Writing a future, and allocating one. *)
Definition upd (a : addr) (f : future) (w : world) : world :=
  mk_world (<[a := f]> (heap w)) (log w).
Definition alloc (f : future) (w : world) : world :=
  mk_world (heap w ++ [f]) (log w).

(** A future after [apply_state]: [tasks_] moved out, [state_] written
    last. *)
Definition resolved (s : state) (f : future) : future := set_state s (set_tasks [] f).

(** Whether the closure made by [exception_hoisting_callback] calls the
    handler's code for [e]. *)
Definition handles (h : handler) (e : exn) : bool :=
  match h with
  | h_string _ => match what_of e with Some _ => true | None => false end
  | h_typed accepts _ => accepts e
  end.

(** The log entries left by [on_ready] callbacks [us] run on [me]. *)
Definition ready_entries (me : addr) (us : list user_code) : list (nat * arg) :=
  map (fun u => (tag u, arg_future me)) us.

(** The reason stored for [e]. *)
Definition reason_of (e : exn) : string :=
  match what_of e with Some m => m | None => "unknown" end.

(** Futures persist, and one that is no longer pending never changes. *)
Definition extends (w w' : world) : Prop :=
  forall a f, heap w !! a = Some f ->
    exists f', heap w' !! a = Some f' /\ (state_ f <> pending -> f' = f).

Definition outcome_extends {A} (w : world) (o : outcome A) : Prop :=
  match o with
  | Ret w' _ | Exc w' _ => extends w w'
  | Crash | OutOfFuel => True
  end.

Definition safe {A} (m : M A) : Prop := forall w, outcome_extends w (m w).

(** What [apply_state] needs of the update it runs under the lock: it
    writes only the future being resolved, which stays pending. *)
Definition code_safe (me : addr) (code : addr -> M unit) : Prop :=
  forall w f, heap w !! me = Some f -> state_ f = pending ->
    match code me w with
    | Ret w' _ => extends w w' /\ exists f', heap w' !! me = Some f' /\ state_ f' = pending
    | Exc w' _ => extends w w'
    | Crash | OutOfFuel => True
    end.

(** Observations of a run. *)
Definition empty_world : world := mk_world [] [].
Definition verdict_of {A} (o : outcome A) : verdict :=
  match o with
  | Ret _ _ => returned
  | Exc _ e => threw e
  | Crash => crashed
  | OutOfFuel => starved
  end.
Definition world_of {A} (o : outcome A) : world :=
  match o with
  | Ret w _ | Exc w _ => w
  | Crash | OutOfFuel => empty_world
  end.
Definition states_of {A} (o : outcome A) : list state := map state_ (heap (world_of o)).

End Future.

Arguments Ret {T A} w a.
Arguments Exc {T A} w e.
Arguments Crash {T A}.
Arguments OutOfFuel {T A}.

Notation "'let*' x ':=' m 'in' k" := (bind m (fun x => k))
  (at level 10, x name, m at level 100, k at level 200).
Notation "m >> k" := (bind m (fun _ => k))
  (at level 100, k at level 200, right associativity).

(** ** Scenarios, with [T = nat] *)

(** Two [on_ready] callbacks, the first of which throws, then [done]. *)
Definition throwing_callback_first : M addr :=
  let* f := create_shared 0 "f" in
  on_ready (run_task 2) f (mk_user 1 (Some (std_exception "oops"))) >>
  on_ready (run_task 2) f (mk_user 2 None) >>
  done (run_task 2) f 7.

(** [seq = f.then(ok)] with [ok] returning the pending [g]; [f] completes
    and [seq] is then completed by someone else. *)
Definition then_resolved_outside : M addr :=
  let* f := create_shared 0 "f" in
  let* g := create_shared 0 "g" in
  let* seq := then_ 0 (run_task 3) f (k_return 9 g) [] in
  done (run_task 3) f 1 >>
  done (run_task 3) seq 2.

(** ... after which the inner future completes. *)
Definition then_inner_completes_late : M addr :=
  then_resolved_outside >> done (run_task 3) 1 3.



(** ** The free functions after the class *)

(** [resolved_future(v)]. *)
Definition resolved_future {T : Type} (T_default : T)
    (run : task -> addr -> M unit) (v : T) : M addr :=
  let* p := create_shared T_default "unlabelled future" in
  done run p v.

(** [make_future()] and [make_future(label)]. *)
Definition make_future {T : Type} (T_default : T) : M addr :=
  create_shared T_default "unlabelled future".
Definition make_future_labelled {T : Type} (T_default : T) (label : string) : M addr :=
  create_shared T_default label.

(** ** [time_string]

    [elapsed()] is a [std::chrono::nanoseconds]; its count is the
    argument here.  [duration_cast] to a coarser unit divides and
    truncates toward zero; the count of days is an [int]. *)
Definition to_int (z : Z) : Z := ((z + 2147483648) `mod` 4294967296 - 2147483648)%Z.

Definition ns_per_day : Z := 86400000000000.
Definition ns_per_hour : Z := 3600000000000.
Definition ns_per_minute : Z := 60000000000.
Definition ns_per_second : Z := 1000000000.
Definition ns_per_millisecond : Z := 1000000.
Definition ns_per_microsecond : Z := 1000.

(** [if(x.count() != 0) ss << x.count() << unit;] *)
Definition shown (ss : string) (count : Z) (unit : string) : string :=
  if (count =? 0)%Z then ss else ss +:+ pretty count +:+ unit.

Definition time_string (elapsed : Z) : string :=
  let e := elapsed in
  let ss := "" in
  let d := to_int (e ÷ ns_per_day)%Z in
  let ss := shown ss d "d" in
  let e := (e - d * ns_per_day)%Z in
  let h := (e ÷ ns_per_hour)%Z in
  let ss := shown ss h "h" in
  let e := (e - h * ns_per_hour)%Z in
  let m := (e ÷ ns_per_minute)%Z in
  let ss := shown ss m "m" in
  let e := (e - m * ns_per_minute)%Z in
  let s := (e ÷ ns_per_second)%Z in
  let ss := shown ss s "s" in
  let e := (e - s * ns_per_second)%Z in
  let ms := (e ÷ ns_per_millisecond)%Z in
  let ss := shown ss ms "ms" in
  let e := (e - ms * ns_per_millisecond)%Z in
  let us := (e ÷ ns_per_microsecond)%Z in
  let ss := shown ss us "µs" in
  let e := (e - us * ns_per_microsecond)%Z in
  let ns := e in
  let ss := shown ss ns "ns" in
  ss.

(** [describe()] for a future whose [elapsed()] counts [e] nanoseconds. *)
Definition describe_at {T : Type} (f : @future T) (e : Z) : string :=
  label_ f +:+ " (" +:+ current_state f +:+ "), " +:+ time_string e.

(** The counts [time_string] prints, in its order: days, hours, minutes,
    seconds, milliseconds, microseconds, nanoseconds. *)
Definition time_counts (elapsed : Z) : list Z :=
  let e := elapsed in
  let d := to_int (e ÷ ns_per_day)%Z in
  let e := (e - d * ns_per_day)%Z in
  let h := (e ÷ ns_per_hour)%Z in
  let e := (e - h * ns_per_hour)%Z in
  let m := (e ÷ ns_per_minute)%Z in
  let e := (e - m * ns_per_minute)%Z in
  let s := (e ÷ ns_per_second)%Z in
  let e := (e - s * ns_per_second)%Z in
  let ms := (e ÷ ns_per_millisecond)%Z in
  let e := (e - ms * ns_per_millisecond)%Z in
  let us := (e ÷ ns_per_microsecond)%Z in
  let e := (e - us * ns_per_microsecond)%Z in
  [d; h; m; s; ms; us; e].

Definition time_units : list Z :=
  [ns_per_day; ns_per_hour; ns_per_minute; ns_per_second;
   ns_per_millisecond; ns_per_microsecond; 1%Z].

Definition time_unit_names : list string := ["d"; "h"; "m"; "s"; "ms"; "µs"; "ns"].

(** The value of a list of counts, in nanoseconds. *)
Fixpoint nanoseconds_of (counts units : list Z) : Z :=
  match counts, units with
  | c :: counts', u :: units' => (c * u + nanoseconds_of counts' units')%Z
  | _, _ => 0%Z
  end.

(** The range of a 64-bit signed count. *)
Definition int64_range (z : Z) : Prop := (- 9223372036854775808 <= z < 9223372036854775808)%Z.

(** ** More vocabulary *)

(** What an outcome leaves of the future [f] at [a]. *)
Definition kept {T A : Type} (a : addr) (f : @future T) (o : @outcome T A) : Prop :=
  match o with
  | Ret w' _ | Exc w' _ => heap w' !! a = Some f
  | Crash | OutOfFuel => True
  end.

(** A callback of the caller that returns. *)
Definition returns (u : user_code) : bool :=
  match throws u with None => true | Some _ => false end.

Definition quiet (t : task) : bool :=
  match t with
  | task_on_ready u => returns u
  | task_on_done (done_user u) => returns u
  | task_on_fail (fail_user u) => returns u
  | task_on_cancel (cancel_user u) => returns u
  | _ => false
  end.

(** What the closure [t] records when it is run on the future [m] at
    [me]: the call of the caller's code and its argument, if the state
    of [m] is the one the closure tests for. *)
Definition delivered {T : Type} (me : addr) (m : @future T) (t : task) : list (nat * @arg T) :=
  match t with
  | task_on_ready u => [(tag u, arg_future me)]
  | task_on_done (done_user u) =>
      if is_done m then [(tag u, arg_value (value_ m))] else []
  | task_on_fail (fail_user u) =>
      if is_failed m then [(tag u, arg_reason (failure_reason_ m))] else []
  | task_on_cancel (cancel_user u) =>
      if is_cancelled m then [(tag u, arg_none)] else []
  | _ => []
  end.

(** What a callback of the caller throws when it is run on the future
    [m]: nothing when it is not called, its kind not being that of the
    state of [m]. *)
Definition raised {T : Type} (m : @future T) (t : task) : option exn :=
  match t with
  | task_on_ready u => throws u
  | task_on_done (done_user u) => if is_done m then throws u else None
  | task_on_fail (fail_user u) => if is_failed m then throws u else None
  | task_on_cancel (cancel_user u) => if is_cancelled m then throws u else None
  | _ => None
  end.

(** Every failed future of the heap holds an exception. *)
Definition failures_held {T : Type} (w : @world T) : Prop :=
  forall a f, heap w !! a = Some f -> state_ f = failed -> ex_ f <> None.

(** What [then] has set up once [ok] (or a handler) has returned the
    pending future [g]: the derived future [seq] holds the closure that
    cancels [g], and [g] holds the three closures that resolve [seq]. *)
Definition wired {T : Type} (w : @world T) (seq g : addr) : Prop :=
  seq <> g /\
  exists s1 g1,
    heap w !! seq = Some s1 /\ state_ s1 = pending /\
    tasks_ s1 = [task_on_cancel (cancel_of g)] /\
    heap w !! g = Some g1 /\ state_ g1 = pending /\
    tasks_ g1 = [task_on_done (done_into seq);
                 task_on_fail (fail_from_into seq g);
                 task_on_cancel (cancel_of seq)].

(** The code of a handler, and the argument the closure of
    [exception_hoisting_callback] calls it with. *)
Definition code_of (h : handler) : continuation :=
  match h with h_string c | h_typed _ c => c end.
Definition given_to {T : Type} (h : handler) (e : exn) : @arg T :=
  match h with
  | h_string _ => arg_reason (reason_of e)
  | h_typed _ _ => arg_exn e
  end.

(** An outcome, and a program, that leave every failed future with its
    exception. *)
Definition holding {T A : Type} (o : @outcome T A) : Prop :=
  match o with
  | Ret w' _ | Exc w' _ => failures_held w'
  | Crash | OutOfFuel => True
  end.

Definition keeps_failures {T A : Type} (m : @M T A) : Prop :=
  forall w, failures_held w -> holding (m w).

(** ** Sample heaps *)

Definition done_five : @future nat := mk_future done_state [] 5 "" None "f".
Definition boom_future : @future nat :=
  mk_future failed [] 0 "boom" (Some (runtime_error "boom")) "src".
Definition four_callbacks : @future nat :=
  mk_future pending
    [task_on_ready (mk_user 1 None); task_on_done (done_user (mk_user 2 None));
     task_on_fail (fail_user (mk_user 3 None)); task_on_cancel (cancel_user (mk_user 4 None))]
    0 "" None "f".
Definition one_pending : @world nat := mk_world [new_future 0 "f"] [].
Definition two_pending : @world nat := mk_world [new_future 0 "f"; new_future 0 "g"] [].
Definition one_done : @world nat := mk_world [done_five; new_future 0 "g"] [].
Definition failed_source : @world nat := mk_world [new_future 0 "f"; boom_future] [].
Definition with_callbacks : @world nat := mk_world [four_callbacks] [].

End Typed.

(** * cps::base_future *)
Module Base.

(** [enum state]. *)
Inductive state : Type := pending | cancelled | failed | complete.

Definition state_eqb (a b : state) : bool :=
  match a, b with
  | pending, pending | cancelled, cancelled
  | failed, failed | complete, complete => true
  | _, _ => false
  end.

(** [class exception].  Its only constructor,
    [exception(std::shared_ptr<std::exception> e, const std::string &component)],
    initialises [ex_()], [component_(component)] and
    [reason_(u8"unknown")]: the argument [e] is not stored. *)
Record exception : Type := mk_exception {
  ex_inner : option exn;
  component_ : string;
  reason_ : string
}.
Definition new_exception (e : exn) (component : string) : exception :=
  mk_exception None component "unknown".
Definition reason (ex : exception) : string := reason_ ex.

(** [fail_exception(msg)] is a [std::runtime_error]. *)
Definition fail_exception (msg : string) : exn := runtime_error msg.

(** Caller code: records its invocation, then returns or throws. *)
Record user_code : Type := mk_user { tag : nat; throws : option exn }.

(** What the [i]-th call of the [each] argument of [repeat] hands back:
    a new future that is already complete, still pending, failed or
    cancelled when [each] returns. *)
Inductive body : Type := body_complete | body_pending | body_failed | body_cancelled.

(** [std::function<void(ptr)>], the argument of [on_ready]. *)
Inductive ready_code : Type :=
| ready_noop                        (* [f](ptr in) { } *)
| ready_create_done                 (* [code](ptr) { return create()->done(); } *)
| ready_user (u : user_code).

(** [seq], that is [std::function<ptr()>]: the argument of [then]. *)
Inductive seq : Type :=
| seq_repeat_step (f in_ : addr) (frame : nat)
                                    (* [f, in, &recurse]() { auto v = recurse(in); return v; } *)
| seq_user (t : nat) (result : addr + exn).

(** [std::function<void()>]: elements of [on_done_] and [on_cancel_]. *)
Inductive thunk : Type :=
| ready_handler (self : addr) (code : ready_code)
                                    (* [self, code]() { code(self); } *)
| propagate_done (f : addr)         (* [f]() { f->done(); } *)
| propagate_cancel (f : addr)       (* [f]() { f->cancel(); } *)
| then_done (self : addr) (ok : seq) (f : addr)
| then_cancel (self f : addr)
| needs_all_ok (f : addr) (count : nat)
| needs_all_can (count : nat) (p : list addr) (f : addr)
| repeat_cancel (f : addr)          (* [f]() { f->fail("cancelled"); } *)
| thunk_user (u : user_code).

(** [std::function<void(exception &)>]: elements of [on_fail_]. *)
Inductive fail_cb : Type :=
| ready_fail_handler (self : addr) (code : ready_code)
                                    (* [self, code](exception &) { code(self); } *)
| fail_with (f : addr)              (* [f](exception &e) { f->fail(e); } *)
| then_fail (self f : addr)
| needs_all_fail (count : nat) (p : list addr) (f : addr)
| fail_user (u : user_code).

(** The data members ([label_] and the unused [then_] and [else_] are
    left out). *)
Record base_future : Type := mk_future {
  state_ : state;
  on_done_ : list thunk;
  on_fail_ : list fail_cb;
  on_cancel_ : list thunk;
  ex_ : option exception
}.

(** The local variable [recurse] of one call of the closure [code] of
    [repeat]: whether it is still in scope, and what it captures ([f] by
    copy, [check] and [each] by reference).  The [i]-th call of [check]
    answers [check i]; the [i]-th call of [each] returns [each i]. *)
Record frame : Type := mk_frame {
  alive : bool;
  loop_future : addr;
  check : nat -> bool;
  each : nat -> body
}.

(** What the caller's code was seen doing. *)
Inductive event : Type :=
| ev_call (t : nat)
| ev_check (in_ : addr) (status : bool)
| ev_each (in_ out : addr).

Record world : Type := mk_world {
  heap : list base_future;
  counters : list Z;               (* the [std::atomic<int>] objects *)
  frames : list frame;
  trace : list event
}.

Inductive outcome (A : Type) : Type :=
| Ret (w : world) (a : A)
| Exc (w : world) (e : exn)
| Crash
| OutOfFuel.
Arguments Ret {A} w a.
Arguments Exc {A} w e.
Arguments Crash {A}.
Arguments OutOfFuel {A}.

Definition M (A : Type) : Type := world -> outcome A.

Definition ret {A} (a : A) : M A := fun w => Ret w a.
Definition bind {A B} (m : M A) (k : A -> M B) : M B :=
  fun w => match m w with
           | Ret w' a => k a w'
           | Exc w' e => Exc w' e
           | Crash => Crash
           | OutOfFuel => OutOfFuel
           end.
Definition throw {A} (e : exn) : M A := fun w => Exc w e.
Definition crash {A} : M A := fun _ => Crash.
Definition out_of_fuel {A} : M A := fun _ => OutOfFuel.

Notation "'let*' x ':=' m 'in' k" := (bind m (fun x => k))
  (at level 10, x name, m at level 100, k at level 200).
Notation "m >> k" := (bind m (fun _ => k))
  (at level 100, k at level 200, right associativity).

(** The [try] block around each callback in [done], [fail] and
    [cancel]: [catch(std::string ex)] prints and goes on, [catch(...)]
    prints and rethrows. *)
Definition guarded (m : M unit) : M unit :=
  fun w => match m w with
           | Exc w' (thrown_string _) => Ret w' tt
           | o => o
           end.

Fixpoint for_each {A} (l : list A) (body : A -> M unit) : M unit :=
  match l with
  | [] => ret tt
  | x :: l' => body x >> for_each l' body
  end.

Definition get (a : addr) : M base_future :=
  fun w => match heap w !! a with
           | Some f => Ret w f
           | None => Crash
           end.
Definition put (a : addr) (f : base_future) : M unit :=
  fun w => Ret (mk_world (<[a := f]> (heap w)) (counters w) (frames w) (trace w)) tt.
Definition modify (a : addr) (g : base_future -> base_future) : M unit :=
  let* f := get a in put a (g f).
Definition emit (e : event) : M unit :=
  fun w => Ret (mk_world (heap w) (counters w) (frames w) (trace w ++ [e])) tt.
Definition get_trace : M (list event) := fun w => Ret w (trace w).

Definition set_state (s : state) (f : base_future) : base_future :=
  mk_future s (on_done_ f) (on_fail_ f) (on_cancel_ f) (ex_ f).
Definition set_on_done (l : list thunk) (f : base_future) : base_future :=
  mk_future (state_ f) l (on_fail_ f) (on_cancel_ f) (ex_ f).
Definition set_on_fail (l : list fail_cb) (f : base_future) : base_future :=
  mk_future (state_ f) (on_done_ f) l (on_cancel_ f) (ex_ f).
Definition set_on_cancel (l : list thunk) (f : base_future) : base_future :=
  mk_future (state_ f) (on_done_ f) (on_fail_ f) l (ex_ f).
Definition set_ex (ex : exception) (f : base_future) : base_future :=
  mk_future (state_ f) (on_done_ f) (on_fail_ f) (on_cancel_ f) (Some ex).

(** The constructor and [create]. *)
Definition new_future : base_future := mk_future pending [] [] [] None.
Definition create : M addr :=
  fun w => Ret (mk_world (heap w ++ [new_future]) (counters w) (frames w) (trace w))
               (length (heap w)).

(** An [int]: 32 bits, two's complement.  The arithmetic of
    [std::atomic<int>] wraps around, and so does the conversion of a
    [size_t] stored into it. *)
Definition wrap_int (z : Z) : Z := ((z + 2147483648) `mod` 4294967296 - 2147483648)%Z.

(** [std::make_shared<std::atomic<int>>()] and its operations. *)
Definition new_counter : M nat :=
  fun w => Ret (mk_world (heap w) (counters w ++ [0%Z]) (frames w) (trace w))
               (length (counters w)).
Definition store_counter (c : nat) (v : Z) : M unit :=
  fun w => Ret (mk_world (heap w) (<[c := wrap_int v]> (counters w)) (frames w) (trace w)) tt.
Definition pre_decrement (c : nat) : M Z :=
  fun w => match counters w !! c with
           | Some v => Ret (mk_world (heap w) (<[c := wrap_int (v - 1)]> (counters w))
                              (frames w) (trace w))
                           (wrap_int (v - 1))
           | None => Crash
           end.

(** Entering and leaving the scope of [recurse]. *)
Definition push_frame (fr : frame) : M nat :=
  fun w => Ret (mk_world (heap w) (counters w) (frames w ++ [fr]) (trace w))
               (length (frames w)).
Definition kill_frame (i : nat) : M unit :=
  fun w => match frames w !! i with
           | Some fr => Ret (mk_world (heap w) (counters w)
                               (<[i := mk_frame false (loop_future fr) (check fr) (each fr)]> (frames w))
                               (trace w)) tt
           | None => Crash
           end.
(** Using [recurse] through the reference the closures hold: undefined
    once the variable is out of scope. *)
Definition get_frame (i : nat) : M frame :=
  fun w => match frames w !! i with
           | Some fr => if alive fr then Ret w fr else Crash
           | None => Crash
           end.

(** Const member functions. *)
Definition is_pending (f : base_future) : bool := state_eqb (state_ f) pending.
Definition is_ready (f : base_future) : bool := negb (state_eqb (state_ f) pending).
Definition is_failed (f : base_future) : bool := state_eqb (state_ f) failed.
Definition is_done (f : base_future) : bool := state_eqb (state_ f) complete.
Definition is_cancelled (f : base_future) : bool := state_eqb (state_ f) cancelled.

(** [failure()]; [ex_] is dereferenced without a test. *)
Definition failure (f : base_future) : option (string + exn) :=
  if negb (is_failed f) then Some (inr (fail_exception "this base_future is not failed"))
  else match ex_ f with
       | Some ex => Some (inl (reason ex))
       | None => None
       end.

(** [mark_ready]. *)
Definition mark_ready (me : addr) (s : state) : M unit := modify me (set_state s).

(** ** Member functions that run closures

    [r] is how a closure taken from a queue is run (the interpreter one
    unit of fuel down, see [runner_at]); [rounds r] bounds the
    [while(!on_done_.empty())] loops. *)
Record runner : Type := mk_runner {
  run_thunk : thunk -> M unit;
  run_fail_cb : fail_cb -> exception -> M unit;
  rounds : nat
}.

Section Run.

Variable r : runner.

Definition call_user (u : user_code) : M unit :=
  emit (ev_call (tag u)) >>
  match throws u with
  | Some e => throw e
  | None => ret tt
  end.

(** The [while(!on_done_.empty())] loop of [done]: its body for the
    queue [copy] just read, and the rounds that follow. *)
Fixpoint drain_done_rounds (k : nat) (me : addr) (copy : list thunk) : M unit :=
  match k with
  | 0 => out_of_fuel
  | S k' =>
      modify me (set_on_done []) >>
      for_each copy (fun it => guarded (run_thunk r it)) >>
      let* f := get me in
      match on_done_ f with
      | [] => ret tt
      | _ :: _ => drain_done_rounds k' me (on_done_ f)
      end
  end.

Definition drain_done (k : nat) (me : addr) : M unit :=
  let* f := get me in
  match on_done_ f with
  | [] => ret tt
  | _ :: _ => drain_done_rounds k me (on_done_ f)
  end.

(** The [while] loop of the private [fail()]; each callback is given
    [*ex_]. *)
Fixpoint drain_fail_rounds (k : nat) (me : addr) (copy : list fail_cb) : M unit :=
  match k with
  | 0 => out_of_fuel
  | S k' =>
      modify me (set_on_fail []) >>
      for_each copy (fun it =>
        let* f' := get me in
        match ex_ f' with
        | Some ex => guarded (run_fail_cb r it ex)
        | None => crash
        end) >>
      let* f := get me in
      match on_fail_ f with
      | [] => ret tt
      | _ :: _ => drain_fail_rounds k' me (on_fail_ f)
      end
  end.

Definition drain_fail (k : nat) (me : addr) : M unit :=
  let* f := get me in
  match on_fail_ f with
  | [] => ret tt
  | _ :: _ => drain_fail_rounds k me (on_fail_ f)
  end.

(** The [while] loop of [cancel]. *)
Fixpoint drain_cancel_rounds (k : nat) (me : addr) (copy : list thunk) : M unit :=
  match k with
  | 0 => out_of_fuel
  | S k' =>
      modify me (set_on_cancel []) >>
      for_each copy (fun it => guarded (run_thunk r it)) >>
      let* f := get me in
      match on_cancel_ f with
      | [] => ret tt
      | _ :: _ => drain_cancel_rounds k' me (on_cancel_ f)
      end
  end.

Definition drain_cancel (k : nat) (me : addr) : M unit :=
  let* f := get me in
  match on_cancel_ f with
  | [] => ret tt
  | _ :: _ => drain_cancel_rounds k me (on_cancel_ f)
  end.

(** [done()]. *)
Definition done (me : addr) : M addr :=
  mark_ready me complete >>
  modify me (set_on_fail []) >>
  modify me (set_on_cancel []) >>
  drain_done (rounds r) me >>
  ret me.

(** The private [fail()]. *)
Definition fail_ (me : addr) : M addr :=
  mark_ready me failed >>
  modify me (set_on_done []) >>
  modify me (set_on_cancel []) >>
  drain_fail (rounds r) me >>
  ret me.

(** [fail(exception &ex)]. *)
Definition fail (me : addr) (ex : exception) : M addr :=
  modify me (set_ex ex) >> fail_ me.

(** [fail(std::shared_ptr<std::exception> ex, const std::string &component)]. *)
Definition fail_ptr (me : addr) (ex : exn) (component : string) : M addr :=
  modify me (set_ex (new_exception ex component)) >> fail_ me.

(** [fail(const std::string &ex, const std::string &component)]. *)
Definition fail_string (me : addr) (ex : string) (component : string) : M addr :=
  modify me (set_ex (new_exception (fail_exception ex) component)) >> fail_ me.

(** [cancel()].  The function is declared to return [ptr] and has no
    [return] statement: a call that gets to the end of the drain flows
    off the end of the function, which is undefined behaviour.  An
    exception rethrown by the drain leaves the call before that. *)
Definition cancel (me : addr) : M addr :=
  mark_ready me cancelled >>
  modify me (set_on_done []) >>
  modify me (set_on_fail []) >>
  drain_cancel (rounds r) me >>
  crash.

(** [on_done], [on_cancel], [on_fail]. *)
Definition on_done (me : addr) (code : thunk) : M addr :=
  let* f := get me in
  if negb (is_ready f) then
    put me (set_on_done (on_done_ f ++ [code]) f) >> ret me
  else
    (if is_done f then run_thunk r code else ret tt) >> ret me.

Definition on_cancel (me : addr) (code : thunk) : M addr :=
  let* f := get me in
  if negb (is_ready f) then
    put me (set_on_cancel (on_cancel_ f ++ [code]) f) >> ret me
  else
    (if is_cancelled f then run_thunk r code else ret tt) >> ret me.

Definition on_fail (me : addr) (code : fail_cb) : M addr :=
  let* f := get me in
  if negb (is_ready f) then
    put me (set_on_fail (on_fail_ f ++ [code]) f) >> ret me
  else
    (if is_failed f then
       match ex_ f with
       | Some ex => run_fail_cb r code ex
       | None => crash
       end
     else ret tt) >> ret me.

(** [on_ready]. *)
Definition on_ready (me : addr) (code : ready_code) : M addr :=
  on_done me (ready_handler me code) >>
  on_cancel me (ready_handler me code) >>
  on_fail me (ready_fail_handler me code) >>
  ret me.

(** [propagate]. *)
Definition propagate (me : addr) (f : addr) : M addr :=
  on_done me (propagate_done f) >>
  on_cancel me (propagate_cancel f) >>
  on_fail me (fail_with f) >>
  ret f.

(** [then(seq ok)]. *)
Definition then_ (me : addr) (ok : seq) : M addr :=
  let* f := create in
  on_done me (then_done me ok f) >>
  on_fail me (then_fail me f) >>
  on_cancel me (then_cancel me f) >>
  ret f.

(** [needs_all].  [pending] is moved into [p] before [pending.size()]
    is read, and a vector that was moved from is empty. *)
Definition needs_all (pending : list addr) : M addr :=
  let* f := create in
  let* count := new_counter in
  let p := pending in
  let pending := @nil addr in
  store_counter count (Z.of_nat (length pending)) >>
  for_each p (fun it =>
    on_done it (needs_all_ok f count) >>
    on_fail it (needs_all_fail count p f) >>
    on_cancel it (needs_all_can count p f) >>
    ret tt) >>
  ret f.

(** The closure [h] of [needs_all]. *)
Definition needs_all_h (f : addr) (count : nat) : M unit :=
  let* v := pre_decrement count in
  let* d := get f in
  if (0 =? v)%Z && negb (is_ready d) then done f >> ret tt else ret tt.

(** The loop [for(auto &it : *p) if(!it->is_ready()) it->cancel();]. *)
Definition cancel_pending (p : list addr) : M unit :=
  for_each p (fun it =>
    let* i := get it in
    if negb (is_ready i) then cancel it >> ret tt else ret tt).

(** The caller's [check] and [each], called for the [i]-th time. *)
Definition is_check (e : event) : bool :=
  match e with ev_check _ _ => true | _ => false end.
Definition is_each (e : event) : bool :=
  match e with ev_each _ _ => true | _ => false end.

Definition call_check (fr : frame) (in_ : addr) : M bool :=
  let* tr := get_trace in
  let status := check fr (length (filter is_check tr)) in
  emit (ev_check in_ status) >>
  ret status.

Definition call_each (fr : frame) (in_ : addr) : M addr :=
  let* tr := get_trace in
  let* out := create in
  match each fr (length (filter is_each tr)) with
  | body_complete => done out >> ret tt
  | body_pending => ret tt
  | body_failed => fail_string out "body failed" "unknown" >> ret tt
  | body_cancelled => cancel out >> ret tt
  end >>
  emit (ev_each in_ out) >>
  ret out.

(** The closure [recurse] of [repeat], reached through the variable
    that holds it. *)
Definition recurse (frame_id : nat) (in_ : addr) : M addr :=
  let* fr := get_frame frame_id in
  let f := loop_future fr in
  let* lf := get f in
  if is_ready lf then ret f
  else
    let* status := call_check fr in_ in
    if status then done f
    else
      let* in' := call_each fr in_ in
      let* d := then_ in' (seq_repeat_step f in' frame_id) in
      let* d1 := on_fail d (fail_with f) in
      on_cancel d1 (repeat_cancel f).

(** What the read of a variable that has no value yet does to a run.
    [repeat] copies [code] into the closure that initialises [code]
    (line 270): the [shared_ptr] is read before it has a value, which is
    undefined behaviour on every call.  [copy_faults] is a run that dies
    there; [copy_goes_through] is a run in which the bytes read happen
    to be a null pointer (a zeroed stack), the copy never being used
    afterwards. *)
Inductive undefined_read : Type := copy_faults | copy_goes_through.

(** [repeat].  The variable [recurse] is local to the call of [code],
    so it goes out of scope when that call returns. *)
Definition repeat (u : undefined_read) (check : nat -> bool) (each : nat -> body) : M addr :=
  let* f := create in
  on_ready f ready_noop >>
  let* next := create in
  done next >>
  match u with
  | copy_faults => crash
  | copy_goes_through =>
      let* frame_id := push_frame (mk_frame true f check each) in
      (fun w => match recurse frame_id next w with
                | Ret w' _ => kill_frame frame_id w'
                | Exc w' e => (kill_frame frame_id >> throw e) w'
                | Crash => Crash
                | OutOfFuel => OutOfFuel
                end) >>
      on_ready f ready_create_done >>
      ret f
  end.

(** Bodies of the closures. *)
Definition call_ready_code (code : ready_code) (self : addr) : M unit :=
  match code with
  | ready_noop => ret tt
  | ready_create_done => let* g := create in done g >> ret tt
  | ready_user u => call_user u
  end.

Definition call_seq (s : seq) : M addr :=
  match s with
  | seq_repeat_step f in_ frame_id => recurse frame_id in_
  | seq_user t result =>
      emit (ev_call t) >>
      match result with
      | inl a => ret a
      | inr e => throw e
      end
  end.

Definition thunk_body (c : thunk) : M unit :=
  match c with
  | ready_handler self code => call_ready_code code self
  | propagate_done f => done f >> ret tt
  | propagate_cancel f => cancel f >> ret tt
  | then_done self ok f =>
      let* d := get f in
      if is_ready d then ret tt
      else let* s := call_seq ok in propagate s f >> ret tt
  | then_cancel self f =>
      let* d := get f in
      if is_ready d then ret tt else cancel f >> ret tt
  | needs_all_ok f count =>
      let* d := get f in
      if is_ready d then ret tt else needs_all_h f count
  | needs_all_can count p f =>
      let* d := get f in
      if is_ready d then ret tt
      else cancel_pending p >> cancel f >> ret tt
  | repeat_cancel f => fail_string f "cancelled" "unknown" >> ret tt
  | thunk_user u => call_user u
  end.

Definition fail_cb_body (c : fail_cb) (ex : exception) : M unit :=
  match c with
  | ready_fail_handler self code => call_ready_code code self
  | fail_with f => fail f ex >> ret tt
  | then_fail self f =>
      let* d := get f in
      if is_ready d then ret tt else fail f ex >> ret tt
  | needs_all_fail count p f =>
      let* d := get f in
      if is_ready d then ret tt
      else cancel_pending p >> fail f ex >> ret tt
  | fail_user u => call_user u
  end.

End Run.

(** The interpreter with [n] nested callback invocations allowed. *)
Fixpoint runner_at (n : nat) : runner :=
  match n with
  | 0 => mk_runner (fun _ => out_of_fuel) (fun _ _ => out_of_fuel) 0
  | S n' => mk_runner (thunk_body (runner_at n')) (fail_cb_body (runner_at n')) (S n')
  end.

(** ** Vocabulary of the statements *)

(** Writing a future. *)
Definition upd (a : addr) (f : base_future) (w : world) : world :=
  mk_world (<[a := f]> (heap w)) (counters w) (frames w) (trace w).

(** The trace left by callbacks [us] of the caller. *)
Definition trace_entries (us : list user_code) : list event :=
  map (fun u => ev_call (tag u)) us.

(** A callback that returns, or throws a [std::string]: what the
    [catch(std::string ex)] of the drains swallows. *)
Definition caught (u : user_code) : Prop :=
  throws u = None \/ exists s, throws u = Some (thrown_string s).

Definition is_thrown_string (e : exn) : bool :=
  match e with thrown_string _ => true | _ => false end.

(** Whether the future at [a] is pending. *)
Definition is_pending_at (w : world) (a : addr) : bool :=
  match heap w !! a with
  | Some f => is_pending f
  | None => false
  end.

(** A future after [fail(ex)], once its queues are empty. *)
Definition failed_future (ex : exception) : base_future :=
  mk_future failed [] [] [] (Some ex).

(** Changing every future of the heap. *)
Definition map_heap (g : addr -> base_future -> base_future) (w : world) : world :=
  mk_world (imap g (heap w)) (counters w) (frames w) (trace w).

(** A pending future with nothing queued. *)
Definition idle (d : base_future) : Prop :=
  state_ d = pending /\ on_done_ d = [] /\ on_fail_ d = [] /\ on_cancel_ d = [].

(** The state [needs_all] sets up and which lasts while no input has
    failed or been cancelled: the aggregate [f] is idle, the counter [c]
    has been decremented [k] times from 0, once at most for each input
    that is no longer pending, there are fewer than 2^32 inputs, and
    every input of [p] that is still pending holds exactly the three
    closures of [needs_all]. *)
Definition armed (w : world) (p : list addr) (f : addr) (c : nat) : Prop :=
  (exists d, heap w !! f = Some d /\ idle d) /\
  (f ∉ p) /\ NoDup p /\
  (exists k : nat, counters w !! c = Some (wrap_int (- Z.of_nat k)) /\
                   k + length (filter (is_pending_at w) p) <= length p) /\
  (Z.of_nat (length p) < 4294967296)%Z /\
  forall it, it ∈ p -> exists i, heap w !! it = Some i /\
    (state_ i = pending ->
       on_done_ i = [needs_all_ok f c] /\
       on_fail_ i = [needs_all_fail c p f] /\
       on_cancel_ i = [needs_all_can c p f]).

(** The registrations of the loop of [needs_all] over [q]. *)
Definition register_one (q p : list addr) (f : addr) (c : nat)
    (a : addr) (fut : base_future) : base_future :=
  if bool_decide (a ∈ q)
  then mk_future (state_ fut)
         (on_done_ fut ++ [needs_all_ok f c])
         (on_fail_ fut ++ [needs_all_fail c p f])
         (on_cancel_ fut ++ [needs_all_can c p f]) (ex_ fut)
  else fut.

(** Observations of a run. *)
Definition state_at (w : world) (a : addr) : option state := state_ <$> heap w !! a.

Definition empty_world : world := mk_world [] [] [] [].

Definition verdict_of {A} (o : outcome A) : verdict :=
  match o with
  | Ret _ _ => returned
  | Exc _ e => threw e
  | Crash => crashed
  | OutOfFuel => starved
  end.

Definition world_of {A} (o : outcome A) : world :=
  match o with
  | Ret w _ | Exc w _ => w
  | Crash | OutOfFuel => empty_world
  end.

Definition states_of {A} (o : outcome A) : list state := map state_ (heap (world_of o)).

(** A [check] that is false for its first [k] calls. *)
Definition check_after (k : nat) (i : nat) : bool := Nat.leb k i.

(** A script whose first answer is [x]. *)
Definition first_then {A} (x : A) (rest : nat -> A) (i : nat) : A :=
  match i with
  | 0 => x
  | S j => rest j
  end.

(** Worlds after [create] and after a line of the trace; the calls of
    [check] and [each] made so far. *)
Definition alloc (f : base_future) (w : world) : world :=
  mk_world (heap w ++ [f])%list (counters w) (frames w) (trace w).
Definition logged (e : event) (w : world) : world :=
  mk_world (heap w) (counters w) (frames w) (trace w ++ [e])%list.
Definition checks_made (w : world) : nat := length (filter is_check (trace w)).
Definition bodies_made (w : world) : nat := length (filter is_each (trace w)).
Definition complete_future : base_future := mk_future complete [] [] [] None.


(** ** Scenarios *)

Definition fail_some_reason : M addr :=
  let* f := create in fail_string (runner_at 1) f "some reason" "unknown".

Definition done_once : M addr :=
  let* f := create in done (runner_at 1) f.

Definition done_then_fail : M addr :=
  let* f := done_once in fail_string (runner_at 1) f "late" "unknown".

Definition needs_all_of_none : M addr := needs_all (runner_at 3) [].

Definition needs_all_of_two : M addr :=
  let* a := create in
  let* b := create in
  needs_all (runner_at 3) [a; b].

Definition needs_all_both_done : M addr :=
  let* na := needs_all_of_two in
  done (runner_at 3) 0 >> done (runner_at 3) 1 >> ret na.

Definition needs_all_one_failed : M addr :=
  let* na := needs_all_of_two in
  fail_string (runner_at 3) 0 "x" "unknown" >> ret na.

Definition needs_all_one_cancelled : M addr :=
  let* na := needs_all_of_two in
  cancel (runner_at 3) 0 >> ret na.

Definition propagate_target_failed : M addr :=
  let* s := create in
  let* t := create in
  propagate (runner_at 2) s t >> fail_string (runner_at 2) t "early" "unknown".

Definition propagate_source_done_late : M addr :=
  propagate_target_failed >> done (runner_at 2) 0.

Definition repeat_pending_body : M addr :=
  repeat (runner_at 4) copy_goes_through (check_after 1) (fun _ => body_pending).

Definition repeat_pending_body_completed : M addr :=
  repeat_pending_body >> done (runner_at 4) 2.

Definition repeat_on_plain_stack : M addr :=
  repeat (runner_at 4) copy_faults (check_after 1) (fun _ => body_pending).

(** [complete_base_future]. *)
Definition complete_base_future (r : runner) : M addr :=
  let* f := create in
  done r f >> ret f.

(** Futures persist, and one that is ready stays ready. *)
Definition stays_ready (w w' : world) : Prop :=
  forall a f, heap w !! a = Some f ->
    exists f', heap w' !! a = Some f' /\ (state_ f <> pending -> state_ f' <> pending).

Definition outcome_steady {A} (w : world) (o : outcome A) : Prop :=
  match o with
  | Ret w' _ | Exc w' _ => stays_ready w w'
  | Crash | OutOfFuel => True
  end.

Definition steady {A} (m : M A) : Prop := forall w, outcome_steady w (m w).

Definition steady_runner (r : runner) : Prop :=
  (forall c, steady (run_thunk r c)) /\ (forall c ex, steady (run_fail_cb r c ex)).

(** What a call leaves of a future [a] that was ready before it. *)
Definition still_ready {A} (a : addr) (o : outcome A) : Prop :=
  match o with
  | Ret w' _ | Exc w' _ => exists f', heap w' !! a = Some f' /\ is_ready f' = true
  | Crash | OutOfFuel => True
  end.

(** A caller completing the futures of [l] one after another:
    [for(auto &it : l) it->done();]. *)
Definition done_each (r : runner) (l : list addr) : M unit :=
  for_each l (fun it => done r it >> ret tt).

(** ** Sample heaps *)

Definition two_idle : world := mk_world [new_future; new_future] [] [] [].
Definition one_complete : world := mk_world [complete_future; new_future] [] [] [].

End Base.

(** * Properties of cps::future<T> *)
Module TypedFacts.
Import Typed.

Lemma state_eqb_eq a b : state_eqb a b = true <-> a = b.
Proof. destruct a, b; simpl; split; congruence. Qed.

Section Observers.

Context {T : Type} (T_default : T).
Implicit Types (f : @future T) (w : @world T).

(** C5.  [value()] returns the stored value in state done; it throws
    the not-ready error when pending, the was-cancelled error when
    cancelled and the stored exception when failed; in no other state
    than done does it return a value. *)
Theorem value_by_state f :
  (state_ f = done_state -> value f = inl (value_ f)) /\
  (state_ f = pending -> value f = inr NotReady) /\
  (state_ f = cancelled -> value f = inr WasCancelled) /\
  (forall e, state_ f = failed -> ex_ f = Some e -> value f = inr e) /\
  (state_ f <> done_state -> exists e, value f = inr e).
Proof.
  unfold value, NotReady, WasCancelled.
  repeat split.
  - intros ->. reflexivity.
  - intros ->. reflexivity.
  - intros ->. reflexivity.
  - intros e -> ->. reflexivity.
  - intros Hs. destruct (state_ f); try congruence; eauto.
    destruct (ex_ f); eauto.
Qed.

(** C10.  In state done [value(ec)] returns the stored value and leaves
    [ec] as it was; in the three other states it returns [T()] and
    assigns the code of that state. *)
Theorem value_ec_frame {error_code : Type} (make_error_code : future_errc -> error_code)
    f (ec : error_code) :
  (state_ f = done_state -> value_ec T_default make_error_code f ec = (value_ f, ec)) /\
  (state_ f = pending ->
     value_ec T_default make_error_code f ec = (T_default, make_error_code is_pending_errc)) /\
  (state_ f = failed ->
     value_ec T_default make_error_code f ec = (T_default, make_error_code is_failed_errc)) /\
  (state_ f = cancelled ->
     value_ec T_default make_error_code f ec = (T_default, make_error_code is_cancelled_errc)).
Proof.
  unfold value_ec. repeat split; intros ->; reflexivity.
Qed.

End Observers.

Lemma run_task_S {T : Type} n t me :
  @run_task T (S n) t me = task_body (run_task n) t me.
Proof. reflexivity. Qed.

#[local] Arguments run_task : simpl never.

(** Exposes the next call of a monadic program applied to a world. *)
Ltac norm := unfold bind, ret, try_catch, shared; cbv beta iota.

(** ** Resolved futures never change *)
Section Frame.

Context {T : Type}.
Implicit Types (f : @future T) (w : @world T).
Local Abbreviation M := (@M T).
Local Abbreviation future := (@future T).
Local Abbreviation safe := (@Typed.safe T _).
Local Abbreviation code_safe := (@Typed.code_safe T).

Lemma extends_refl w : extends w w.
Proof. intros a f H. eauto. Qed.

Lemma extends_trans w1 w2 w3 : extends w1 w2 -> extends w2 w3 -> extends w1 w3.
Proof.
  intros H12 H23 a f Ha.
  destruct (H12 a f Ha) as (f2 & Ha2 & E2).
  destruct (H23 a f2 Ha2) as (f3 & Ha3 & E3).
  exists f3. split; [assumption|].
  intros Hs. specialize (E2 Hs). subst f2. auto.
Qed.

Lemma extends_put w a f f' l :
  heap w !! a = Some f -> state_ f = pending ->
  extends w (mk_world (<[a := f']> (heap w)) l).
Proof.
  intros Ha Hs b g Hb. simpl.
  destruct (decide (a = b)) as [->|Hne].
  - exists f'. split.
    + apply list_lookup_insert_eq. eapply lookup_lt_Some; eauto.
    + intros Hg. congruence.
  - exists g. split; [|auto]. rewrite list_lookup_insert_ne; auto.
Qed.

Lemma extends_alloc w f l : extends w (mk_world (heap w ++ [f]) l).
Proof.
  intros a g Ha. exists g. split; [|auto]. simpl.
  apply lookup_app_l_Some. assumption.
Qed.

Lemma extends_log w l : extends w (mk_world (heap w) l).
Proof. intros a g Ha. eauto. Qed.

Lemma outcome_extends_trans {A} w w' (o : outcome A) :
  extends w w' -> outcome_extends w' o -> outcome_extends w o.
Proof. destruct o; simpl; eauto using extends_trans. Qed.

Lemma safe_ret {A} (a : A) : safe (ret a).
Proof. intros w. apply extends_refl. Qed.

Lemma safe_throw {A} e : safe (@throw T A e).
Proof. intros w. apply extends_refl. Qed.

Lemma safe_crash {A} : safe (@crash T A).
Proof. intros w. exact I. Qed.

Lemma safe_bind {A B} (m : M A) (k : A -> M B) :
  safe m -> (forall a, safe (k a)) -> safe (bind m k).
Proof.
  intros Hm Hk w. unfold bind. specialize (Hm w).
  destruct (m w) as [w' a|w' e| |]; simpl in *; auto.
  eapply outcome_extends_trans; [eassumption|apply Hk].
Qed.

Lemma safe_try_catch {A} (m : M A) h :
  safe m -> (forall e, safe (h e)) -> safe (try_catch m h).
Proof.
  intros Hm Hh w. unfold try_catch. specialize (Hm w).
  destruct (m w) as [w' a|w' e| |]; simpl in *; auto.
  eapply outcome_extends_trans; [eassumption|apply Hh].
Qed.

Lemma safe_for_each {A} (l : list A) body :
  (forall x, safe (body x)) -> safe (for_each l body).
Proof.
  intros Hb. induction l as [|x l IH]; simpl.
  - apply safe_ret.
  - apply safe_bind; auto.
Qed.

Lemma safe_get a : safe (get a).
Proof. intros w. unfold get. destruct (heap w !! a); simpl; auto using extends_refl. Qed.

Lemma safe_record t x : safe (@record T t x).
Proof. intros w. apply extends_log. Qed.

Lemma safe_create_shared d l : safe (@create_shared T d l).
Proof. intros w. apply extends_alloc. Qed.

Lemma safe_lift {A} (r : A + exn) : safe (@lift T A r).
Proof. destruct r; [apply safe_ret|apply safe_throw]. Qed.

(** Reading a future and going on knowing what was read. *)
Lemma safe_get_bind {A} a (k : future -> M A) :
  (forall w f, heap w !! a = Some f -> outcome_extends w (k f w)) ->
  safe (bind (get a) k).
Proof.
  intros Hk w. unfold bind, get.
  destruct (heap w !! a) as [f|] eqn:Ha; simpl; auto.
Qed.

(** Writing a future that is still pending. *)
Lemma modify_pending w a f g :
  heap w !! a = Some f ->
  modify a g w = Ret (mk_world (<[a := g f]> (heap w)) (log w)) tt.
Proof. intros Ha. unfold modify, bind, get, put. rewrite Ha. reflexivity. Qed.

Section Run.

Variable run : task -> addr -> M unit.
Hypothesis run_safe : forall t me, safe (run t me).

Lemma safe_call_when_ready me code : safe (call_when_ready run me code).
Proof.
  unfold call_when_ready. apply safe_get_bind. intros w f Ha.
  destruct (state_eqb (state_ f) pending) eqn:Hs; simpl.
  - apply state_eqb_eq in Hs.
    unfold bind, put, ret, shared; simpl.
    eapply extends_put; eauto.
  - unfold bind, ret, shared.
    specialize (run_safe code me w).
    destruct (run code me w); simpl in *; auto.
Qed.


Lemma code_safe_modify me g :
  (forall f, state_ (g f) = state_ f) -> code_safe me (fun me => modify me g).
Proof.
  intros Hg w f Ha Hs. rewrite (modify_pending _ _ _ _ Ha). split.
  - eapply extends_put; eauto.
  - exists (g f). simpl. split.
    + apply list_lookup_insert_eq. eapply lookup_lt_Some; eauto.
    + rewrite Hg. assumption.
Qed.

Lemma safe_apply_state me code s :
  code_safe me code -> safe (apply_state run me code s).
Proof.
  intros Hcode. unfold apply_state.
  destruct (state_eqb s pending); [apply safe_crash|].
  apply safe_get_bind. intros w f Ha.
  destruct (state_eqb (state_ f) pending) eqn:Hs; simpl.
  2: { apply extends_refl. }
  apply state_eqb_eq in Hs.
  specialize (Hcode w f Ha Hs). unfold bind at 1.
  destruct (code me w) as [w1 []|w1 e| |]; simpl; auto.
  destruct Hcode as (H01 & f1 & Ha1 & Hs1).
  eapply outcome_extends_trans; [exact H01|].
  unfold bind at 1, get. rewrite Ha1.
  unfold bind at 1, put.
  set (w2 := mk_world (<[me := set_tasks [] f1]> (heap w1)) (log w1)).
  assert (H12 : extends w1 w2) by (eapply extends_put; eauto).
  assert (Ha2 : heap w2 !! me = Some (set_tasks [] f1)).
  { simpl. apply list_lookup_insert_eq. eapply lookup_lt_Some; eauto. }
  eapply outcome_extends_trans; [exact H12|].
  unfold bind at 1. rewrite (modify_pending _ _ _ _ Ha2).
  eapply outcome_extends_trans; [eapply extends_put; [exact Ha2|exact Hs1]|].
  apply safe_bind; [|intros; apply safe_ret].
  apply safe_for_each. intros v. apply run_safe.
Qed.

Lemma safe_done me v : safe (done run me v).
Proof. apply safe_apply_state, code_safe_modify. reflexivity. Qed.

Lemma store_failure_state e f : state_ (store_failure e f) = state_ f.
Proof. unfold store_failure. destruct (what_of e); reflexivity. Qed.

Lemma safe_fail me e : safe (fail run me e).
Proof. apply safe_apply_state, code_safe_modify, store_failure_state. Qed.

Lemma safe_fail_exception_pointer me ex : safe (fail_exception_pointer run me ex).
Proof.
  apply safe_apply_state. destruct ex as [e|].
  - apply code_safe_modify, store_failure_state.
  - intros w f _ _. exact I.
Qed.

Lemma safe_cancel me : safe (cancel run me).
Proof.
  apply safe_apply_state. intros w f Ha Hs. simpl. split; [apply extends_refl|eauto].
Qed.

Lemma safe_fail_from me src : safe (fail_from run me src).
Proof.
  unfold fail_from. apply safe_bind; [apply safe_get|]. intros s0.
  destruct (negb (is_failed s0)); [apply safe_throw|].
  apply safe_apply_state. intros w f Ha Hs.
  unfold bind, get. destruct (heap w !! src) as [s1|] eqn:Hsrc; [|exact I].
  destruct (exception_ptr s1) as [[e|]|e]; try exact I;
    apply (code_safe_modify me _ (store_failure_state e) w f Ha Hs).
Qed.

Lemma safe_call_user u x : safe (@call_user T u x).
Proof.
  unfold call_user. apply safe_bind; [apply safe_record|]. intros _.
  destruct (throws u); [apply safe_throw|apply safe_ret].
Qed.

Lemma safe_call_continuation k x : safe (@call_continuation T k x).
Proof.
  destruct k; simpl; (apply safe_bind; [apply safe_record|]); intros _;
    [apply safe_ret|apply safe_throw].
Qed.

Lemma safe_call_handler h original : safe (@call_handler T h original).
Proof.
  unfold call_handler. destruct original as [e|]; [|apply safe_crash].
  destruct h as [code|accepts code].
  - destruct (what_of e); [|apply safe_ret].
    apply safe_bind; [apply safe_call_continuation|intros; apply safe_ret].
  - destruct (accepts e); [|apply safe_ret].
    apply safe_bind; [apply safe_call_continuation|intros; apply safe_ret].
Qed.

Lemma safe_wire (f inner : addr) : safe (wire run f inner).
Proof.
  unfold wire, on_done, on_fail, on_cancel.
  repeat (apply safe_bind; [apply safe_call_when_ready|intros ?]).
  apply safe_ret.
Qed.

Lemma safe_try_handlers items (f me : addr) : safe (try_handlers run items f me).
Proof.
  induction items as [|it rest IH]; simpl.
  - apply safe_bind; [apply safe_fail_from|intros; apply safe_ret].
  - apply safe_bind; [apply safe_get|]. intros m.
    apply safe_bind; [apply safe_call_handler|]. intros [i|]; [apply safe_wire|apply IH].
Qed.

Lemma safe_then_task (f : addr) ok items me : safe (then_task run f ok items me).
Proof.
  unfold then_task. apply safe_try_catch.
  - apply safe_bind; [apply safe_get|]. intros d.
    destruct (is_ready d); [apply safe_ret|].
    apply safe_bind; [apply safe_get|]. intros m.
    destruct (is_done m).
    { apply safe_bind; [apply safe_lift|]. intros v.
      apply safe_bind; [apply safe_call_continuation|]. intros i. apply safe_wire. }
    destruct (is_failed m); [apply safe_try_handlers|].
    destruct (is_cancelled m); [|apply safe_ret].
    apply safe_bind; [apply safe_cancel|intros; apply safe_ret].
  - intros e. apply safe_bind; [apply safe_fail_exception_pointer|intros; apply safe_ret].
Qed.

Lemma safe_task_body t me : safe (task_body run t me).
Proof.
  destruct t as [code|code|code|code|f ok items]; simpl.
  - apply safe_call_user.
  - apply safe_bind; [apply safe_get|]. intros f.
    destruct (is_done f); [|apply safe_ret].
    apply safe_bind; [apply safe_lift|]. intros v.
    destruct code; simpl; [|apply safe_call_user].
    apply safe_bind; [apply safe_done|intros; apply safe_ret].
  - apply safe_bind; [apply safe_get|]. intros f.
    destruct (is_failed f); [|apply safe_ret].
    apply safe_bind; [apply safe_lift|]. intros v.
    destruct code; simpl; [|apply safe_call_user].
    apply safe_bind; [apply safe_fail_from|intros; apply safe_ret].
  - apply safe_bind; [apply safe_get|]. intros f.
    destruct (is_cancelled f); [|apply safe_ret].
    destruct code; simpl; [|apply safe_call_user].
    apply safe_bind; [apply safe_cancel|intros; apply safe_ret].
  - apply safe_then_task.
Qed.

Lemma safe_then_ d me ok items : safe (then_ d run me ok items).
Proof.
  unfold then_. apply safe_bind; [apply safe_create_shared|]. intros f.
  apply safe_bind; [apply safe_call_when_ready|intros; apply safe_ret].
Qed.

End Run.

Lemma safe_run_task n : forall t me, safe (run_task n t me).
Proof.
  induction n as [|n IH]; intros t me; simpl.
  - intros w. exact I.
  - apply safe_task_body. exact IH.
Qed.

End Frame.

(** ** Symbolic execution of the member functions *)
Section Exec.

Context {T : Type} (T_default : T).
Implicit Types (w : @world T).
Local Abbreviation M := (@M T).
Local Abbreviation future := (@future T).

Lemma lookup_upd_eq a (f g : future) w :
  heap w !! a = Some g -> heap (upd a f w) !! a = Some f.
Proof. intros H. simpl. apply list_lookup_insert_eq. eapply lookup_lt_Some; eauto. Qed.

Lemma lookup_upd_ne a b (f : future) w :
  a <> b -> heap (upd a f w) !! b = heap w !! b.
Proof. intros H. simpl. apply list_lookup_insert_ne; auto. Qed.

Lemma lookup_alloc_old a (f g : future) w :
  heap w !! a = Some g -> heap (alloc f w) !! a = Some g.
Proof. intros H. simpl. apply lookup_app_l_Some. assumption. Qed.

Lemma lookup_alloc_new (f : future) w :
  heap (alloc f w) !! length (heap w) = Some f.
Proof. simpl. apply list_lookup_middle. reflexivity. Qed.

Lemma upd_upd a (f g : future) w : upd a f (upd a g w) = upd a f w.
Proof. unfold upd. simpl. f_equal. apply list_insert_insert_eq. Qed.

Lemma get_Some a (f : future) w : heap w !! a = Some f -> get a w = Ret w f.
Proof. intros H. unfold get. rewrite H. reflexivity. Qed.

Lemma modify_Some a g (f : future) w :
  heap w !! a = Some f -> modify a g w = Ret (upd a (g f) w) tt.
Proof. intros H. unfold modify, bind. rewrite (get_Some _ _ _ H). reflexivity. Qed.

Lemma create_shared_eq l w :
  create_shared T_default l w = Ret (alloc (new_future T_default l) w) (length (heap w)).
Proof. reflexivity. Qed.

Section Run.
Variable run : task -> addr -> M unit.

Lemma call_when_ready_pending me code (f : future) w :
  heap w !! me = Some f -> state_ f = pending ->
  call_when_ready run me code w = Ret (upd me (set_tasks (tasks_ f ++ [code]) f) w) me.
Proof.
  intros H Hs. unfold call_when_ready, bind. rewrite (get_Some _ _ _ H), Hs. reflexivity.
Qed.

Lemma call_when_ready_ready me code (f : future) w :
  heap w !! me = Some f -> state_ f <> pending ->
  call_when_ready run me code w = (run code me >> ret me) w.
Proof.
  intros H Hs. unfold call_when_ready, bind. rewrite (get_Some _ _ _ H).
  destruct (state_ f); try congruence; simpl; destruct (run code me w); reflexivity.
Qed.

Lemma apply_state_pending me code s (f f1 : future) w w1 :
  s <> pending -> heap w !! me = Some f -> state_ f = pending ->
  code me w = Ret w1 tt -> heap w1 !! me = Some f1 ->
  apply_state run me code s w
  = (for_each (tasks_ f1) (fun v => run v me) >> ret me) (upd me (resolved s f1) w1).
Proof.
  intros Hs H Hp Hcode H1. unfold apply_state.
  destruct (state_eqb s pending) eqn:E; [apply state_eqb_eq in E; congruence|].
  unfold bind at 1. rewrite (get_Some _ _ _ H), Hp. simpl.
  unfold bind at 1. rewrite Hcode.
  unfold bind at 1. rewrite (get_Some _ _ _ H1).
  unfold bind at 1. unfold put at 1.
  unfold bind at 1.
  rewrite (modify_Some me (set_state s) (set_tasks [] f1)).
  2: { apply (lookup_upd_eq me _ f1 w1 H1). }
  fold (upd me (set_tasks [] f1) w1). rewrite upd_upd. reflexivity.
Qed.

Lemma apply_state_terminal me code s (f : future) w :
  s <> pending -> heap w !! me = Some f -> state_ f <> pending ->
  apply_state run me code s w = Exc w (double_resolve s f).
Proof.
  intros Hs H Hp. unfold apply_state.
  destruct (state_eqb s pending) eqn:E; [apply state_eqb_eq in E; congruence|].
  unfold bind. rewrite (get_Some _ _ _ H).
  destruct (state_ f) eqn:E'; try congruence; reflexivity.
Qed.

Lemma done_pending me v (f : future) w :
  heap w !! me = Some f -> state_ f = pending ->
  done run me v w
  = (for_each (tasks_ f) (fun t => run t me) >> ret me)
      (upd me (resolved done_state (set_value v f)) w).
Proof.
  intros H Hp. unfold done.
  erewrite apply_state_pending; [|discriminate|exact H|exact Hp|apply (modify_Some _ _ _ _ H)|eapply lookup_upd_eq; exact H].
  rewrite upd_upd. reflexivity.
Qed.

Lemma fail_pending me e (f : future) w :
  heap w !! me = Some f -> state_ f = pending ->
  fail run me e w
  = (for_each (tasks_ f) (fun t => run t me) >> ret me)
      (upd me (resolved failed (store_failure e f)) w).
Proof.
  intros H Hp. unfold fail.
  erewrite apply_state_pending; [|discriminate|exact H|exact Hp|apply (modify_Some _ _ _ _ H)|eapply lookup_upd_eq; exact H].
  rewrite upd_upd. unfold store_failure. destruct (what_of e); reflexivity.
Qed.

Lemma cancel_pending me (f : future) w :
  heap w !! me = Some f -> state_ f = pending ->
  cancel run me w
  = (for_each (tasks_ f) (fun t => run t me) >> ret me) (upd me (resolved cancelled f) w).
Proof.
  intros H Hp. unfold cancel.
  erewrite apply_state_pending; [|discriminate|exact H|exact Hp|reflexivity|exact H].
  reflexivity.
Qed.

Lemma fail_from_pending me src e (f s : future) w :
  heap w !! me = Some f -> state_ f = pending ->
  heap w !! src = Some s -> state_ s = failed -> ex_ s = Some e ->
  fail_from run me src w
  = (for_each (tasks_ f) (fun t => run t me) >> ret me)
      (upd me (resolved failed (store_failure e f)) w).
Proof.
  intros H Hp Hs Hf He. unfold fail_from.
  unfold bind at 1. rewrite (get_Some _ _ _ Hs). unfold is_failed. rewrite Hf. simpl.
  erewrite apply_state_pending; [|discriminate|exact H|exact Hp| |eapply lookup_upd_eq; exact H].
  2: { unfold bind. rewrite (get_Some _ _ _ Hs). unfold exception_ptr. rewrite Hf, He. simpl.
       apply (modify_Some _ _ _ _ H). }
  rewrite upd_upd. unfold store_failure. destruct (what_of e); reflexivity.
Qed.


Lemma call_handler_unmatched h e w :
  handles h e = false -> call_handler h (Some e) w = Ret w None.
Proof.
  destruct h as [code|accepts code]; simpl.
  - destruct (what_of e); [discriminate|reflexivity].
  - intros ->. reflexivity.
Qed.



(** The closure of [then], case by case. *)
Lemma then_task_guard (f : addr) ok items me (d : future) w :
  heap w !! f = Some d -> state_ d <> pending ->
  then_task run f ok items me w = Ret w tt.
Proof.
  intros Hd Hs. unfold then_task, try_catch, bind. rewrite (get_Some _ _ _ Hd).
  unfold is_ready. destruct (state_ d); try congruence; reflexivity.
Qed.

Lemma then_task_done (f : addr) ok items me (d m : future) w :
  heap w !! f = Some d -> state_ d = pending ->
  heap w !! me = Some m -> state_ m = done_state ->
  then_task run f ok items me w
  = try_catch
      (let* inner := call_continuation ok (arg_value (value_ m)) in wire run f inner)
      (fun ex => fail_exception_pointer run f (Some ex) >> ret tt) w.
Proof.
  intros Hd Hs Hm Hms. unfold then_task, try_catch.
  unfold bind at 1. rewrite (get_Some _ _ _ Hd). unfold is_ready. rewrite Hs. simpl.
  unfold bind at 1. rewrite (get_Some _ _ _ Hm). unfold is_done. rewrite Hms. simpl.
  unfold bind at 1. unfold value. rewrite Hms. reflexivity.
Qed.



Lemma set_tasks_set_tasks l l' (f : future) : set_tasks l (set_tasks l' f) = set_tasks l f.
Proof. reflexivity. Qed.

Lemma wire_pending (f inner : addr) (d i : future) w :
  f <> inner ->
  heap w !! f = Some d -> state_ d = pending ->
  heap w !! inner = Some i -> state_ i = pending ->
  wire run f inner w
  = Ret (upd f (set_tasks (tasks_ d ++ [task_on_cancel (cancel_of inner)]) d)
          (upd inner
             (set_tasks (tasks_ i ++ [task_on_done (done_into f);
                                      task_on_fail (fail_from_into f inner);
                                      task_on_cancel (cancel_of f)]) i) w)) tt.
Proof.
  intros Hne Hd Hds Hi His. unfold wire, on_done, on_fail, on_cancel.
  unfold bind at 1. rewrite (call_when_ready_pending _ _ _ _ Hi His).
  unfold bind at 1. erewrite call_when_ready_pending;
    [|eapply lookup_upd_eq; exact Hi|exact His].
  unfold bind at 1. erewrite call_when_ready_pending;
    [|eapply lookup_upd_eq; eapply lookup_upd_eq; exact Hi|exact His].
  rewrite !upd_upd. simpl tasks_. rewrite <- !app_assoc. simpl app.
  unfold bind at 1. erewrite call_when_ready_pending;
    [|rewrite lookup_upd_ne by auto; exact Hd|exact Hds].
  reflexivity.
Qed.

(** A wrapper whose state test fails does nothing. *)
Lemma task_on_done_skip code me (m : future) w :
  heap w !! me = Some m -> state_ m <> done_state ->
  task_body run (task_on_done code) me w = Ret w tt.
Proof.
  intros Hm Hs. simpl. unfold bind. rewrite (get_Some _ _ _ Hm).
  unfold is_done. destruct (state_ m); try congruence; reflexivity.
Qed.

Lemma task_on_fail_skip code me (m : future) w :
  heap w !! me = Some m -> state_ m <> failed ->
  task_body run (task_on_fail code) me w = Ret w tt.
Proof.
  intros Hm Hs. simpl. unfold bind. rewrite (get_Some _ _ _ Hm).
  unfold is_failed. destruct (state_ m); try congruence; reflexivity.
Qed.

Lemma task_on_cancel_skip code me (m : future) w :
  heap w !! me = Some m -> state_ m <> cancelled ->
  task_body run (task_on_cancel code) me w = Ret w tt.
Proof.
  intros Hm Hs. simpl. unfold bind. rewrite (get_Some _ _ _ Hm).
  unfold is_cancelled. destruct (state_ m); try congruence; reflexivity.
Qed.

Lemma task_on_done_into (f : addr) me (m : future) w :
  heap w !! me = Some m -> state_ m = done_state ->
  task_body run (task_on_done (done_into f)) me w = (done run f (value_ m) >> ret tt) w.
Proof.
  intros Hm Hs. simpl. unfold bind at 1. rewrite (get_Some _ _ _ Hm).
  unfold is_done. rewrite Hs. simpl. unfold bind at 1, value. rewrite Hs. reflexivity.
Qed.

End Run.




(** *** Resolving twice *)

(** C1 (as amended).  On [future<T>], a call of [done], [fail] or
    [cancel] on a future that is no longer pending throws the
    [std::logic_error] of [apply_state], whose text names the state asked
    for and the present one, and leaves the whole world (so the state,
    the value and the failure information of that future) as it was. *)
Theorem resolve_twice_rejected n w (a : addr) (f : future) :
  heap w !! a = Some f -> state_ f <> pending ->
  (forall v, done (run_task n) a v w = Exc w (double_resolve done_state f)) /\
  (forall e, fail (run_task n) a e w = Exc w (double_resolve failed f)) /\
  (forall m, fail_string (run_task n) a m w = Exc w (double_resolve failed f)) /\
  cancel (run_task n) a w = Exc w (double_resolve cancelled f).
Proof.
  intros Ha Hs. repeat split; intros;
    unfold fail_string, done, fail, cancel;
    apply apply_state_terminal; auto; discriminate.
Qed.

(** *** What a drain leaves of the resolution *)

Section Drain.

Variable run : task -> addr -> M unit.
Hypothesis run_safe : forall t me, safe (run t me).

Lemma drain_keeps (me : addr) (f0 : future) (l : list task) w :
  heap w !! me = Some f0 -> state_ f0 <> pending ->
  match (for_each l (fun t => run t me) >> ret me) w with
  | Ret w' _ | Exc w' _ => heap w' !! me = Some f0
  | Crash | OutOfFuel => True
  end.
Proof.
  intros Hme Hs.
  assert (Hsafe : safe (for_each l (fun t => run t me) >> ret me)).
  { apply safe_bind; [apply safe_for_each; intros; apply run_safe|intros; apply safe_ret]. }
  specialize (Hsafe w).
  destruct ((for_each l (fun t => run t me) >> ret me) w) as [w' x|w' e| |]; simpl in *; auto;
    destruct (Hsafe me f0 Hme) as (f' & Hf' & E); rewrite <- (E Hs); exact Hf'.
Qed.

(** Whatever the queued callbacks do, and whether or not one of them
    throws, the future that was resolved holds what the resolution
    stored. *)
Lemma done_outcome (me : addr) v (f : future) w :
  heap w !! me = Some f -> state_ f = pending ->
  match done run me v w with
  | Ret w' _ | Exc w' _ => heap w' !! me = Some (resolved done_state (set_value v f))
  | Crash | OutOfFuel => True
  end.
Proof.
  intros Hme Hs. rewrite (done_pending _ _ _ _ _ Hme Hs).
  apply drain_keeps; [eapply lookup_upd_eq; exact Hme|discriminate].
Qed.

Lemma fail_outcome (me : addr) e (f : future) w :
  heap w !! me = Some f -> state_ f = pending ->
  match fail run me e w with
  | Ret w' _ | Exc w' _ => heap w' !! me = Some (resolved failed (store_failure e f))
  | Crash | OutOfFuel => True
  end.
Proof.
  intros Hme Hs. rewrite (fail_pending _ _ _ _ _ Hme Hs).
  apply drain_keeps; [eapply lookup_upd_eq; exact Hme|].
  unfold store_failure. destruct (what_of e); discriminate.
Qed.

Lemma cancel_outcome (me : addr) (f : future) w :
  heap w !! me = Some f -> state_ f = pending ->
  match cancel run me w with
  | Ret w' _ | Exc w' _ => heap w' !! me = Some (resolved cancelled f)
  | Crash | OutOfFuel => True
  end.
Proof.
  intros Hme Hs. rewrite (cancel_pending _ _ _ _ Hme Hs).
  apply drain_keeps; [eapply lookup_upd_eq; exact Hme|discriminate].
Qed.

End Drain.

(** A queue of [on_ready] callbacks of the caller: the drain calls them
    in order and stops at the first one that throws. *)
Lemma drain_observers_quiet n (me : addr) (us : list user_code) w :
  Forall (fun u => throws u = None) us ->
  for_each (map task_on_ready us) (fun t => run_task (S n) t me) w
  = Ret (mk_world (heap w) (log w ++ ready_entries me us)%list) tt.
Proof.
  intros Hq. revert w. induction Hq as [|u us Hu _ IH]; intros w; simpl.
  - unfold ret, ready_entries. simpl. rewrite app_nil_r. destruct w; reflexivity.
  - rewrite run_task_S. simpl task_body. unfold call_user. rewrite Hu. norm.
    unfold record at 1. rewrite IH. simpl. unfold ready_entries. simpl.
    rewrite <- app_assoc. reflexivity.
Qed.

Lemma drain_observers_throw n (me : addr) (pre post : list user_code) u e w :
  Forall (fun u => throws u = None) pre -> throws u = Some e ->
  for_each (map task_on_ready (pre ++ u :: post)) (fun t => run_task (S n) t me) w
  = Exc (mk_world (heap w) (log w ++ ready_entries me (pre ++ [u]))%list) e.
Proof.
  intros Hq Hu. revert w. induction Hq as [|u0 us Hu0 _ IH]; intros w; simpl.
  - rewrite run_task_S. simpl task_body. unfold call_user. rewrite Hu. norm.
    unfold record at 1. reflexivity.
  - rewrite run_task_S. simpl task_body. unfold call_user at 1. rewrite Hu0. norm.
    unfold record at 1. rewrite IH. simpl. unfold ready_entries. simpl.
    rewrite <- app_assoc. reflexivity.
Qed.

(** [apply_state] has no
    [try] around the callbacks: when one of them throws, the exception
    leaves [done]; the state and the value are stored already, the
    callbacks queued before the throwing one have run, and those queued
    after it are dropped without being called. *)
Lemma drain_stops_at_throw n w (a : addr) (f : future) v pre post u e :
  heap w !! a = Some f -> state_ f = pending ->
  tasks_ f = map task_on_ready (pre ++ u :: post) ->
  Forall (fun u => throws u = None) pre -> throws u = Some e ->
  done (run_task (S n)) a v w
  = Exc (mk_world (<[a := resolved done_state (set_value v f)]> (heap w))
                  (log w ++ ready_entries a (pre ++ [u]))%list) e.
Proof.
  intros Ha Hs Ht Hq Hu. rewrite (done_pending _ _ _ _ _ Ha Hs). norm.
  rewrite Ht, (drain_observers_throw _ _ _ _ _ _ _ Hq Hu). reflexivity.
Qed.

(** *** The guard of [then] *)

(** When the derived future [f]
    is no longer pending, the closure that [then] queued on the source
    returns at once, whatever the source resolved to: nothing is
    written, no handler is called, nothing is thrown.  The closures
    [then] queues on an inner future have no such test: they call
    [done], [fail_from] or [cancel] on [f], which leaves [f] as it is
    and throws the [std::logic_error] of [apply_state] into the drain
    of the inner future. *)
Lemma then_guard n w (f me : addr) ok items (d m : future) :
  heap w !! f = Some d -> state_ d <> pending ->
  run_task (S n) (task_then f ok items) me w = Ret w tt /\
  (heap w !! me = Some m -> state_ m = done_state ->
     run_task (S n) (task_on_done (done_into f)) me w
     = Exc w (double_resolve done_state d)) /\
  (heap w !! me = Some m -> state_ m = cancelled ->
     run_task (S n) (task_on_cancel (cancel_of f)) me w
     = Exc w (double_resolve cancelled d)).
Proof.
  intros Hd Hs. rewrite !run_task_S. split; [|split].
  - simpl. eapply then_task_guard; eauto.
  - intros Hm Hms. rewrite (task_on_done_into _ _ _ _ _ Hm Hms). norm.
    unfold done. erewrite apply_state_terminal; [|discriminate|exact Hd|exact Hs].
    reflexivity.
  - intros Hm Hms. simpl. norm. rewrite (get_Some _ _ _ Hm).
    unfold is_cancelled. rewrite Hms. simpl. norm.
    unfold cancel. erewrite apply_state_terminal; [|discriminate|exact Hd|exact Hs].
    reflexivity.
Qed.

(** *** Failing and asking for the reason *)

(** On [future<T>], after [fail(msg)] the reason is [msg], and
    [failure_reason()] throws on a future that has not failed. *)
Lemma fail_then_failure_reason n w (a : addr) (f : future) msg :
  heap w !! a = Some f -> state_ f = pending -> tasks_ f = [] ->
  exists w' f',
    fail_string (run_task n) a msg w = Ret w' a /\
    heap w' !! a = Some f' /\
    failure_reason f' = inl msg /\
    value f' = inr (runtime_error msg).
Proof.
  intros Ha Hs Ht. unfold fail_string.
  exists (upd a (resolved failed (store_failure (runtime_error msg) f)) w),
         (resolved failed (store_failure (runtime_error msg) f)).
  split; [|split; [|split]].
  - rewrite (fail_pending _ _ _ _ _ Ha Hs), Ht. reflexivity.
  - eapply lookup_upd_eq; exact Ha.
  - reflexivity.
  - reflexivity.
Qed.

Lemma failure_reason_not_failed (f : future) :
  state_ f <> failed -> failure_reason f = inr NotFailed.
Proof.
  intros Hs. unfold failure_reason. destruct (state_ f); try congruence; reflexivity.
Qed.

End Exec.

Lemma value_by_state_witness :
  value (mk_future failed [] 0 "boom" (Some (runtime_error "boom")) "f")
  = inr (runtime_error "boom").
Proof.
  destruct (value_by_state (mk_future failed [] 0 "boom" (Some (runtime_error "boom")) "f"))
    as (_ & _ & _ & H & _).
  apply H; reflexivity.
Defined.

Lemma value_ec_frame_witness :
  value_ec 0 (fun c => match c with is_pending_errc => 1 | is_failed_errc => 2 | is_cancelled_errc => 3 end)
    (mk_future done_state [] 42 "" None "f") 7 = (42, 7).
Proof.
  destruct (value_ec_frame 0
              (fun c => match c with is_pending_errc => 1 | is_failed_errc => 2 | is_cancelled_errc => 3 end)
              (mk_future done_state [] 42 "" None "f") 7) as (H & _).
  apply H; reflexivity.
Defined.

End TypedFacts.

(** * Properties of cps::base_future *)
Module BaseFacts.
Import Base.


Lemma base_state_eqb_eq a b : state_eqb a b = true <-> a = b.
Proof. destruct a, b; simpl; split; congruence. Qed.

Ltac bnorm := unfold bind, ret; cbv beta iota.

Lemma runner_at_S n :
  runner_at (S n) = mk_runner (thunk_body (runner_at n)) (fail_cb_body (runner_at n)) (S n).
Proof. reflexivity. Qed.

#[local] Arguments runner_at : simpl never.

Lemma base_lookup_upd_eq a f g w :
  heap w !! a = Some g -> heap (upd a f w) !! a = Some f.
Proof. intros H. simpl. apply list_lookup_insert_eq. eapply lookup_lt_Some; eauto. Qed.

Lemma base_lookup_upd_ne a b f w : a <> b -> heap (upd a f w) !! b = heap w !! b.
Proof. intros H. simpl. apply list_lookup_insert_ne; auto. Qed.

Lemma base_upd_upd a f g w : upd a f (upd a g w) = upd a f w.
Proof. unfold upd. simpl. f_equal. apply list_insert_insert_eq. Qed.

Lemma base_get_Some a f w : heap w !! a = Some f -> get a w = Ret w f.
Proof. intros H. unfold get. rewrite H. reflexivity. Qed.

Lemma base_modify_Some a g f w :
  heap w !! a = Some f -> modify a g w = Ret (upd a (g f) w) tt.
Proof. intros H. unfold modify, bind. rewrite (base_get_Some _ _ _ H). reflexivity. Qed.

Section Run.
Variable r : runner.

(** The three writes that start [done], [fail] and [cancel]. *)
Lemma done_start me f w :
  heap w !! me = Some f ->
  done r me w
  = (drain_done r (rounds r) me >> ret me)
      (upd me (mk_future complete (on_done_ f) [] [] (ex_ f)) w).
Proof.
  intros H. unfold done, mark_ready. bnorm.
  rewrite (base_modify_Some _ _ _ _ H).
  erewrite base_modify_Some by (eapply base_lookup_upd_eq; exact H).
  erewrite base_modify_Some by (eapply base_lookup_upd_eq; eapply base_lookup_upd_eq; exact H).
  rewrite !base_upd_upd. reflexivity.
Qed.

Lemma cancel_start me f w :
  heap w !! me = Some f ->
  cancel r me w
  = (drain_cancel r (rounds r) me >> crash)
      (upd me (mk_future cancelled [] [] (on_cancel_ f) (ex_ f)) w).
Proof.
  intros H. unfold cancel, mark_ready. bnorm.
  rewrite (base_modify_Some _ _ _ _ H).
  erewrite base_modify_Some by (eapply base_lookup_upd_eq; exact H).
  erewrite base_modify_Some by (eapply base_lookup_upd_eq; eapply base_lookup_upd_eq; exact H).
  rewrite !base_upd_upd. reflexivity.
Qed.

Lemma fail_start me ex f w :
  heap w !! me = Some f ->
  fail r me ex w
  = (drain_fail r (rounds r) me >> ret me)
      (upd me (mk_future failed [] (on_fail_ f) [] (Some ex)) w).
Proof.
  intros H. unfold fail, fail_, mark_ready. bnorm.
  rewrite (base_modify_Some _ _ _ _ H).
  erewrite base_modify_Some by (eapply base_lookup_upd_eq; exact H).
  erewrite base_modify_Some by (eapply base_lookup_upd_eq; eapply base_lookup_upd_eq; exact H).
  erewrite base_modify_Some by (do 3 eapply base_lookup_upd_eq; exact H).
  rewrite !base_upd_upd. reflexivity.
Qed.

Lemma drain_done_empty k me f w :
  heap w !! me = Some f -> on_done_ f = [] -> drain_done r k me w = Ret w tt.
Proof.
  intros H Hq. unfold drain_done. bnorm. rewrite (base_get_Some _ _ _ H), Hq. reflexivity.
Qed.

Lemma drain_cancel_empty k me f w :
  heap w !! me = Some f -> on_cancel_ f = [] -> drain_cancel r k me w = Ret w tt.
Proof.
  intros H Hq. unfold drain_cancel. bnorm. rewrite (base_get_Some _ _ _ H), Hq. reflexivity.
Qed.

Lemma drain_fail_empty k me f w :
  heap w !! me = Some f -> on_fail_ f = [] -> drain_fail r k me w = Ret w tt.
Proof.
  intros H Hq. unfold drain_fail. bnorm. rewrite (base_get_Some _ _ _ H), Hq. reflexivity.
Qed.

Lemma drain_done_step k me f t l w :
  heap w !! me = Some f -> on_done_ f = t :: l ->
  drain_done r (S k) me w
  = (for_each (t :: l) (fun it => guarded (run_thunk r it)) >> drain_done r k me)
      (upd me (set_on_done [] f) w).
Proof.
  intros H Hq. unfold drain_done at 1. unfold bind at 1. rewrite (base_get_Some _ _ _ H), Hq.
  simpl drain_done_rounds. unfold bind at 1. rewrite (base_modify_Some _ _ _ _ H).
  reflexivity.
Qed.

Lemma drain_cancel_step k me f t l w :
  heap w !! me = Some f -> on_cancel_ f = t :: l ->
  drain_cancel r (S k) me w
  = (for_each (t :: l) (fun it => guarded (run_thunk r it)) >> drain_cancel r k me)
      (upd me (set_on_cancel [] f) w).
Proof.
  intros H Hq. unfold drain_cancel at 1. unfold bind at 1. rewrite (base_get_Some _ _ _ H), Hq.
  simpl drain_cancel_rounds. unfold bind at 1. rewrite (base_modify_Some _ _ _ _ H).
  reflexivity.
Qed.

Lemma drain_fail_step k me f t l w :
  heap w !! me = Some f -> on_fail_ f = t :: l ->
  drain_fail r (S k) me w
  = (for_each (t :: l) (fun it =>
       let* f' := get me in
       match ex_ f' with
       | Some ex => guarded (run_fail_cb r it ex)
       | None => crash
       end) >> drain_fail r k me)
      (upd me (set_on_fail [] f) w).
Proof.
  intros H Hq. unfold drain_fail at 1. unfold bind at 1. rewrite (base_get_Some _ _ _ H), Hq.
  simpl drain_fail_rounds. unfold bind at 1. rewrite (base_modify_Some _ _ _ _ H).
  reflexivity.
Qed.

End Run.

(** Callbacks of the caller in the three queues. *)
Section Users.

Variable r : runner.
Hypothesis run_user : forall u, run_thunk r (thunk_user u) = call_user u.
Hypothesis run_fail_user : forall u ex, run_fail_cb r (fail_user u) ex = call_user u.

Lemma guarded_user_caught u w :
  caught u ->
  guarded (call_user u) w
  = Ret (mk_world (heap w) (counters w) (frames w) (trace w ++ [ev_call (tag u)])%list) tt.
Proof.
  intros [Hu|[s Hu]]; unfold guarded, call_user, bind, emit; rewrite Hu; reflexivity.
Qed.

Lemma guarded_user_rethrow u e w :
  throws u = Some e -> is_thrown_string e = false ->
  guarded (call_user u) w
  = Exc (mk_world (heap w) (counters w) (frames w) (trace w ++ [ev_call (tag u)])%list) e.
Proof.
  intros Hu He; unfold guarded, call_user, bind, emit; rewrite Hu; unfold throw.
  destruct e; try discriminate; reflexivity.
Qed.

Lemma run_users_caught (us : list user_code) w :
  Forall caught us ->
  for_each (map thunk_user us) (fun it => guarded (run_thunk r it)) w
  = Ret (mk_world (heap w) (counters w) (frames w) (trace w ++ trace_entries us)%list) tt.
Proof.
  intros Hq. revert w. induction Hq as [|u us Hu _ IH]; intros w; simpl.
  - unfold ret, trace_entries. simpl. rewrite app_nil_r. destruct w; reflexivity.
  - bnorm. rewrite run_user, (guarded_user_caught _ _ Hu), IH. simpl.
    unfold trace_entries. simpl. rewrite <- app_assoc. reflexivity.
Qed.

Lemma run_users_rethrow (pre post : list user_code) u e w :
  Forall caught pre -> throws u = Some e -> is_thrown_string e = false ->
  for_each (map thunk_user (pre ++ u :: post)) (fun it => guarded (run_thunk r it)) w
  = Exc (mk_world (heap w) (counters w) (frames w)
           (trace w ++ trace_entries (pre ++ [u]))%list) e.
Proof.
  intros Hq Hu He. revert w. induction Hq as [|u0 us Hu0 _ IH]; intros w; simpl.
  - bnorm. rewrite run_user, (guarded_user_rethrow _ _ _ Hu He). reflexivity.
  - bnorm. rewrite run_user, (guarded_user_caught _ _ Hu0), IH. simpl.
    unfold trace_entries. simpl. rewrite <- app_assoc. reflexivity.
Qed.

(** The same for the callbacks of [on_fail_], each given [*ex_]. *)
Lemma run_fail_users_caught (me : addr) (f : base_future) ex (us : list user_code) w :
  heap w !! me = Some f -> ex_ f = Some ex -> Forall caught us ->
  for_each (map fail_user us) (fun it =>
    let* f' := get me in
    match ex_ f' with
    | Some ex => guarded (run_fail_cb r it ex)
    | None => crash
    end) w
  = Ret (mk_world (heap w) (counters w) (frames w) (trace w ++ trace_entries us)%list) tt.
Proof.
  intros Hme Hex Hq. revert w Hme. induction Hq as [|u us Hu _ IH]; intros w Hme; simpl.
  - unfold ret, trace_entries. simpl. rewrite app_nil_r. destruct w; reflexivity.
  - bnorm. rewrite (base_get_Some _ _ _ Hme), Hex, run_fail_user, (guarded_user_caught _ _ Hu).
    rewrite IH by exact Hme. simpl.
    unfold trace_entries. simpl. rewrite <- app_assoc. reflexivity.
Qed.

Lemma run_fail_users_rethrow (me : addr) (f : base_future) ex (pre post : list user_code) u e w :
  heap w !! me = Some f -> ex_ f = Some ex ->
  Forall caught pre -> throws u = Some e -> is_thrown_string e = false ->
  for_each (map fail_user (pre ++ u :: post)) (fun it =>
    let* f' := get me in
    match ex_ f' with
    | Some ex => guarded (run_fail_cb r it ex)
    | None => crash
    end) w
  = Exc (mk_world (heap w) (counters w) (frames w)
           (trace w ++ trace_entries (pre ++ [u]))%list) e.
Proof.
  intros Hme Hex Hq Hu He. revert w Hme. induction Hq as [|u0 us Hu0 _ IH]; intros w Hme; simpl.
  - bnorm. rewrite (base_get_Some _ _ _ Hme), Hex, run_fail_user,
      (guarded_user_rethrow _ _ _ Hu He). reflexivity.
  - bnorm. rewrite (base_get_Some _ _ _ Hme), Hex, run_fail_user, (guarded_user_caught _ _ Hu0).
    rewrite IH by exact Hme. simpl.
    unfold trace_entries. simpl. rewrite <- app_assoc. reflexivity.
Qed.

Lemma done_users_caught w (a : addr) (f : base_future) us :
  rounds r <> 0 ->
  heap w !! a = Some f -> on_done_ f = map thunk_user us -> Forall caught us ->
  done r a w
  = Ret (mk_world (<[a := mk_future complete [] [] [] (ex_ f)]> (heap w))
           (counters w) (frames w) (trace w ++ trace_entries us)%list) a.
Proof.
  intros Hr Ha Hq Hus. rewrite (done_start _ _ _ _ Ha). bnorm.
  destruct us as [|u us].
  { erewrite drain_done_empty; [|eapply base_lookup_upd_eq; exact Ha|exact Hq].
    unfold upd, trace_entries. simpl. rewrite app_nil_r.
    rewrite Hq. reflexivity. }
  destruct (rounds r) as [|k]; [congruence|].
  erewrite drain_done_step; [|eapply base_lookup_upd_eq; exact Ha|simpl; rewrite Hq; reflexivity].
  rewrite base_upd_upd. bnorm.
  change (thunk_user u :: map thunk_user us) with (map thunk_user (u :: us)).
  rewrite (run_users_caught (u :: us) _ Hus).
  rewrite (drain_done_empty _ _ _ (mk_future complete [] [] [] (ex_ f))); [reflexivity| |reflexivity].
  simpl. apply list_lookup_insert_eq. eapply lookup_lt_Some; eauto.
Qed.

Lemma done_users_rethrow w (a : addr) (f : base_future) pre post u e :
  rounds r <> 0 ->
  heap w !! a = Some f -> on_done_ f = map thunk_user (pre ++ u :: post) ->
  Forall caught pre -> throws u = Some e -> is_thrown_string e = false ->
  done r a w
  = Exc (mk_world (<[a := mk_future complete [] [] [] (ex_ f)]> (heap w))
           (counters w) (frames w) (trace w ++ trace_entries (pre ++ [u]))%list) e.
Proof.
  intros Hr Ha Hq Hpre Hu He. rewrite (done_start _ _ _ _ Ha). bnorm.
  destruct (rounds r) as [|k]; [congruence|].
  destruct (map thunk_user (pre ++ u :: post)) as [|t0 l0] eqn:El.
  { destruct pre; discriminate. }
  erewrite drain_done_step; [|eapply base_lookup_upd_eq; exact Ha|simpl; rewrite Hq; reflexivity].
  rewrite base_upd_upd. bnorm. rewrite <- El.
  rewrite (run_users_rethrow _ _ _ _ _ Hpre Hu He). reflexivity.
Qed.

Lemma fail_users_caught w (a : addr) (f : base_future) ex us :
  rounds r <> 0 ->
  heap w !! a = Some f -> on_fail_ f = map fail_user us -> Forall caught us ->
  fail r a ex w
  = Ret (mk_world (<[a := failed_future ex]> (heap w))
           (counters w) (frames w) (trace w ++ trace_entries us)%list) a.
Proof.
  intros Hr Ha Hq Hus. rewrite (fail_start _ _ _ _ _ Ha). bnorm.
  destruct us as [|u us].
  { erewrite drain_fail_empty; [|eapply base_lookup_upd_eq; exact Ha|exact Hq].
    unfold upd, trace_entries, failed_future. simpl. rewrite app_nil_r.
    rewrite Hq. reflexivity. }
  destruct (rounds r) as [|k]; [congruence|].
  erewrite drain_fail_step; [|eapply base_lookup_upd_eq; exact Ha|simpl; rewrite Hq; reflexivity].
  rewrite base_upd_upd. bnorm.
  change (fail_user u :: map fail_user us) with (map fail_user (u :: us)).
  erewrite (run_fail_users_caught a _ ex (u :: us));
    [|eapply base_lookup_upd_eq; exact Ha|reflexivity|exact Hus].
  rewrite (drain_fail_empty _ _ _ (failed_future ex)); [reflexivity| |reflexivity].
  simpl. apply list_lookup_insert_eq. eapply lookup_lt_Some; eauto.
Qed.

Lemma fail_users_rethrow w (a : addr) (f : base_future) ex pre post u e :
  rounds r <> 0 ->
  heap w !! a = Some f -> on_fail_ f = map fail_user (pre ++ u :: post) ->
  Forall caught pre -> throws u = Some e -> is_thrown_string e = false ->
  fail r a ex w
  = Exc (mk_world (<[a := failed_future ex]> (heap w))
           (counters w) (frames w) (trace w ++ trace_entries (pre ++ [u]))%list) e.
Proof.
  intros Hr Ha Hq Hpre Hu He. rewrite (fail_start _ _ _ _ _ Ha). bnorm.
  destruct (rounds r) as [|k]; [congruence|].
  destruct (map fail_user (pre ++ u :: post)) as [|t0 l0] eqn:El.
  { destruct pre; discriminate. }
  erewrite drain_fail_step; [|eapply base_lookup_upd_eq; exact Ha|simpl; rewrite Hq; reflexivity].
  rewrite base_upd_upd. bnorm. rewrite <- El.
  erewrite (run_fail_users_rethrow a _ ex);
    [reflexivity|eapply base_lookup_upd_eq; exact Ha|reflexivity|exact Hpre|exact Hu|exact He].
Qed.

(** [cancel()]: the drain is that of [done()], but a drain that gets to
    its end is followed by the end of a function that returns nothing. *)
Lemma cancel_users_caught w (a : addr) (f : base_future) us :
  rounds r <> 0 ->
  heap w !! a = Some f -> on_cancel_ f = map thunk_user us -> Forall caught us ->
  cancel r a w = Crash.
Proof.
  intros Hr Ha Hq Hus. rewrite (cancel_start _ _ _ _ Ha). bnorm.
  destruct us as [|u us].
  { erewrite drain_cancel_empty; [reflexivity|eapply base_lookup_upd_eq; exact Ha|exact Hq]. }
  destruct (rounds r) as [|k]; [congruence|].
  erewrite drain_cancel_step; [|eapply base_lookup_upd_eq; exact Ha|simpl; rewrite Hq; reflexivity].
  rewrite base_upd_upd. bnorm.
  change (thunk_user u :: map thunk_user us) with (map thunk_user (u :: us)).
  rewrite (run_users_caught (u :: us) _ Hus).
  rewrite (drain_cancel_empty _ _ _ (mk_future cancelled [] [] [] (ex_ f))); [reflexivity| |reflexivity].
  simpl. apply list_lookup_insert_eq. eapply lookup_lt_Some; eauto.
Qed.

Lemma cancel_users_rethrow w (a : addr) (f : base_future) pre post u e :
  rounds r <> 0 ->
  heap w !! a = Some f -> on_cancel_ f = map thunk_user (pre ++ u :: post) ->
  Forall caught pre -> throws u = Some e -> is_thrown_string e = false ->
  cancel r a w
  = Exc (mk_world (<[a := mk_future cancelled [] [] [] (ex_ f)]> (heap w))
           (counters w) (frames w) (trace w ++ trace_entries (pre ++ [u]))%list) e.
Proof.
  intros Hr Ha Hq Hpre Hu He. rewrite (cancel_start _ _ _ _ Ha). bnorm.
  destruct (rounds r) as [|k]; [congruence|].
  destruct (map thunk_user (pre ++ u :: post)) as [|t0 l0] eqn:El.
  { destruct pre; discriminate. }
  erewrite drain_cancel_step; [|eapply base_lookup_upd_eq; exact Ha|simpl; rewrite Hq; reflexivity].
  rewrite base_upd_upd. bnorm. rewrite <- El.
  rewrite (run_users_rethrow _ _ _ _ _ Hpre Hu He). reflexivity.
Qed.

End Users.

(** ** needs_all *)

Lemma world_ext w w' :
  (forall a, heap w !! a = heap w' !! a) ->
  counters w = counters w' -> frames w = frames w' -> trace w = trace w' ->
  w = w'.
Proof.
  destruct w, w'; simpl. intros Hh -> -> ->. f_equal. apply list_eq. exact Hh.
Qed.

Lemma lookup_map_heap g w a : heap (map_heap g w) !! a = g a <$> heap w !! a.
Proof. simpl. apply list_lookup_imap. Qed.

Lemma pending_count_drop (P Q : addr -> bool) (p : list addr) x :
  x ∈ p -> P x = true -> Q x = false ->
  (forall y, Q y = true -> P y = true) ->
  length (filter Q p) < length (filter P p).
Proof.
  intros Hx HP HQ Himp.
  assert (Hle : forall q, length (filter Q q) <= length (filter P q)).
  { induction q as [|y q IH]; simpl; [lia|].
    rewrite !filter_cons. destruct (decide (Q y)) as [Hy|Hy].
    - destruct (decide (P y)) as [Hy'|Hy']; simpl; [lia|].
      exfalso. apply Hy'. apply Is_true_true. apply Himp. apply Is_true_true. exact Hy.
    - destruct (decide (P y)); simpl; lia. }
  induction p as [|y p IH]; [inversion Hx|].
  rewrite !filter_cons. apply elem_of_cons in Hx as [->|Hx].
  - destruct (decide (Q y)) as [Hy|Hy]; [rewrite HQ in Hy; contradiction|].
    destruct (decide (P y)) as [Hy'|Hy']; [|rewrite HP in Hy'; exfalso; apply Hy'; exact I].
    simpl. specialize (Hle p). lia.
  - specialize (IH Hx). destruct (decide (Q y)) as [Hy|Hy].
    + destruct (decide (P y)) as [Hy'|Hy']; simpl; [lia|].
      exfalso. apply Hy'. apply Is_true_true. apply Himp. apply Is_true_true. exact Hy.
    + destruct (decide (P y)); simpl; lia.
Qed.

(** The counter: a decrement of a wrapped value is the wrapped
    decrement, and the counter is 0 only after a multiple of 2^32
    decrements. *)
Lemma wrap_int_pred (a : Z) : wrap_int (wrap_int a - 1) = wrap_int (a - 1).
Proof.
  unfold wrap_int.
  replace ((a + 2147483648) `mod` 4294967296 - 2147483648 - 1 + 2147483648)%Z
    with ((a + 2147483648) `mod` 4294967296 - 1)%Z by lia.
  replace (a - 1 + 2147483648)%Z with (a + 2147483648 - 1)%Z by lia.
  rewrite <- (Zminus_mod_idemp_l (a + 2147483648) 1 4294967296). reflexivity.
Qed.

Lemma wrap_int_nonzero (k : Z) : (0 < k < 4294967296)%Z -> wrap_int (- k) <> 0%Z.
Proof.
  intros Hk. unfold wrap_int. intros H.
  pose proof (Z.div_mod (- k + 2147483648) 4294967296 ltac:(lia)) as Hd.
  pose proof (Z.mod_pos_bound (- k + 2147483648) 4294967296 ltac:(lia)) as Hb.
  lia.
Qed.

Section Armed.

Variables (p : list addr) (f : addr) (c : nat).

Lemma is_pending_at_Some w a i :
  heap w !! a = Some i -> is_pending_at w a = is_pending i.
Proof. intros H. unfold is_pending_at. rewrite H. reflexivity. Qed.

Lemma is_ready_pending (i : base_future) : is_ready i = negb (is_pending i).
Proof. reflexivity. Qed.

Lemma is_pending_true (i : base_future) : is_pending i = true <-> state_ i = pending.
Proof. apply base_state_eqb_eq. Qed.

Lemma armed_input w it :
  armed w p f c -> it ∈ p ->
  exists i, heap w !! it = Some i /\ it <> f /\
    (is_pending i = true -> on_cancel_ i = [needs_all_can c p f] /\
                           on_fail_ i = [needs_all_fail c p f] /\
                           on_done_ i = [needs_all_ok f c]).
Proof.
  intros (_ & Hf & _ & _ & _ & Hin) Hit. destruct (Hin it Hit) as (i & Hi & Hq).
  exists i. split; [exact Hi|]. split; [intros ->; contradiction|].
  intros Hp. apply is_pending_true in Hp. destruct (Hq Hp) as (? & ? & ?). auto.
Qed.

Lemma count_after_resolve w w' it i i' :
  it ∈ p -> heap w !! it = Some i -> is_pending i = true -> is_pending i' = false ->
  heap w' = <[it := i']> (heap w) ->
  length (filter (is_pending_at w') p) < length (filter (is_pending_at w) p).
Proof.
  intros Hit Hi Hp Hi' Hh. apply (pending_count_drop _ _ _ it); auto.
  - rewrite (is_pending_at_Some _ _ _ Hi). exact Hp.
  - unfold is_pending_at. rewrite Hh, list_lookup_insert_eq by (eapply lookup_lt_Some; eauto).
    exact Hi'.
  - intros y. unfold is_pending_at. rewrite Hh. destruct (decide (y = it)) as [->|Hne].
    + rewrite list_lookup_insert_eq by (eapply lookup_lt_Some; eauto). congruence.
    + rewrite list_lookup_insert_ne by auto. auto.
Qed.

(** An input that completes leaves the aggregate armed, hence
    pending: [count] starts at zero and goes down, and it takes 2^32
    decrements to bring it back to zero. *)
Lemma done_keeps_armed n w it :
  armed w p f c -> it ∈ p -> is_pending_at w it = true ->
  exists w', done (runner_at (S n)) it w = Ret w' it /\
    armed w' p f c /\
    (state_ <$> heap w' !! it) = Some complete /\
    (forall a, a <> it -> heap w' !! a = heap w !! a) /\
    trace w' = trace w.
Proof.
  intros Ha Hit Hp.
  destruct (armed_input _ _ Ha Hit) as (i & Hi & Hne & Hq).
  rewrite (is_pending_at_Some _ _ _ Hi) in Hp.
  destruct (Hq Hp) as (_ & _ & Hqd).
  pose proof Ha as ((d & Hd & Hidle) & Hf & Hnd & (k & Hv & Hk) & Hlen & Hin).
  set (v := wrap_int (- Z.of_nat k)) in *.
  set (i' := mk_future complete [] [] [] (ex_ i)).
  set (w' := mk_world (<[it := i']> (heap w)) (<[c := wrap_int (v - 1)]> (counters w))
                      (frames w) (trace w)).
  pose proof (count_after_resolve w w' it i i' Hit Hi Hp eq_refl eq_refl) as Hcount.
  assert (Hv' : wrap_int (v - 1) = wrap_int (- Z.of_nat (S k))).
  { unfold v. rewrite wrap_int_pred. f_equal. lia. }
  assert (Hnz : wrap_int (v - 1) <> 0%Z).
  { rewrite Hv'. apply wrap_int_nonzero. lia. }
  assert (Ha' : armed w' p f c).
  { split; [|split; [exact Hf|split; [exact Hnd|split; [|split; [exact Hlen|]]]]].
    - exists d. split; [|exact Hidle]. simpl. rewrite list_lookup_insert_ne by auto. exact Hd.
    - exists (S k). split; [|lia]. simpl. rewrite <- Hv'.
      apply list_lookup_insert_eq. eapply lookup_lt_Some; eauto.
    - intros x Hx. destruct (decide (x = it)) as [->|Hnx].
      + exists i'. split; [simpl; apply list_lookup_insert_eq; eapply lookup_lt_Some; eauto|].
        intros Hs. discriminate Hs.
      + simpl. rewrite list_lookup_insert_ne by auto. apply Hin. exact Hx. }
  exists w'. split; [|split; [exact Ha'|split; [|split; [|reflexivity]]]].
  - rewrite (done_start _ _ _ _ Hi). simpl rounds. unfold bind at 1.
    erewrite drain_done_step; [|eapply base_lookup_upd_eq; exact Hi|simpl; exact Hqd].
    rewrite base_upd_upd. simpl for_each. bnorm.
    change (set_on_done [] (mk_future complete (on_done_ i) [] [] (ex_ i))) with i'.
    set (w2 := upd it i' w).
    assert (Hd2 : heap w2 !! f = Some d).
    { unfold w2. rewrite base_lookup_upd_ne by auto. exact Hd. }
    rewrite runner_at_S. simpl run_thunk. simpl thunk_body. unfold guarded. bnorm.
    rewrite (base_get_Some _ _ _ Hd2), is_ready_pending.
    replace (is_pending d) with true by (symmetry; apply is_pending_true; apply Hidle).
    cbv beta iota delta [negb].
    unfold needs_all_h, pre_decrement. bnorm.
    change (counters w2) with (counters w). rewrite Hv.
    change (mk_world (heap w2) (<[c := wrap_int (v - 1)]> (counters w)) (frames w2) (trace w2))
      with w'.
    assert (Hd' : heap w' !! f = Some d).
    { simpl. rewrite list_lookup_insert_ne by auto. exact Hd. }
    rewrite (base_get_Some _ _ _ Hd').
    replace (0 =? wrap_int (v - 1))%Z with false by (symmetry; apply Z.eqb_neq; lia).
    cbv beta iota delta [andb]. rewrite <- runner_at_S. bnorm.
    rewrite (drain_done_empty _ _ _ i'); [reflexivity| |reflexivity].
    simpl. apply list_lookup_insert_eq. eapply lookup_lt_Some; eauto.
  - simpl. rewrite list_lookup_insert_eq by (eapply lookup_lt_Some; eauto). reflexivity.
  - intros a Hne'. simpl. apply list_lookup_insert_ne. auto.
Qed.

End Armed.

(** ** What [needs_all] sets up *)

Lemma register_loop r (p : list addr) (f : addr) (c : nat) : forall q w,
  NoDup q ->
  (forall x, x ∈ q -> exists i, heap w !! x = Some i /\ state_ i = pending) ->
  for_each q (fun it =>
    on_done r it (needs_all_ok f c) >>
    on_fail r it (needs_all_fail c p f) >>
    on_cancel r it (needs_all_can c p f) >>
    ret tt) w
  = Ret (map_heap (register_one q p f c) w) tt.
Proof.
  induction q as [|x q IH]; intros w Hnd Hq.
  { simpl. unfold ret. f_equal. apply world_ext; try reflexivity.
    intros a. rewrite lookup_map_heap. destruct (heap w !! a); reflexivity. }
  destruct (Hq x ltac:(left)) as (i & Hi & Hs).
  apply NoDup_cons in Hnd as (Hx & Hnd).
  simpl for_each. bnorm.
  unfold on_done at 1. bnorm. rewrite (base_get_Some _ _ _ Hi), is_ready_pending.
  replace (is_pending i) with true by (symmetry; apply is_pending_true; exact Hs).
  cbv beta iota delta [negb]. unfold put at 1. fold (upd x (set_on_done (on_done_ i ++ [needs_all_ok f c]) i) w).
  unfold on_fail at 1. bnorm.
  erewrite base_get_Some by (eapply base_lookup_upd_eq; exact Hi).
  rewrite is_ready_pending.
  replace (is_pending (set_on_done (on_done_ i ++ [needs_all_ok f c]) i)) with true
    by (symmetry; apply is_pending_true; exact Hs).
  cbv beta iota delta [negb]. unfold put at 1.
  match goal with |- context [mk_world (<[x := ?g]> (heap (upd x ?h w))) _ _ _] =>
    change (mk_world (<[x := g]> (heap (upd x h w))) (counters (upd x h w))
              (frames (upd x h w)) (trace (upd x h w)))
      with (upd x g (upd x h w)) end.
  rewrite base_upd_upd.
  unfold on_cancel at 1. bnorm.
  erewrite base_get_Some by (eapply base_lookup_upd_eq; exact Hi).
  rewrite is_ready_pending.
  match goal with |- context [is_pending ?g] =>
    replace (is_pending g) with true by (symmetry; apply is_pending_true; exact Hs) end.
  cbv beta iota delta [negb]. unfold put at 1.
  match goal with |- context [mk_world (<[x := ?g]> (heap (upd x ?h w))) _ _ _] =>
    change (mk_world (<[x := g]> (heap (upd x h w))) (counters (upd x h w))
              (frames (upd x h w)) (trace (upd x h w)))
      with (upd x g (upd x h w)) end.
  rewrite base_upd_upd.
  rewrite IH; [|exact Hnd|].
  2: { intros y Hy. destruct (Hq y ltac:(right; exact Hy)) as (j & Hj & Hjs).
       exists j. split; [|exact Hjs]. rewrite base_lookup_upd_ne; [exact Hj|].
       intros ->. contradiction. }
  f_equal. apply world_ext; try reflexivity. intros a.
  rewrite !lookup_map_heap. destruct (decide (a = x)) as [->|Hne].
  - erewrite base_lookup_upd_eq by exact Hi. rewrite Hi. simpl. f_equal.
    unfold register_one. rewrite bool_decide_eq_false_2 by exact Hx.
    rewrite bool_decide_eq_true_2 by left. reflexivity.
  - rewrite base_lookup_upd_ne by auto. destruct (heap w !! a) as [fut|]; [|reflexivity].
    simpl. f_equal. unfold register_one.
    destruct (decide (a ∈ q)) as [Hin|Hin].
    + rewrite !bool_decide_eq_true_2; auto. right. exact Hin.
    + rewrite !bool_decide_eq_false_2; auto. intros [->|H]%elem_of_cons; auto.
Qed.

Lemma needs_all_armed r w (p : list addr) :
  NoDup p ->
  (forall x, x ∈ p -> exists i, heap w !! x = Some i /\ idle i) ->
  (Z.of_nat (length p) < 4294967296)%Z ->
  exists w', needs_all r p w = Ret w' (length (heap w)) /\
    armed w' p (length (heap w)) (length (counters w)) /\
    (forall x, x ∈ p -> is_pending_at w' x = true) /\
    (forall a i, heap w !! a = Some i -> state_ <$> heap w' !! a = Some (state_ i)) /\
    trace w' = trace w.
Proof.
  intros Hnd Hp Hlen.
  set (f := length (heap w)). set (c := length (counters w)).
  set (w1 := mk_world (heap w ++ [new_future])%list (<[c := 0%Z]> (counters w ++ [0%Z])%list)
                      (frames w) (trace w)).
  assert (Hold : forall a i, heap w !! a = Some i -> heap w1 !! a = Some i).
  { intros a i Ha. simpl. apply lookup_app_l_Some. exact Ha. }
  assert (Hnew : heap w1 !! f = Some new_future).
  { simpl. apply list_lookup_middle. reflexivity. }
  assert (Hfp : f ∉ p).
  { intros Hin. destruct (Hp f Hin) as (i & Hi & _). apply lookup_lt_Some in Hi. unfold f in Hi. lia. }
  exists (map_heap (register_one p p f c) w1).
  split; [|split; [|split; [|split]]].
  - change (needs_all r p w)
      with ((for_each p (fun it =>
               on_done r it (needs_all_ok f c) >>
               on_fail r it (needs_all_fail c p f) >>
               on_cancel r it (needs_all_can c p f) >>
               ret tt) >> ret f) w1).
    unfold bind at 1.
    rewrite (register_loop r p f c p w1 Hnd); [reflexivity|].
    intros x Hx. destruct (Hp x Hx) as (i & Hi & Hs & _). eauto.
  - split; [|split; [exact Hfp|split; [exact Hnd|split; [|split; [exact Hlen|]]]]].
    + exists new_future. rewrite lookup_map_heap, Hnew. simpl. unfold register_one.
      rewrite bool_decide_eq_false_2 by exact Hfp. repeat split; reflexivity.
    + exists 0. split.
      * simpl. apply list_lookup_insert_eq. rewrite length_app. simpl. unfold c. lia.
      * pose proof (length_filter (is_pending_at (map_heap (register_one p p f c) w1)) p). lia.
    + intros x Hx. destruct (Hp x Hx) as (i & Hi & Hs & Hq1 & Hq2 & Hq3).
      eexists. split.
      { rewrite lookup_map_heap, (Hold _ _ Hi). simpl. unfold register_one.
        rewrite bool_decide_eq_true_2 by exact Hx. reflexivity. }
      simpl. rewrite Hq1, Hq2, Hq3. auto.
  - intros x Hx. destruct (Hp x Hx) as (i & Hi & Hs & _).
    unfold is_pending_at. rewrite lookup_map_heap, (Hold _ _ Hi). simpl.
    unfold register_one. rewrite bool_decide_eq_true_2 by exact Hx.
    apply is_pending_true. exact Hs.
  - intros a i Ha. rewrite lookup_map_heap, (Hold _ _ Ha). simpl. f_equal.
    unfold register_one. destruct (bool_decide (a ∈ p)); reflexivity.
  - reflexivity.
Qed.

(** ** The guard of [then], and [propagate] *)

Lemma base_then_guard r w (f self : addr) ok ex (d : base_future) :
  heap w !! f = Some d -> state_ d <> pending ->
  thunk_body r (then_done self ok f) w = Ret w tt /\
  thunk_body r (then_cancel self f) w = Ret w tt /\
  fail_cb_body r (then_fail self f) ex w = Ret w tt.
Proof.
  intros Hd Hs.
  assert (Hr : is_ready d = true).
  { unfold is_ready. destruct (state_ d); try congruence; reflexivity. }
  repeat split; simpl; bnorm; rewrite (base_get_Some _ _ _ Hd), Hr; reflexivity.
Qed.

(** ** failure() *)

Lemma new_exception_reason e component : reason (new_exception e component) = "unknown".
Proof. reflexivity. Qed.

Lemma base_failure_reason_lost n w (a : addr) (f : base_future) msg component :
  heap w !! a = Some f -> on_fail_ f = [] ->
  exists w' f',
    fail_string (runner_at n) a msg component w = Ret w' a /\
    heap w' !! a = Some f' /\ state_ f' = failed /\
    failure f' = Some (inl "unknown").
Proof.
  intros Ha Hq.
  exists (upd a (mk_future failed [] [] [] (Some (new_exception (fail_exception msg) component))) w),
         (mk_future failed [] [] [] (Some (new_exception (fail_exception msg) component))).
  split; [|split; [eapply base_lookup_upd_eq; exact Ha|split; reflexivity]].
  change (fail_string (runner_at n) a msg component)
    with (fail (runner_at n) a (new_exception (fail_exception msg) component)).
  rewrite (fail_start _ _ _ _ _ Ha), Hq. unfold bind.
  erewrite drain_fail_empty; [reflexivity|eapply base_lookup_upd_eq; exact Ha|reflexivity].
Qed.

(** C7.  [base_future f; f.fail("some reason")] and then [f.failure()]:
    the call returns, the future is failed, and the reason handed back
    is ["unknown"], not the message. *)
Example base_fail_some_reason :
  verdict_of (fail_some_reason empty_world) = returned /\
  states_of (fail_some_reason empty_world) = [failed] /\
  (failure <$> heap (world_of (fail_some_reason empty_world)) !! 0)
  = Some (Some (inl "unknown")).
Proof. vm_compute. repeat split; reflexivity. Qed.

(** A [base_future] that is complete accepts [fail]: the call returns
    and the state is overwritten. *)
Example base_second_resolution_accepted :
  states_of (done_once empty_world) = [complete] /\
  verdict_of (done_then_fail empty_world) = returned /\
  states_of (done_then_fail empty_world) = [failed].
Proof. vm_compute. repeat split; reflexivity. Qed.

(** C3.  What [needs_all] does where the claim says otherwise.  With
    no input, nothing is registered that could call [h]: the aggregate
    is returned pending and stays so.  With two inputs that both
    complete, [count], read from the vector that was moved from, goes
    from 0 to -1 and -2 and the aggregate (address 2) stays pending.
    When one input fails or is cancelled while the other is pending,
    the handler calls [cancel()], which has no [return] statement: the
    run ends in undefined behaviour instead of a failed aggregate. *)
Example needs_all_never_done :
  verdict_of (needs_all_of_none empty_world) = returned /\
  states_of (needs_all_of_none empty_world) = [pending] /\
  verdict_of (needs_all_both_done empty_world) = returned /\
  states_of (needs_all_both_done empty_world) = [complete; complete; pending] /\
  counters (world_of (needs_all_both_done empty_world)) = [(-2)%Z] /\
  verdict_of (needs_all_one_failed empty_world) = crashed /\
  verdict_of (needs_all_one_cancelled empty_world) = crashed.
Proof. vm_compute. repeat split; reflexivity. Qed.

(** [propagate] onto a target that fails before the source completes:
    the completion of the source is written over the failure. *)
Lemma propagate_overwrites :
  states_of (propagate_target_failed empty_world) = [pending; failed] /\
  verdict_of (propagate_source_done_late empty_world) = returned /\
  states_of (propagate_source_done_late empty_world) = [complete; complete].
Proof. vm_compute. repeat split; reflexivity. Qed.

(** C6.  [repeat] with a [check] that is false once and a body that
    hands back a future still pending.  In a run that gets past the
    read of the uninitialised [code], [repeat] returns with the loop
    pending, one [check] and one [each] made; completing the body's
    future afterwards calls [recurse] when that variable is gone.  In a
    run that does not get past that read, [repeat] itself dies. *)
Example repeat_pending_body_crashes :
  verdict_of (repeat_pending_body empty_world) = returned /\
  states_of (repeat_pending_body empty_world) = [pending; complete; pending; pending] /\
  trace (world_of (repeat_pending_body empty_world)) = [ev_check 1 false; ev_each 1 2] /\
  verdict_of (repeat_pending_body_completed empty_world) = crashed /\
  verdict_of (repeat_on_plain_stack empty_world) = crashed.
Proof. vm_compute. repeat split; reflexivity. Qed.

Lemma state_at_Some w a (i : base_future) :
  heap w !! a = Some i -> state_at w a = Some (state_ i).
Proof. intros H. unfold state_at. rewrite H. reflexivity. Qed.

(** ** The loop of [repeat] *)

Lemma base_lookup_alloc_old a f g w :
  heap w !! a = Some g -> heap (alloc f w) !! a = Some g.
Proof. intros H. simpl. apply lookup_app_l_Some. exact H. Qed.

Lemma base_lookup_alloc_new f w : heap (alloc f w) !! length (heap w) = Some f.
Proof. simpl. apply list_lookup_middle. reflexivity. Qed.

Lemma create_eq w : create w = Ret (alloc new_future w) (length (heap w)).
Proof. reflexivity. Qed.

Lemma emit_eq e w : emit e w = Ret (logged e w) tt.
Proof. reflexivity. Qed.

Lemma checks_logged_check w a b : checks_made (logged (ev_check a b) w) = S (checks_made w).
Proof.
  unfold checks_made. simpl. rewrite filter_app, length_app. simpl. lia.
Qed.

Lemma checks_logged_each w a b : checks_made (logged (ev_each a b) w) = checks_made w.
Proof.
  unfold checks_made. simpl. rewrite filter_app, length_app. simpl. lia.
Qed.

Lemma bodies_logged_check w a b : bodies_made (logged (ev_check a b) w) = bodies_made w.
Proof.
  unfold bodies_made. simpl. rewrite filter_app, length_app. simpl. lia.
Qed.

Lemma bodies_logged_each w a b : bodies_made (logged (ev_each a b) w) = S (bodies_made w).
Proof.
  unfold bodies_made. simpl. rewrite filter_app, length_app. simpl. lia.
Qed.

Section Registration.

Variable r : runner.

Lemma on_done_pending me code (f : base_future) w :
  heap w !! me = Some f -> state_ f = pending ->
  on_done r me code w = Ret (upd me (set_on_done (on_done_ f ++ [code]) f) w) me.
Proof.
  intros H Hs. unfold on_done, bind. rewrite (base_get_Some _ _ _ H).
  unfold is_ready. rewrite Hs. reflexivity.
Qed.

Lemma on_done_complete me code (f : base_future) w :
  heap w !! me = Some f -> state_ f = complete ->
  on_done r me code w = (run_thunk r code >> ret me) w.
Proof.
  intros H Hs. unfold on_done, bind. rewrite (base_get_Some _ _ _ H).
  unfold is_ready, is_done. rewrite Hs. reflexivity.
Qed.

Lemma on_cancel_pending me code (f : base_future) w :
  heap w !! me = Some f -> state_ f = pending ->
  on_cancel r me code w = Ret (upd me (set_on_cancel (on_cancel_ f ++ [code]) f) w) me.
Proof.
  intros H Hs. unfold on_cancel, bind. rewrite (base_get_Some _ _ _ H).
  unfold is_ready. rewrite Hs. reflexivity.
Qed.

Lemma on_cancel_complete me code (f : base_future) w :
  heap w !! me = Some f -> state_ f = complete ->
  on_cancel r me code w = Ret w me.
Proof.
  intros H Hs. unfold on_cancel, bind. rewrite (base_get_Some _ _ _ H).
  unfold is_ready, is_cancelled. rewrite Hs. reflexivity.
Qed.

Lemma on_fail_pending me code (f : base_future) w :
  heap w !! me = Some f -> state_ f = pending ->
  on_fail r me code w = Ret (upd me (set_on_fail (on_fail_ f ++ [code]) f) w) me.
Proof.
  intros H Hs. unfold on_fail, bind. rewrite (base_get_Some _ _ _ H).
  unfold is_ready. rewrite Hs. reflexivity.
Qed.

Lemma on_fail_complete me code (f : base_future) w :
  heap w !! me = Some f -> state_ f = complete ->
  on_fail r me code w = Ret w me.
Proof.
  intros H Hs. unfold on_fail, bind. rewrite (base_get_Some _ _ _ H).
  unfold is_ready, is_failed. rewrite Hs. reflexivity.
Qed.

(** [done()] on a future with nothing in [on_done_]. *)
Lemma done_quiet me (f : base_future) w :
  heap w !! me = Some f -> on_done_ f = [] ->
  done r me w = Ret (upd me (mk_future complete [] [] [] (ex_ f)) w) me.
Proof.
  intros H Hq. rewrite (done_start _ _ _ _ H), Hq. unfold bind.
  erewrite drain_done_empty; [reflexivity|eapply base_lookup_upd_eq; exact H|reflexivity].
Qed.

(** [propagate] from a complete future onto an idle one. *)
Lemma propagate_complete_idle (s d : addr) (si : base_future) w :
  heap w !! s = Some si -> state_ si = complete ->
  run_thunk r (propagate_done d) w = Ret (upd d complete_future w) tt ->
  propagate r s d w = Ret (upd d complete_future w) d.
Proof.
  intros Hs Hss Hrun. unfold propagate. unfold bind at 1.
  rewrite (on_done_complete _ _ _ _ Hs Hss). unfold bind at 1. rewrite Hrun.
  unfold ret at 1. unfold bind at 1.
  assert (Hs' : exists si', heap (upd d complete_future w) !! s = Some si' /\ state_ si' = complete).
  { destruct (decide (d = s)) as [->|Hne].
    - exists complete_future. split; [eapply base_lookup_upd_eq; exact Hs|reflexivity].
    - exists si. split; [rewrite base_lookup_upd_ne by auto; exact Hs|exact Hss]. }
  destruct Hs' as (si' & Hs' & Hss').
  rewrite (on_cancel_complete _ _ _ _ Hs' Hss'). unfold bind at 1.
  rewrite (on_fail_complete _ _ _ _ Hs' Hss'). reflexivity.
Qed.

End Registration.

Lemma get_frame_alive fr frm w :
  frames w !! fr = Some frm -> alive frm = true -> get_frame fr w = Ret w frm.
Proof. intros H Ha. unfold get_frame. rewrite H, Ha. reflexivity. Qed.

(** [on_ready] on a pending future registers on all three queues. *)
Lemma on_ready_pending (r : runner) (me : nat) code (f : base_future) w :
  heap w !! me = Some f -> state_ f = pending ->
  on_ready r me code w
  = Ret (upd me (mk_future pending (on_done_ f ++ [ready_handler me code])
                   (on_fail_ f ++ [ready_fail_handler me code])
                   (on_cancel_ f ++ [ready_handler me code]) (ex_ f)) w) me.
Proof.
  intros H Hs. unfold on_ready. bnorm.
  rewrite (on_done_pending _ _ _ _ _ H Hs).
  erewrite on_cancel_pending; [|eapply base_lookup_upd_eq; exact H|exact Hs].
  rewrite base_upd_upd.
  erewrite on_fail_pending; [|eapply base_lookup_upd_eq; exact H|exact Hs].
  rewrite base_upd_upd. unfold set_on_fail, set_on_cancel, set_on_done. simpl.
  rewrite Hs. reflexivity.
Qed.

(** The continuation of [repeat] run when [recurse] is out of scope. *)
Lemma repeat_step_out_of_scope r w (self f in_ d : addr) (fr : nat) (dd : base_future) frm :
  heap w !! d = Some dd -> state_ dd = pending ->
  frames w !! fr = Some frm -> alive frm = false ->
  thunk_body r (then_done self (seq_repeat_step f in_ fr) d) w = Crash.
Proof.
  intros Hd Hs Hfr Ha. simpl. unfold bind. rewrite (base_get_Some _ _ _ Hd).
  unfold is_ready. rewrite Hs. simpl. unfold recurse, bind, get_frame.
  rewrite Hfr, Ha. reflexivity.
Qed.

Lemma done_runs_dead_step n w (b f in_ d : addr) (fr : nat) (i dd : base_future) frm l :
  heap w !! b = Some i -> on_done_ i = then_done b (seq_repeat_step f in_ fr) d :: l ->
  b <> d -> heap w !! d = Some dd -> state_ dd = pending ->
  frames w !! fr = Some frm -> alive frm = false ->
  done (runner_at (S n)) b w = Crash.
Proof.
  intros Hb Hq Hne Hd Hs Hfr Ha.
  rewrite (done_start _ _ _ _ Hb). simpl rounds. unfold bind at 1.
  erewrite drain_done_step; [|eapply base_lookup_upd_eq; exact Hb|simpl; exact Hq].
  rewrite base_upd_upd. simpl for_each. unfold bind at 1. unfold bind at 1.
  unfold guarded at 1. rewrite runner_at_S. cbv beta iota delta [run_thunk].
  match goal with |- context [upd b ?x w] => set (w1 := upd b x w) end.
  assert (Hd1 : heap w1 !! d = Some dd).
  { unfold w1. rewrite base_lookup_upd_ne by auto. exact Hd. }
  pose proof (repeat_step_out_of_scope (runner_at n) w1 b f in_ d fr dd frm Hd1 Hs Hfr Ha) as Hc.
  cbv beta iota delta [thunk_body call_seq] in Hc. rewrite Hc. reflexivity.
Qed.

(** A body still pending when [each] returns it, after a first [check]
    that is false: whatever the rest of the two scripts and the fuel,
    [repeat] returns with the loop pending, and completing the body's
    future afterwards runs the continuation when [recurse] is gone. *)
Lemma repeat_pending_body_any_script n m check each :
  verdict_of (repeat (runner_at n) copy_goes_through (first_then false check)
                (first_then body_pending each) empty_world) = returned /\
  states_of (repeat (runner_at n) copy_goes_through (first_then false check)
               (first_then body_pending each) empty_world)
  = [pending; complete; pending; pending] /\
  trace (world_of (repeat (runner_at n) copy_goes_through (first_then false check)
                     (first_then body_pending each) empty_world))
  = [ev_check 1 false; ev_each 1 2] /\
  verdict_of ((repeat (runner_at n) copy_goes_through (first_then false check)
                 (first_then body_pending each) >> done (runner_at (S m)) 2) empty_world)
  = crashed.
Proof. vm_compute. repeat split; reflexivity. Qed.

(** The read of the uninitialised [code] comes before any call of
    [check] or [each]: a run that dies there has called neither. *)
Lemma repeat_uninitialised_read n check each w :
  repeat (runner_at n) copy_faults check each w = Crash.
Proof.
  unfold repeat. bnorm. rewrite create_eq.
  rewrite (on_ready_pending _ _ _ _ _ (base_lookup_alloc_new new_future w) eq_refl).
  rewrite create_eq.
  erewrite done_quiet; [reflexivity|apply base_lookup_alloc_new|reflexivity].
Qed.

End BaseFacts.

(** * More of cps::future<T> *)
Module TypedLaws.
Import Typed TypedFacts.

#[local] Arguments run_task : simpl never.

(** ** time_string *)

Lemma to_int_small z : (- 2147483648 <= z < 2147483648)%Z -> to_int z = z.
Proof.
  intros H. unfold to_int.
  rewrite Z.mod_small by lia. lia.
Qed.

(** [duration_cast] to a coarser unit, and what [e -= x] leaves. *)
Lemma quot_step (a u : Z) :
  (0 < u)%Z ->
  (a = u * (a ÷ u) + (a - (a ÷ u) * u) /\
   Z.abs (a - (a ÷ u) * u) < u /\
   (0 <= a -> 0 <= a ÷ u /\ 0 <= a - (a ÷ u) * u) /\
   (a <= 0 -> a ÷ u <= 0 /\ a - (a ÷ u) * u <= 0))%Z.
Proof.
  intros Hu.
  destruct (Z_le_gt_dec 0 a) as [Ha|Ha].
  - rewrite Z.quot_div_nonneg by lia.
    pose proof (Z.div_mod a u ltac:(lia)) as E.
    pose proof (Z.mod_pos_bound a u Hu) as B.
    assert (0 <= a / u)%Z by (apply Z.div_pos; lia).
    replace (a - a / u * u)%Z with (a mod u)%Z by lia.
    set (q := (a / u)%Z) in *. set (r := (a mod u)%Z) in *. clearbody q r.
    repeat split; lia.
  - assert (Hq : (a ÷ u = - ((- a) / u))%Z).
    { rewrite <- (Z.opp_involutive a) at 1. rewrite Z.quot_opp_l by lia.
      rewrite Z.quot_div_nonneg by lia. reflexivity. }
    rewrite Hq.
    pose proof (Z.div_mod (-a) u ltac:(lia)) as E.
    pose proof (Z.mod_pos_bound (-a) u Hu) as B.
    assert (0 <= (-a) / u)%Z by (apply Z.div_pos; lia).
    set (q := (- a / u)%Z) in *. set (r := (- a mod u)%Z) in *. clearbody q r.
    replace (a - - q * u)%Z with (- r)%Z by lia.
    repeat split; lia.
Qed.

(** X1.  For an elapsed time that a 64-bit count of nanoseconds can
    hold, the seven counts [time_string] prints add up to the elapsed
    time, each of them below the size of the next larger unit and none
    of them of the sign opposite to the elapsed time's: hours below 24,
    minutes and seconds below 60, milliseconds, microseconds and
    nanoseconds below 1000.  The count of days fits its [int]. *)
Theorem time_counts_recompose (e : Z) :
  int64_range e ->
  exists d h m s ms us ns,
    time_counts e = [d; h; m; s; ms; us; ns] /\
    nanoseconds_of (time_counts e) time_units = e /\
    (Z.abs d <= 106751)%Z /\
    (Z.abs h < 24)%Z /\ (Z.abs m < 60)%Z /\ (Z.abs s < 60)%Z /\
    (Z.abs ms < 1000)%Z /\ (Z.abs us < 1000)%Z /\ (Z.abs ns < 1000)%Z /\
    Forall (fun c => (0 <= e -> 0 <= c)%Z /\ (e <= 0 -> c <= 0)%Z) (time_counts e).
Proof.
  unfold int64_range. intros He.
  pose proof (quot_step e 86400000000000 ltac:(lia)) as H1.
  assert (Hd : to_int (e ÷ ns_per_day)%Z = (e ÷ ns_per_day)%Z).
  { apply to_int_small. unfold ns_per_day. lia. }
  unfold time_counts. rewrite Hd.
  unfold ns_per_day, ns_per_hour, ns_per_minute, ns_per_second,
    ns_per_millisecond, ns_per_microsecond.
  set (d := (e ÷ 86400000000000)%Z) in *.
  set (e1 := (e - d * 86400000000000)%Z) in *.
  pose proof (quot_step e1 3600000000000 ltac:(lia)) as H2.
  set (h := (e1 ÷ 3600000000000)%Z) in *.
  set (e2 := (e1 - h * 3600000000000)%Z) in *.
  pose proof (quot_step e2 60000000000 ltac:(lia)) as H3.
  set (m := (e2 ÷ 60000000000)%Z) in *.
  set (e3 := (e2 - m * 60000000000)%Z) in *.
  pose proof (quot_step e3 1000000000 ltac:(lia)) as H4.
  set (s := (e3 ÷ 1000000000)%Z) in *.
  set (e4 := (e3 - s * 1000000000)%Z) in *.
  pose proof (quot_step e4 1000000 ltac:(lia)) as H5.
  set (ms := (e4 ÷ 1000000)%Z) in *.
  set (e5 := (e4 - ms * 1000000)%Z) in *.
  pose proof (quot_step e5 1000 ltac:(lia)) as H6.
  set (us := (e5 ÷ 1000)%Z) in *.
  set (e6 := (e5 - us * 1000)%Z) in *.
  exists d, h, m, s, ms, us, e6.
  clearbody d e1 h e2 m e3 s e4 ms e5 us e6.
  split; [reflexivity|].
  split; [unfold nanoseconds_of, time_units, ns_per_day, ns_per_hour, ns_per_minute,
            ns_per_second, ns_per_millisecond, ns_per_microsecond; lia|].
  repeat split; try lia.
  repeat constructor; lia.
Qed.

Lemma append_empty (a b : string) : a +:+ b = "" -> a = "" /\ b = "".
Proof. destruct a; simpl; [auto|discriminate]. Qed.

Lemma shown_empty ss c u : u <> "" -> shown ss c u = "" -> ss = "" /\ c = 0%Z.
Proof.
  unfold shown. intros Hu. destruct (Z.eqb_spec c 0) as [->|Hc]; [auto|].
  intros H. apply append_empty in H as [_ H]. apply append_empty in H as [_ H].
  contradiction.
Qed.

(** X2.  [time_string] prints nothing exactly when no time has elapsed:
    a unit whose count is zero is left out, and the counts are all zero
    only for a zero duration.  So [describe()] ends in its comma and
    space for a zero duration and in a number and a unit otherwise. *)
Theorem time_string_empty_iff (e : Z) : time_string e = "" <-> e = 0%Z.
Proof.
  split.
  - unfold time_string. cbv zeta. intros H.
    apply shown_empty in H as [H Hns]; [|discriminate].
    apply shown_empty in H as [H Hus]; [|discriminate].
    apply shown_empty in H as [H Hms]; [|discriminate].
    apply shown_empty in H as [H Hs]; [|discriminate].
    apply shown_empty in H as [H Hm]; [|discriminate].
    apply shown_empty in H as [H Hh]; [|discriminate].
    apply shown_empty in H as [_ Hd]; [|discriminate].
    rewrite Hd in *. rewrite Z.mul_0_l, Z.sub_0_r in *.
    rewrite Hh in *. rewrite Z.mul_0_l, Z.sub_0_r in *.
    rewrite Hm in *. rewrite Z.mul_0_l, Z.sub_0_r in *.
    rewrite Hs in *. rewrite Z.mul_0_l, Z.sub_0_r in *.
    rewrite Hms in *. rewrite Z.mul_0_l, Z.sub_0_r in *.
    rewrite Hus in *. rewrite Z.mul_0_l, Z.sub_0_r in *.
    exact Hns.
  - intros ->. vm_compute. reflexivity.
Qed.

(** ** Resolution is final *)

Lemma kept_of_safe {T A : Type} (m : @M T A) (w : @world T) (a : addr) (f : @future T) :
  safe m -> heap w !! a = Some f -> state_ f <> pending -> kept a f (m w).
Proof.
  intros Hm Ha Hs. specialize (Hm w). unfold kept.
  destruct (m w) as [w' x|w' e| |]; simpl in *; auto;
    destruct (Hm a f Ha) as (f' & Hf' & E); rewrite <- (E Hs); exact Hf'.
Qed.

(** X3.  A future that is done, failed or cancelled never changes
    again: whatever member function is called on whatever future, with
    whatever closures queued and however the call ends (it returns or an
    exception leaves it), the future is found afterwards at the same
    address with the same state, value, failure reason, exception and
    label. *)
Theorem resolved_future_is_final {T : Type} (T_default : T) n (w : @world T)
    (a : addr) (f : @future T) :
  heap w !! a = Some f -> state_ f <> pending ->
  (forall me v, kept a f (done (run_task n) me v w)) /\
  (forall me e, kept a f (fail (run_task n) me e w)) /\
  (forall me msg, kept a f (fail_string (run_task n) me msg w)) /\
  (forall me, kept a f (cancel (run_task n) me w)) /\
  (forall me src, kept a f (fail_from (run_task n) me src w)) /\
  (forall me ex, kept a f (fail_exception_pointer (run_task n) me ex w)) /\
  (forall me t, kept a f (call_when_ready (run_task n) me t w)) /\
  (forall me ok items, kept a f (then_ T_default (run_task n) me ok items w)).
Proof.
  intros Ha Hs.
  pose proof (@safe_run_task T n) as Hrun.
  repeat split; intros; apply kept_of_safe; auto.
  - apply safe_done; exact Hrun.
  - apply safe_fail; exact Hrun.
  - apply safe_fail; exact Hrun.
  - apply safe_cancel; exact Hrun.
  - apply safe_fail_from; exact Hrun.
  - apply safe_fail_exception_pointer; exact Hrun.
  - apply safe_call_when_ready; exact Hrun.
  - apply safe_then_; exact Hrun.
Qed.

(** ** Registering before or after the resolution *)

Lemma for_each_app {T A : Type} (l l' : list A) (body : A -> @M T unit) w :
  for_each (l ++ l') body w = (for_each l body >> for_each l' body) w.
Proof.
  revert w. induction l as [|x l IH]; intros w; simpl.
  - reflexivity.
  - unfold bind. destruct (body x w) as [w' []|w' e| |]; try reflexivity.
    apply IH.
Qed.

Section Commute.

Context {T : Type}.
Variable run : task -> addr -> @M T unit.
Hypothesis run_safe : forall t me, safe (run t me).

(** Draining a queue that ends in [t] is draining the queue and then
    registering [t], which runs it at once. *)
Lemma drain_then_register (me : addr) (R : @future T) ts t W :
  heap W !! me = Some R -> state_ R <> pending ->
  (for_each (ts ++ [t]) (fun v => run v me) >> ret me) W
  = ((for_each ts (fun v => run v me) >> ret me) >> call_when_ready run me t) W.
Proof.
  intros HR Hs.
  pose proof (drain_keeps run run_safe me R ts W HR Hs) as K.
  unfold bind in K |- *. rewrite for_each_app. unfold bind.
  destruct (for_each ts (fun v => run v me) W) as [w' []|w' e| |]; simpl in K; auto.
  unfold ret at 2. rewrite (call_when_ready_ready _ _ _ _ _ K Hs).
  simpl for_each. unfold bind, ret.
  destruct (run t me w') as [w'' []|w'' e| |]; reflexivity.
Qed.

Lemma register_then_done (me : addr) (f : @future T) t v w :
  heap w !! me = Some f -> state_ f = pending ->
  (call_when_ready run me t >> done run me v) w
  = (done run me v >> call_when_ready run me t) w.
Proof.
  intros Hf Hp. unfold bind at 1. rewrite (call_when_ready_pending _ _ _ _ _ Hf Hp).
  rewrite (done_pending run me v (set_tasks (tasks_ f ++ [t]) f));
    [|eapply lookup_upd_eq; exact Hf|exact Hp].
  rewrite upd_upd. simpl tasks_.
  change (resolved done_state (set_value v (set_tasks (tasks_ f ++ [t]) f)))
    with (resolved done_state (set_value v f)).
  rewrite drain_then_register with (R := resolved done_state (set_value v f));
    [|eapply lookup_upd_eq; exact Hf|discriminate].
  symmetry. unfold bind at 1. rewrite (done_pending _ _ _ _ _ Hf Hp). reflexivity.
Qed.

Lemma register_then_fail (me : addr) (f : @future T) t e w :
  heap w !! me = Some f -> state_ f = pending ->
  (call_when_ready run me t >> fail run me e) w
  = (fail run me e >> call_when_ready run me t) w.
Proof.
  intros Hf Hp. unfold bind at 1. rewrite (call_when_ready_pending _ _ _ _ _ Hf Hp).
  rewrite (fail_pending run me e (set_tasks (tasks_ f ++ [t]) f));
    [|eapply lookup_upd_eq; exact Hf|exact Hp].
  rewrite upd_upd. simpl tasks_.
  replace (resolved failed (store_failure e (set_tasks (tasks_ f ++ [t]) f)))
    with (resolved failed (store_failure e f))
    by (unfold store_failure; destruct (what_of e); reflexivity).
  rewrite drain_then_register with (R := resolved failed (store_failure e f));
    [|eapply lookup_upd_eq; exact Hf|unfold store_failure; destruct (what_of e); discriminate].
  symmetry. unfold bind at 1. rewrite (fail_pending _ _ _ _ _ Hf Hp). reflexivity.
Qed.

Lemma register_then_cancel (me : addr) (f : @future T) t w :
  heap w !! me = Some f -> state_ f = pending ->
  (call_when_ready run me t >> cancel run me) w
  = (cancel run me >> call_when_ready run me t) w.
Proof.
  intros Hf Hp. unfold bind at 1. rewrite (call_when_ready_pending _ _ _ _ _ Hf Hp).
  rewrite (cancel_pending run me (set_tasks (tasks_ f ++ [t]) f));
    [|eapply lookup_upd_eq; exact Hf|exact Hp].
  rewrite upd_upd. simpl tasks_.
  change (resolved cancelled (set_tasks (tasks_ f ++ [t]) f)) with (resolved cancelled f).
  rewrite drain_then_register with (R := resolved cancelled f);
    [|eapply lookup_upd_eq; exact Hf|discriminate].
  symmetry. unfold bind at 1. rewrite (cancel_pending _ _ _ _ Hf Hp). reflexivity.
Qed.

End Commute.

(** X4.  A callback may be registered before or after the resolution,
    with the same result: on a pending future, whatever its queue holds,
    registering a closure ([on_ready], [on_done], [on_fail], [on_cancel]
    and the closure of [then] all go through [call_when_ready]) and then
    resolving the future ends exactly as resolving it first and
    registering the closure afterwards, in the world left and in the way
    the calls end. *)
Theorem registration_commutes {T : Type} n (w : @world T) (me : addr) (f : @future T) (t : task) :
  heap w !! me = Some f -> state_ f = pending ->
  (forall v, (call_when_ready (run_task n) me t >> done (run_task n) me v) w
             = (done (run_task n) me v >> call_when_ready (run_task n) me t) w) /\
  (forall e, (call_when_ready (run_task n) me t >> fail (run_task n) me e) w
             = (fail (run_task n) me e >> call_when_ready (run_task n) me t) w) /\
  (call_when_ready (run_task n) me t >> cancel (run_task n) me) w
  = (cancel (run_task n) me >> call_when_ready (run_task n) me t) w.
Proof.
  intros Hf Hp. pose proof (@safe_run_task T n) as Hrun.
  split; [|split]; intros.
  - apply register_then_done with (f := f); auto.
  - apply register_then_fail with (f := f); auto.
  - apply register_then_cancel with (f := f); auto.
Qed.

(** ** [then] before or after the resolution *)

Lemma alloc_upd {T : Type} (a : addr) (f g : @future T) w :
  a < length (heap w) -> alloc g (upd a f w) = upd a f (alloc g w).
Proof.
  intros H. unfold alloc, upd. simpl. f_equal. symmetry. apply insert_app_l. exact H.
Qed.

Lemma set_tasks_same {T : Type} (f : @future T) : set_tasks (tasks_ f) f = f.
Proof. destruct f; reflexivity. Qed.

Section ThenCommute.

Context {T : Type} (T_default : T).
Variable run : task -> addr -> @M T unit.
Variables (me : addr) (f : @future T) (ok : continuation) (items : list handler).

(** [op] is a resolution of [me]: it stores [R] and drains the queue. *)
Variables (op : @M T addr) (R : @future T).
Hypothesis op_resolves : forall l w',
  heap w' !! me = Some (set_tasks l f) ->
  op w' = (for_each l (fun t => run t me) >> ret me) (upd me R w').
Hypothesis R_ready : state_ R <> pending.

Lemma then_commutes_with w :
  heap w !! me = Some f -> state_ f = pending -> tasks_ f = [] ->
  (let* seq := then_ T_default run me ok items in op >> ret seq) w
  = (op >> then_ T_default run me ok items) w.
Proof.
  intros Hf Hp Ht.
  pose proof (lookup_lt_Some _ _ _ Hf) as Hlt.
  set (fresh := new_future T_default "unlabelled future").
  set (seq := length (heap w)).
  set (t := task_then seq ok items).
  set (W := upd me R (alloc fresh w)).
  assert (HW : heap W !! me = Some R).
  { eapply lookup_upd_eq. apply lookup_alloc_old. exact Hf. }
  transitivity ((run t me >> ret seq) W).
  - unfold then_. norm. rewrite create_shared_eq.
    fold fresh. fold seq. fold t. norm.
    rewrite (call_when_ready_pending _ _ _ _ _ (lookup_alloc_old _ fresh _ _ Hf) Hp).
    rewrite Ht. simpl app. norm.
    rewrite (op_resolves [t]) by (eapply lookup_upd_eq; apply lookup_alloc_old; exact Hf).
    rewrite upd_upd. fold W. simpl for_each. norm.
    destruct (run t me W) as [w' []|w' e| |]; reflexivity.
  - symmetry. norm.
    rewrite (op_resolves []) by (rewrite <- Ht, set_tasks_same; exact Hf).
    simpl for_each. norm.
    unfold then_. norm. rewrite create_shared_eq. fold fresh.
    rewrite alloc_upd by exact Hlt. fold W.
    replace (length (heap (upd me R w))) with seq
      by (unfold seq, upd; simpl; rewrite length_insert; reflexivity).
    fold t. norm.
    rewrite (call_when_ready_ready _ _ _ _ _ HW R_ready). norm.
    destruct (run t me W) as [w' []|w' e| |]; reflexivity.
Qed.

End ThenCommute.

(** X5.  [then] may be called before or after the source resolves, with
    the same result: on a pending source with nothing queued, calling
    [then] and resolving the source afterwards ([done], [fail] or
    [cancel]) ends exactly as resolving the source first and calling
    [then] on the resolved source: the same derived future, the same
    futures in the heap, the same calls of [ok] and of the handlers, the
    same exception if one leaves. *)
Theorem then_commutes {T : Type} (T_default : T) n (w : @world T) (me : addr)
    (f : @future T) ok items :
  heap w !! me = Some f -> state_ f = pending -> tasks_ f = [] ->
  (forall v,
     (let* seq := then_ T_default (run_task n) me ok items in
      done (run_task n) me v >> ret seq) w
     = (done (run_task n) me v >> then_ T_default (run_task n) me ok items) w) /\
  (forall e,
     (let* seq := then_ T_default (run_task n) me ok items in
      fail (run_task n) me e >> ret seq) w
     = (fail (run_task n) me e >> then_ T_default (run_task n) me ok items) w) /\
  (let* seq := then_ T_default (run_task n) me ok items in
   cancel (run_task n) me >> ret seq) w
  = (cancel (run_task n) me >> then_ T_default (run_task n) me ok items) w.
Proof.
  intros Hf Hp Ht. split; [|split]; intros.
  - apply then_commutes_with with (f := f) (R := resolved done_state (set_value v f));
      [|discriminate|exact Hf|exact Hp|exact Ht].
    intros l w' H'. rewrite (done_pending _ _ _ _ _ H' Hp). reflexivity.
  - apply then_commutes_with with (f := f) (R := resolved failed (store_failure e f));
      [| |exact Hf|exact Hp|exact Ht].
    + intros l w' H'. rewrite (fail_pending _ _ _ _ _ H' Hp).
      unfold store_failure. destruct (what_of e); reflexivity.
    + unfold store_failure. destruct (what_of e); discriminate.
  - apply then_commutes_with with (f := f) (R := resolved cancelled f);
      [|discriminate|exact Hf|exact Hp|exact Ht].
    intros l w' H'. rewrite (cancel_pending _ _ _ _ H' Hp). reflexivity.
Qed.

(** ** What the callbacks of the caller are given *)

Lemma world_eta {T : Type} (w : @world T) : mk_world (heap w) (log w ++ []) = w.
Proof. destruct w. simpl. rewrite app_nil_r. reflexivity. Qed.

Lemma call_user_returns {T : Type} (u : user_code) (x : @arg T) w :
  returns u = true -> call_user u x w = Ret (mk_world (heap w) (log w ++ [(tag u, x)])) tt.
Proof.
  unfold returns, call_user. intros H. destruct (throws u); [discriminate|]. reflexivity.
Qed.

(** A closure of the caller that returns, run on the future [m]. *)
Lemma run_quiet {T : Type} n (me : addr) (m : @future T) (t : task) w :
  heap w !! me = Some m -> quiet t = true ->
  run_task (S n) t me w = Ret (mk_world (heap w) (log w ++ delivered me m t)) tt.
Proof.
  intros Hm Hq. rewrite run_task_S.
  destruct t as [u|[g|u]|[g i|u]|[g|u]|g ok items]; simpl in Hq; try discriminate; simpl.
  - apply call_user_returns. exact Hq.
  - norm. rewrite (get_Some _ _ _ Hm). unfold is_done, value.
    destruct (state_ m); simpl; try (rewrite world_eta; reflexivity).
    apply call_user_returns. exact Hq.
  - norm. rewrite (get_Some _ _ _ Hm). unfold is_failed, failure_reason.
    destruct (state_ m); simpl; try (rewrite world_eta; reflexivity).
    apply call_user_returns. exact Hq.
  - norm. rewrite (get_Some _ _ _ Hm). unfold is_cancelled.
    destruct (state_ m); simpl; try (rewrite world_eta; reflexivity).
    apply call_user_returns. exact Hq.
Qed.

Lemma drain_quiet {T : Type} n (me : addr) (m : @future T) (ts : list task) : forall w,
  heap w !! me = Some m -> Forall (fun t => quiet t = true) ts ->
  for_each ts (fun t => run_task (S n) t me) w
  = Ret (mk_world (heap w) (log w ++ flat_map (delivered me m) ts)) tt.
Proof.
  induction ts as [|t ts IH]; intros w Hm Hq; simpl.
  - unfold ret. rewrite world_eta. reflexivity.
  - inversion Hq as [|? ? Ht Hts]; subst. norm.
    rewrite (run_quiet n me m t w Hm Ht).
    rewrite IH by assumption. simpl. rewrite <- app_assoc. reflexivity.
Qed.

Lemma call_user_throws {T : Type} (u : user_code) (x : @arg T) e w :
  throws u = Some e -> call_user u x w = Exc (mk_world (heap w) (log w ++ [(tag u, x)])) e.
Proof. unfold call_user. intros H. rewrite H. reflexivity. Qed.

(** A closure of the caller that throws, run on the future [m]. *)
Lemma run_raised {T : Type} n (me : addr) (m : @future T) (t : task) e w :
  heap w !! me = Some m -> raised m t = Some e ->
  run_task (S n) t me w = Exc (mk_world (heap w) (log w ++ delivered me m t)) e.
Proof.
  intros Hm Hr. rewrite run_task_S.
  destruct t as [u|[g|u]|[g i|u]|[g|u]|g ok items]; simpl in Hr; try discriminate; simpl.
  - apply call_user_throws. exact Hr.
  - norm. rewrite (get_Some _ _ _ Hm). unfold is_done, value in *.
    destruct (state_ m); simpl in *; try discriminate.
    apply call_user_throws. exact Hr.
  - norm. rewrite (get_Some _ _ _ Hm). unfold is_failed, failure_reason in *.
    destruct (state_ m); simpl in *; try discriminate.
    apply call_user_throws. exact Hr.
  - norm. rewrite (get_Some _ _ _ Hm). unfold is_cancelled in *.
    destruct (state_ m); simpl in *; try discriminate.
    apply call_user_throws. exact Hr.
Qed.

(** The drain stops at the first callback that throws. *)
Lemma drain_raised {T : Type} n (me : addr) (m : @future T) (pre post : list task) t e :
  forall w,
  heap w !! me = Some m -> Forall (fun t => quiet t = true) pre -> raised m t = Some e ->
  for_each (pre ++ t :: post) (fun t => run_task (S n) t me) w
  = Exc (mk_world (heap w) (log w ++ flat_map (delivered me m) (pre ++ [t]))) e.
Proof.
  induction pre as [|t0 pre IH]; intros w Hm Hq Hr; simpl.
  - norm. rewrite (run_raised n me m t e w Hm Hr). rewrite app_nil_r. reflexivity.
  - inversion Hq as [|? ? Ht0 Hpre]; subst. norm.
    rewrite (run_quiet n me m t0 w Hm Ht0).
    rewrite IH by assumption. simpl. rewrite <- app_assoc. reflexivity.
Qed.

(** X6.  Resolving a pending future whose queue holds callbacks of the
    caller that return: the call returns, the future holds the
    resolution and an empty queue, and the callbacks were called once
    each, in the order of their registration, those whose kind matches
    the new state only: after [done(v)] the [on_ready] callbacks with
    the future and the [on_done] callbacks with [v]; after [fail(e)] the
    [on_ready] ones and the [on_fail] ones with the reason stored for
    [e]; after [cancel()] the [on_ready] ones and the [on_cancel] ones.
    The others are dropped without a call. *)
Theorem callbacks_by_state {T : Type} n (w : @world T) (me : addr) (f : @future T) :
  heap w !! me = Some f -> state_ f = pending ->
  Forall (fun t => quiet t = true) (tasks_ f) ->
  (forall v,
     done (run_task (S n)) me v w
     = Ret (mk_world (<[me := resolved done_state (set_value v f)]> (heap w))
              (log w ++ flat_map (delivered me (resolved done_state (set_value v f))) (tasks_ f)))
           me) /\
  (forall e,
     fail (run_task (S n)) me e w
     = Ret (mk_world (<[me := resolved failed (store_failure e f)]> (heap w))
              (log w ++ flat_map (delivered me (resolved failed (store_failure e f))) (tasks_ f)))
           me) /\
  cancel (run_task (S n)) me w
  = Ret (mk_world (<[me := resolved cancelled f]> (heap w))
           (log w ++ flat_map (delivered me (resolved cancelled f)) (tasks_ f)))
        me.
Proof.
  intros Hf Hp Hq. split; [|split]; intros.
  - rewrite (done_pending _ _ _ _ _ Hf Hp). norm.
    rewrite (drain_quiet n me (resolved done_state (set_value v f)));
      [reflexivity|eapply lookup_upd_eq; exact Hf|exact Hq].
  - rewrite (fail_pending _ _ _ _ _ Hf Hp). norm.
    rewrite (drain_quiet n me (resolved failed (store_failure e f)));
      [reflexivity|eapply lookup_upd_eq; exact Hf|exact Hq].
  - rewrite (cancel_pending _ _ _ _ Hf Hp). norm.
    rewrite (drain_quiet n me (resolved cancelled f));
      [reflexivity|eapply lookup_upd_eq; exact Hf|exact Hq].
Qed.

(** X7.  A callback registered on a future that is no longer pending
    is not queued: it is run at once, inside the registering call, if
    its kind matches the state ([on_ready] always, [on_done] with the
    value on a done future, [on_fail] with the reason on a failed one,
    [on_cancel] on a cancelled one), and is dropped otherwise; the heap
    is left as it was. *)
Theorem late_registration {T : Type} n (w : @world T) (me : addr) (m : @future T) (t : task) :
  heap w !! me = Some m -> state_ m <> pending -> quiet t = true ->
  call_when_ready (run_task (S n)) me t w
  = Ret (mk_world (heap w) (log w ++ delivered me m t)) me.
Proof.
  intros Hm Hs Hq. rewrite (call_when_ready_ready _ _ _ _ _ Hm Hs). norm.
  rewrite (run_quiet n me m t w Hm Hq). reflexivity.
Qed.

(** ** Failing with an exception object *)

Lemma fail_exception_pointer_Some {T : Type} run (me : addr) e (w : @world T) :
  fail_exception_pointer run me (Some e) w = fail run me e w.
Proof. reflexivity. Qed.

(** X8.  [fail(e)] with an exception object, on a pending future with
    nothing queued: the call returns and the future is failed;
    [exception_ptr()] hands back [e], [value()] rethrows [e] itself, and
    [failure_reason()] is [e.what()] when [e] derives from
    [std::exception] and ["unknown"] for any other thrown object.
    [fail_exception_pointer] with a pointer to [e] does the same. *)
Theorem fail_round_trip {T : Type} n (w : @world T) (a : addr) (f : @future T) e :
  heap w !! a = Some f -> state_ f = pending -> tasks_ f = [] ->
  exists w' f',
    fail (run_task n) a e w = Ret w' a /\
    fail_exception_pointer (run_task n) a (Some e) w = Ret w' a /\
    heap w' !! a = Some f' /\
    state_ f' = failed /\
    exception_ptr f' = inl (Some e) /\
    value f' = inr e /\
    failure_reason f' = inl (reason_of e) /\
    (forall m, what_of e = Some m -> failure_reason f' = inl m) /\
    (what_of e = None -> failure_reason f' = inl "unknown").
Proof.
  intros Ha Hs Ht.
  exists (upd a (resolved failed (store_failure e f)) w), (resolved failed (store_failure e f)).
  assert (Hrun : fail (run_task n) a e w
                 = Ret (upd a (resolved failed (store_failure e f)) w) a).
  { rewrite (fail_pending _ _ _ _ _ Ha Hs), Ht. reflexivity. }
  split; [exact Hrun|]. split; [rewrite fail_exception_pointer_Some; exact Hrun|].
  split; [eapply lookup_upd_eq; exact Ha|].
  unfold exception_ptr, value, failure_reason, reason_of, store_failure.
  destruct (what_of e) as [m|]; simpl; repeat split; try reflexivity;
    intros; congruence.
Qed.

(** ** [fail_from] *)

(** X9.  [fail_from(src)] tests the source before anything else: when
    [src] is not failed it throws [std::logic_error("future is not
    failed")] and writes nothing, whatever the target is.  When [src]
    is failed and the target is pending with nothing queued, the target
    becomes failed with the exception of [src] and the reason read from
    it, and [src] is left as it was. *)
Theorem fail_from_copies {T : Type} n (w : @world T) (me src : addr) (s : @future T) :
  heap w !! src = Some s ->
  (state_ s <> failed ->
     fail_from (run_task n) me src w = Exc w (logic_error "future is not failed")) /\
  (forall f e,
     state_ s = failed -> ex_ s = Some e ->
     heap w !! me = Some f -> state_ f = pending -> tasks_ f = [] ->
     exists w' f',
       fail_from (run_task n) me src w = Ret w' me /\
       heap w' !! me = Some f' /\ state_ f' = failed /\
       ex_ f' = ex_ s /\ failure_reason f' = inl (reason_of e) /\
       value f' = value s /\
       heap w' !! src = Some s).
Proof.
  intros Hsrc. split.
  - intros Hs. unfold fail_from. norm. rewrite (get_Some _ _ _ Hsrc).
    unfold is_failed. destruct (state_ s); try congruence; reflexivity.
  - intros f e Hs He Hme Hp Ht.
    assert (Hne : me <> src) by (intros ->; congruence).
    exists (upd me (resolved failed (store_failure e f)) w), (resolved failed (store_failure e f)).
    split; [|split; [eapply lookup_upd_eq; exact Hme|]].
    + rewrite (fail_from_pending _ _ _ _ _ _ _ Hme Hp Hsrc Hs He), Ht. reflexivity.
    + assert (Hkeep : heap (upd me (resolved failed (store_failure e f)) w) !! src = Some s)
        by (rewrite lookup_upd_ne by exact Hne; exact Hsrc).
      split; [unfold store_failure; destruct (what_of e); reflexivity|].
      split; [rewrite He; unfold store_failure; destruct (what_of e); reflexivity|].
      split; [unfold failure_reason, reason_of, store_failure;
              destruct (what_of e); reflexivity|].
      split; [|exact Hkeep].
      unfold value, store_failure. rewrite Hs, He. destruct (what_of e); reflexivity.
Qed.

(** ** [then]: the other paths *)

Section ThenPaths.

Context {T : Type} (T_default : T).
Variable run : task -> addr -> @M T unit.

Lemma then_on_pending (me : addr) (f : @future T) ok items w :
  heap w !! me = Some f -> state_ f = pending ->
  then_ T_default run me ok items w
  = Ret (upd me (set_tasks (tasks_ f ++ [task_then (length (heap w)) ok items]) f)
           (alloc (new_future T_default "unlabelled future") w)) (length (heap w)).
Proof.
  intros Hf Hp. unfold then_. norm. rewrite create_shared_eq. norm.
  rewrite (call_when_ready_pending _ _ _ _ _ (lookup_alloc_old _ _ _ _ Hf) Hp).
  reflexivity.
Qed.

Lemma then_task_cancelled (f : addr) ok items me (d m : @future T) w :
  heap w !! f = Some d -> state_ d = pending ->
  heap w !! me = Some m -> state_ m = cancelled ->
  then_task run f ok items me w
  = try_catch (cancel run f >> ret tt)
      (fun ex => fail_exception_pointer run f (Some ex) >> ret tt) w.
Proof.
  intros Hd Hs Hm Hms. unfold then_task, try_catch.
  unfold bind at 1. rewrite (get_Some _ _ _ Hd). unfold is_ready. rewrite Hs. simpl.
  unfold bind at 1. rewrite (get_Some _ _ _ Hm).
  unfold is_done, is_failed, is_cancelled. rewrite Hms. reflexivity.
Qed.

Lemma task_on_fail_from (f inner : addr) me (m : @future T) w :
  heap w !! me = Some m -> state_ m = failed ->
  task_body run (task_on_fail (fail_from_into f inner)) me w
  = (fail_from run f inner >> ret tt) w.
Proof.
  intros Hm Hs. simpl. unfold bind at 1. rewrite (get_Some _ _ _ Hm).
  unfold is_failed. rewrite Hs. simpl. unfold bind at 1, failure_reason. rewrite Hs. reflexivity.
Qed.

Lemma task_on_cancel_of (f : addr) me (m : @future T) w :
  heap w !! me = Some m -> state_ m = cancelled ->
  task_body run (task_on_cancel (cancel_of f)) me w = (cancel run f >> ret tt) w.
Proof.
  intros Hm Hs. simpl. unfold bind at 1. rewrite (get_Some _ _ _ Hm).
  unfold is_cancelled. rewrite Hs. reflexivity.
Qed.

End ThenPaths.

(** X10.  When [ok] throws, the exception does not reach the caller of
    [done]: [seq = f.then(ok)] on a pending source with nothing queued,
    then [f.done(v)] with an [ok] that throws [e]; [done] returns, [ok]
    was called once with [v], the source is done, and the derived
    future is failed with [e] as its exception and the reason stored for
    [e]. *)
Theorem then_ok_throws {T : Type} (T_default : T) n (w : @world T) (f : addr)
    (fut : @future T) t e items v :
  heap w !! f = Some fut -> state_ fut = pending -> tasks_ fut = [] ->
  exists w' seq fut_seq,
    (let* seq := then_ T_default (run_task (S n)) f (k_throw t e) items in
     done (run_task (S n)) f v >> ret seq) w = Ret w' seq /\
    log w' = (log w ++ [(t, arg_value v)])%list /\
    heap w' !! f = Some (resolved done_state (set_value v fut)) /\
    heap w' !! seq = Some fut_seq /\ state_ fut_seq = failed /\
    ex_ fut_seq = Some e /\ failure_reason fut_seq = inl (reason_of e).
Proof.
  intros Hf Hp Ht.
  pose proof (lookup_lt_Some _ _ _ Hf) as Hlt.
  set (fresh := new_future T_default "unlabelled future").
  set (seq := length (heap w)).
  set (fut1 := set_tasks (tasks_ fut ++ [task_then seq (k_throw t e) items]) fut).
  set (w2 := upd f fut1 (alloc fresh w)).
  set (fut2 := resolved done_state (set_value v fut)).
  set (w3 := upd f fut2 w2).
  set (wd := mk_world (heap w3) (log w3 ++ [(t, arg_value v)])%list).
  set (fut_seq := resolved failed (store_failure e fresh)).
  set (w4 := upd seq fut_seq wd).
  assert (Hf2 : heap w2 !! f = Some fut1)
    by (eapply lookup_upd_eq; apply lookup_alloc_old; exact Hf).
  assert (Hf3 : heap w3 !! f = Some fut2) by (eapply lookup_upd_eq; exact Hf2).
  assert (Hs3 : heap w3 !! seq = Some fresh).
  { unfold w3, w2. rewrite !lookup_upd_ne by (unfold seq; lia). apply lookup_alloc_new. }
  exists w4, seq, fut_seq.
  split.
  { norm. rewrite (then_on_pending _ _ _ _ _ _ _ Hf Hp). fold fresh seq fut1 w2.
    rewrite (done_pending _ _ _ _ _ Hf2 Hp).
    change (resolved done_state (set_value v fut1)) with fut2. fold w3.
    replace (tasks_ fut1) with [task_then seq (k_throw t e) items]
      by (unfold fut1; simpl; rewrite Ht; reflexivity).
    simpl for_each. norm. rewrite run_task_S. simpl task_body.
    rewrite (then_task_done _ _ _ _ _ _ _ _ Hs3 eq_refl Hf3 eq_refl).
    simpl call_continuation. norm. unfold record at 1, throw at 1. fold wd.
    rewrite fail_exception_pointer_Some.
    rewrite (fail_pending _ seq e fresh wd Hs3 eq_refl). fold fut_seq w4.
    reflexivity. }
  split; [reflexivity|].
  split.
  { unfold w4. rewrite lookup_upd_ne by (unfold seq; lia). exact Hf3. }
  split; [eapply lookup_upd_eq; exact Hs3|].
  unfold fut_seq, failure_reason, reason_of, store_failure.
  destruct (what_of e); repeat split; reflexivity.
Qed.

(** X11.  A cancelled source cancels the derived future:
    [seq = f.then(ok)] on a pending source with nothing queued, then
    [f.cancel()]; the call returns, [seq] is cancelled, and neither [ok]
    nor a handler was called. *)
Theorem then_source_cancelled {T : Type} (T_default : T) n (w : @world T) (f : addr)
    (fut : @future T) ok items :
  heap w !! f = Some fut -> state_ fut = pending -> tasks_ fut = [] ->
  exists w' seq fut_seq,
    (let* seq := then_ T_default (run_task (S n)) f ok items in
     cancel (run_task (S n)) f >> ret seq) w = Ret w' seq /\
    log w' = log w /\
    heap w' !! f = Some (resolved cancelled fut) /\
    heap w' !! seq = Some fut_seq /\ state_ fut_seq = cancelled /\
    value fut_seq = inr WasCancelled.
Proof.
  intros Hf Hp Ht.
  pose proof (lookup_lt_Some _ _ _ Hf) as Hlt.
  set (fresh := new_future T_default "unlabelled future").
  set (seq := length (heap w)).
  set (fut1 := set_tasks (tasks_ fut ++ [task_then seq ok items]) fut).
  set (w2 := upd f fut1 (alloc fresh w)).
  set (fut2 := resolved cancelled fut).
  set (w3 := upd f fut2 w2).
  set (w4 := upd seq (resolved cancelled fresh) w3).
  assert (Hf2 : heap w2 !! f = Some fut1)
    by (eapply lookup_upd_eq; apply lookup_alloc_old; exact Hf).
  assert (Hf3 : heap w3 !! f = Some fut2) by (eapply lookup_upd_eq; exact Hf2).
  assert (Hs3 : heap w3 !! seq = Some fresh).
  { unfold w3, w2. rewrite !lookup_upd_ne by (unfold seq; lia). apply lookup_alloc_new. }
  exists w4, seq, (resolved cancelled fresh).
  split.
  { norm. rewrite (then_on_pending _ _ _ _ _ _ _ Hf Hp). fold fresh seq fut1 w2.
    rewrite (cancel_pending _ _ _ _ Hf2 Hp).
    change (resolved cancelled fut1) with fut2. fold w3.
    replace (tasks_ fut1) with [task_then seq ok items]
      by (unfold fut1; simpl; rewrite Ht; reflexivity).
    simpl for_each. norm. rewrite run_task_S. simpl task_body.
    rewrite (then_task_cancelled _ _ _ _ _ _ _ _ Hs3 eq_refl Hf3 eq_refl). norm.
    rewrite (cancel_pending _ seq fresh w3 Hs3 eq_refl). fold w4.
    reflexivity. }
  split; [reflexivity|].
  split.
  { unfold w4. rewrite lookup_upd_ne by (unfold seq; lia). exact Hf3. }
  split; [eapply lookup_upd_eq; exact Hs3|].
  split; reflexivity.
Qed.

(** ** The derived future and the inner future *)

Section Wired.

Context {T : Type} (T_default : T).

(** [f.then(ok)] and [f.done(v)] with an [ok] that returns the pending
    future [g]: what is set up. *)
Lemma then_done_wires n (w : @world T) (f g : addr) (fut_f fut_g : @future T) t items v :
  heap w !! f = Some fut_f -> state_ fut_f = pending -> tasks_ fut_f = [] ->
  heap w !! g = Some fut_g -> state_ fut_g = pending -> tasks_ fut_g = [] ->
  f <> g ->
  exists w1,
    (let* seq := then_ T_default (run_task (S n)) f (k_return t g) items in
     done (run_task (S n)) f v >> ret seq) w = Ret w1 (length (heap w)) /\
    log w1 = (log w ++ [(t, arg_value v)])%list /\
    wired w1 (length (heap w)) g.
Proof.
  intros Hf Hfp Hft Hg Hgp Hgt Hne.
  pose proof (lookup_lt_Some _ _ _ Hf) as Hflt.
  pose proof (lookup_lt_Some _ _ _ Hg) as Hglt.
  set (fresh := new_future T_default "unlabelled future").
  set (seq := length (heap w)).
  set (fut1 := set_tasks (tasks_ fut_f ++ [task_then seq (k_return t g) items]) fut_f).
  set (wb := upd f fut1 (alloc fresh w)).
  set (fut2 := resolved done_state (set_value v fut_f)).
  set (wc := upd f fut2 wb).
  set (wd := mk_world (heap wc) (log wc ++ [(t, arg_value v)])%list).
  set (g1 := set_tasks (tasks_ fut_g ++ [task_on_done (done_into seq);
                                          task_on_fail (fail_from_into seq g);
                                          task_on_cancel (cancel_of seq)]) fut_g).
  set (s1 := set_tasks (tasks_ fresh ++ [task_on_cancel (cancel_of g)]) fresh).
  set (w1 := upd seq s1 (upd g g1 wd)).
  assert (Hfb : heap wb !! f = Some fut1)
    by (eapply lookup_upd_eq; apply lookup_alloc_old; exact Hf).
  assert (Hfc : heap wc !! f = Some fut2) by (eapply lookup_upd_eq; exact Hfb).
  assert (Hsc : heap wc !! seq = Some fresh).
  { unfold wc, wb. rewrite !lookup_upd_ne by (unfold seq; lia). apply lookup_alloc_new. }
  assert (Hgc : heap wc !! g = Some fut_g).
  { unfold wc, wb. rewrite !lookup_upd_ne by auto. apply lookup_alloc_old. exact Hg. }
  exists w1. split; [|split; [reflexivity|]].
  - norm. rewrite (then_on_pending _ _ _ _ _ _ _ Hf Hfp). fold fresh seq fut1 wb.
    rewrite (done_pending _ _ _ _ _ Hfb Hfp).
    change (resolved done_state (set_value v fut1)) with fut2. fold wc.
    replace (tasks_ fut1) with [task_then seq (k_return t g) items]
      by (unfold fut1; simpl; rewrite Hft; reflexivity).
    simpl for_each. norm. rewrite run_task_S. simpl task_body.
    rewrite (then_task_done _ _ _ _ _ _ _ _ Hsc eq_refl Hfc eq_refl).
    simpl call_continuation. norm. unfold record at 1. fold wd.
    rewrite (wire_pending _ seq g fresh fut_g wd); [reflexivity| | | | |]; auto.
    unfold seq; lia.
  - split; [unfold seq; lia|]. exists s1, g1.
    split; [eapply lookup_upd_eq; rewrite lookup_upd_ne by (unfold seq; lia); exact Hsc|].
    split; [reflexivity|]. split; [reflexivity|].
    split; [unfold w1; rewrite lookup_upd_ne by (unfold seq; lia);
            eapply lookup_upd_eq; exact Hgc|].
    split; [exact Hgp|]. unfold g1. simpl. rewrite Hgt. reflexivity.
Qed.

(** The inner future completes. *)
Lemma wired_inner_done n (w : @world T) (seq g : addr) x :
  wired w seq g ->
  exists w' s',
    done (run_task (S (S n))) g x w = Ret w' g /\
    heap w' !! seq = Some s' /\ state_ s' = done_state /\ value s' = inl x /\
    log w' = log w.
Proof.
  intros (Hne & s1 & g1 & Hs & Hsp & Hst & Hg & Hgp & Hgt).
  set (g2 := resolved done_state (set_value x g1)).
  set (we := upd g g2 w).
  set (s2 := resolved done_state (set_value x s1)).
  set (w2 := upd seq s2 we).
  assert (Hge : heap we !! g = Some g2) by (eapply lookup_upd_eq; exact Hg).
  assert (Hse : heap we !! seq = Some s1).
  { unfold we. rewrite lookup_upd_ne by auto. exact Hs. }
  assert (Hs2 : heap w2 !! seq = Some s2) by (eapply lookup_upd_eq; exact Hse).
  assert (Hg2 : heap w2 !! g = Some g2).
  { unfold w2. rewrite lookup_upd_ne by auto. exact Hge. }
  exists w2, s2. split; [|repeat split; [exact Hs2]].
  rewrite (done_pending _ _ _ _ _ Hg Hgp). fold g2 we. rewrite Hgt.
  simpl for_each. rewrite !run_task_S. norm.
  rewrite (task_on_done_into _ _ _ _ _ Hge eq_refl). norm.
  rewrite (done_pending _ _ _ _ _ Hse Hsp). fold s2 w2. rewrite Hst.
  simpl for_each. rewrite run_task_S. norm.
  rewrite (task_on_cancel_skip _ _ _ _ _ Hs2) by discriminate. norm.
  rewrite (task_on_fail_skip _ _ _ _ _ Hg2) by discriminate. norm.
  rewrite (task_on_cancel_skip _ _ _ _ _ Hg2) by discriminate.
  reflexivity.
Qed.

(** The inner future fails. *)
Lemma wired_inner_fail n (w : @world T) (seq g : addr) e :
  wired w seq g ->
  exists w' s' g',
    fail (run_task (S (S n))) g e w = Ret w' g /\
    heap w' !! seq = Some s' /\ state_ s' = failed /\ ex_ s' = Some e /\
    failure_reason s' = inl (reason_of e) /\
    heap w' !! g = Some g' /\ state_ g' = failed /\
    failure_reason s' = failure_reason g' /\
    log w' = log w.
Proof.
  intros (Hne & s1 & g1 & Hs & Hsp & Hst & Hg & Hgp & Hgt).
  set (g2 := resolved failed (store_failure e g1)).
  set (we := upd g g2 w).
  set (s2 := resolved failed (store_failure e s1)).
  set (w2 := upd seq s2 we).
  assert (Hg2s : state_ g2 = failed)
    by (unfold g2, store_failure; destruct (what_of e); reflexivity).
  assert (Hg2e : ex_ g2 = Some e)
    by (unfold g2, store_failure; destruct (what_of e); reflexivity).
  assert (Hs2s : state_ s2 = failed)
    by (unfold s2, store_failure; destruct (what_of e); reflexivity).
  assert (Hge : heap we !! g = Some g2) by (eapply lookup_upd_eq; exact Hg).
  assert (Hse : heap we !! seq = Some s1).
  { unfold we. rewrite lookup_upd_ne by auto. exact Hs. }
  assert (Hs2 : heap w2 !! seq = Some s2) by (eapply lookup_upd_eq; exact Hse).
  assert (Hg2 : heap w2 !! g = Some g2).
  { unfold w2. rewrite lookup_upd_ne by auto. exact Hge. }
  exists w2, s2, g2.
  split.
  { rewrite (fail_pending _ _ _ _ _ Hg Hgp). fold g2 we. rewrite Hgt.
    simpl for_each. rewrite !run_task_S. norm.
    rewrite (task_on_done_skip _ _ _ _ _ Hge) by (rewrite Hg2s; discriminate). norm.
    rewrite (task_on_fail_from _ _ _ _ _ _ Hge Hg2s). norm.
    rewrite (fail_from_pending _ seq g e s1 g2 we Hse Hsp Hge Hg2s Hg2e). fold s2 w2.
    rewrite Hst. simpl for_each. rewrite run_task_S. norm.
    rewrite (task_on_cancel_skip _ _ _ _ _ Hs2) by (rewrite Hs2s; discriminate). norm.
    rewrite (task_on_cancel_skip _ _ _ _ _ Hg2) by (rewrite Hg2s; discriminate).
    reflexivity. }
  split; [exact Hs2|]. split; [exact Hs2s|].
  split; [unfold s2, store_failure; destruct (what_of e); reflexivity|].
  split; [unfold s2, failure_reason, reason_of, store_failure; destruct (what_of e); reflexivity|].
  split; [exact Hg2|]. split; [exact Hg2s|].
  split; [unfold s2, g2, failure_reason, store_failure; destruct (what_of e); reflexivity|].
  reflexivity.
Qed.

(** Cancelling the inner future: its closure cancels the derived
    future, whose closure cancels the inner future, which is cancelled
    already. *)
Lemma wired_cancel_inner n (w : @world T) (seq g : addr) :
  wired w seq g ->
  exists w' s' g',
    cancel (run_task (S (S n))) g w = Exc w' (double_resolve cancelled g') /\
    heap w' !! seq = Some s' /\ state_ s' = cancelled /\
    heap w' !! g = Some g' /\ state_ g' = cancelled /\
    log w' = log w.
Proof.
  intros (Hne & s1 & g1 & Hs & Hsp & Hst & Hg & Hgp & Hgt).
  set (g2 := resolved cancelled g1).
  set (we := upd g g2 w).
  set (s2 := resolved cancelled s1).
  set (w2 := upd seq s2 we).
  assert (Hge : heap we !! g = Some g2) by (eapply lookup_upd_eq; exact Hg).
  assert (Hse : heap we !! seq = Some s1).
  { unfold we. rewrite lookup_upd_ne by auto. exact Hs. }
  assert (Hs2 : heap w2 !! seq = Some s2) by (eapply lookup_upd_eq; exact Hse).
  assert (Hg2 : heap w2 !! g = Some g2).
  { unfold w2. rewrite lookup_upd_ne by auto. exact Hge. }
  exists w2, s2, g2.
  split; [|repeat split; assumption].
  rewrite (cancel_pending _ _ _ _ Hg Hgp). fold g2 we. rewrite Hgt.
  simpl for_each. rewrite !run_task_S. norm.
  rewrite (task_on_done_skip _ _ _ _ _ Hge) by discriminate. norm.
  rewrite (task_on_fail_skip _ _ _ _ _ Hge) by discriminate. norm.
  rewrite (task_on_cancel_of _ _ _ _ _ Hge eq_refl). norm.
  rewrite (cancel_pending _ _ _ _ Hse Hsp). fold s2 w2. rewrite Hst.
  simpl for_each. rewrite run_task_S. norm.
  rewrite (task_on_cancel_of _ _ _ _ _ Hs2 eq_refl). norm.
  unfold cancel. erewrite apply_state_terminal; [|discriminate|exact Hg2|discriminate].
  reflexivity.
Qed.

(** Cancelling the derived future: the same, the other way round. *)
Lemma wired_cancel_derived n (w : @world T) (seq g : addr) :
  wired w seq g ->
  exists w' s' g',
    cancel (run_task (S (S n))) seq w = Exc w' (double_resolve cancelled s') /\
    heap w' !! seq = Some s' /\ state_ s' = cancelled /\
    heap w' !! g = Some g' /\ state_ g' = cancelled /\
    log w' = log w.
Proof.
  intros (Hne & s1 & g1 & Hs & Hsp & Hst & Hg & Hgp & Hgt).
  set (s2 := resolved cancelled s1).
  set (we := upd seq s2 w).
  set (g2 := resolved cancelled g1).
  set (w2 := upd g g2 we).
  assert (Hse : heap we !! seq = Some s2) by (eapply lookup_upd_eq; exact Hs).
  assert (Hge : heap we !! g = Some g1).
  { unfold we. rewrite lookup_upd_ne by auto. exact Hg. }
  assert (Hg2 : heap w2 !! g = Some g2) by (eapply lookup_upd_eq; exact Hge).
  assert (Hs2 : heap w2 !! seq = Some s2).
  { unfold w2. rewrite lookup_upd_ne by auto. exact Hse. }
  exists w2, s2, g2.
  split; [|repeat split; assumption].
  rewrite (cancel_pending _ _ _ _ Hs Hsp). fold s2 we. rewrite Hst.
  simpl for_each. rewrite !run_task_S. norm.
  rewrite (task_on_cancel_of _ _ _ _ _ Hse eq_refl). norm.
  rewrite (cancel_pending _ _ _ _ Hge Hgp). fold g2 w2. rewrite Hgt.
  simpl for_each. rewrite !run_task_S. norm.
  rewrite (task_on_done_skip _ _ _ _ _ Hg2) by discriminate. norm.
  rewrite (task_on_fail_skip _ _ _ _ _ Hg2) by discriminate. norm.
  rewrite (task_on_cancel_of _ _ _ _ _ Hg2 eq_refl). norm.
  unfold cancel. erewrite apply_state_terminal; [|discriminate|exact Hs2|discriminate].
  reflexivity.
Qed.

Lemma call_handler_matched (h : handler) e t (g : addr) (w : @world T) :
  handles h e = true -> code_of h = k_return t g ->
  call_handler h (Some e) w
  = Ret (mk_world (heap w) (log w ++ [(t, given_to h e)])%list) (Some g).
Proof.
  destruct h as [code|accepts code]; simpl; intros Hh Hc; subst code.
  - unfold reason_of. destruct (what_of e); [reflexivity|discriminate].
  - rewrite Hh. reflexivity.
Qed.

Lemma try_handlers_matched run pre h post (f me : addr) (m : @future T) e t (g : addr) :
  ex_ m = Some e ->
  Forall (fun h => handles h e = false) pre ->
  handles h e = true -> code_of h = k_return t g ->
  forall w, heap w !! me = Some m ->
  try_handlers run (pre ++ h :: post) f me w
  = wire run f g (mk_world (heap w) (log w ++ [(t, given_to h e)])%list).
Proof.
  intros He Hpre Hh Hc. induction Hpre as [|h0 pre Hh0 _ IH]; intros w Hm; simpl.
  - norm. rewrite (get_Some _ _ _ Hm), He.
    rewrite (call_handler_matched _ _ _ _ _ Hh Hc). reflexivity.
  - norm. rewrite (get_Some _ _ _ Hm), He.
    rewrite (call_handler_unmatched _ _ _ Hh0). apply IH. exact Hm.
Qed.

Lemma then_task_failed run (f : addr) ok items me (d m : @future T) w :
  heap w !! f = Some d -> state_ d = pending ->
  heap w !! me = Some m -> state_ m = failed ->
  then_task run f ok items me w
  = try_catch (try_handlers run items f me)
      (fun ex => fail_exception_pointer run f (Some ex) >> ret tt) w.
Proof.
  intros Hd Hs Hm Hms. unfold then_task, try_catch.
  unfold bind at 1. rewrite (get_Some _ _ _ Hd). unfold is_ready. rewrite Hs. simpl.
  unfold bind at 1. rewrite (get_Some _ _ _ Hm). unfold is_done, is_failed. rewrite Hms.
  reflexivity.
Qed.

(** [f.then(ok, items...)] and [f.fail(e)] where the first handler that
    takes [e] returns the pending future [g]: what is set up. *)
Lemma then_fail_wires n (w : @world T) (f g : addr) (fut_f fut_g : @future T)
    ok pre h post t e :
  heap w !! f = Some fut_f -> state_ fut_f = pending -> tasks_ fut_f = [] ->
  heap w !! g = Some fut_g -> state_ fut_g = pending -> tasks_ fut_g = [] ->
  f <> g ->
  Forall (fun h => handles h e = false) pre ->
  handles h e = true -> code_of h = k_return t g ->
  exists w1,
    (let* seq := then_ T_default (run_task (S n)) f ok (pre ++ h :: post) in
     fail (run_task (S n)) f e >> ret seq) w = Ret w1 (length (heap w)) /\
    log w1 = (log w ++ [(t, given_to h e)])%list /\
    heap w1 !! f = Some (resolved failed (store_failure e fut_f)) /\
    wired w1 (length (heap w)) g.
Proof.
  intros Hf Hfp Hft Hg Hgp Hgt Hne Hpre Hh Hc.
  pose proof (lookup_lt_Some _ _ _ Hf) as Hflt.
  pose proof (lookup_lt_Some _ _ _ Hg) as Hglt.
  set (items := (pre ++ h :: post)%list).
  set (fresh := new_future T_default "unlabelled future").
  set (seq := length (heap w)).
  set (fut1 := set_tasks (tasks_ fut_f ++ [task_then seq ok items]) fut_f).
  set (wb := upd f fut1 (alloc fresh w)).
  set (fut2 := resolved failed (store_failure e fut_f)).
  set (wc := upd f fut2 wb).
  set (wd := mk_world (heap wc) (log wc ++ [(t, given_to h e)])%list).
  set (g1 := set_tasks (tasks_ fut_g ++ [task_on_done (done_into seq);
                                          task_on_fail (fail_from_into seq g);
                                          task_on_cancel (cancel_of seq)]) fut_g).
  set (s1 := set_tasks (tasks_ fresh ++ [task_on_cancel (cancel_of g)]) fresh).
  set (w1 := upd seq s1 (upd g g1 wd)).
  assert (Hfb : heap wb !! f = Some fut1)
    by (eapply lookup_upd_eq; apply lookup_alloc_old; exact Hf).
  assert (Hfc : heap wc !! f = Some fut2) by (eapply lookup_upd_eq; exact Hfb).
  assert (Hst2 : state_ fut2 = failed)
    by (unfold fut2, store_failure; destruct (what_of e); reflexivity).
  assert (Hex2 : ex_ fut2 = Some e)
    by (unfold fut2, store_failure; destruct (what_of e); reflexivity).
  assert (Hsc : heap wc !! seq = Some fresh).
  { unfold wc, wb. rewrite !lookup_upd_ne by (unfold seq; lia). apply lookup_alloc_new. }
  assert (Hgc : heap wc !! g = Some fut_g).
  { unfold wc, wb. rewrite !lookup_upd_ne by auto. apply lookup_alloc_old. exact Hg. }
  exists w1. split; [|split; [reflexivity|split]].
  - norm. rewrite (then_on_pending _ _ _ _ _ _ _ Hf Hfp). fold fresh seq fut1 wb.
    rewrite (fail_pending _ _ _ _ _ Hfb Hfp).
    replace (resolved failed (store_failure e fut1)) with fut2
      by (unfold fut2, store_failure; destruct (what_of e); reflexivity).
    fold wc.
    replace (tasks_ fut1) with [task_then seq ok items]
      by (unfold fut1; simpl; rewrite Hft; reflexivity).
    simpl for_each. norm. rewrite run_task_S. simpl task_body.
    rewrite (then_task_failed _ _ _ _ _ _ _ _ Hsc eq_refl Hfc Hst2).
    unfold try_catch.
    rewrite (try_handlers_matched _ pre h post seq f fut2 e t g Hex2 Hpre Hh Hc wc Hfc).
    fold wd.
    rewrite (wire_pending _ seq g fresh fut_g wd); [reflexivity| | | | |]; auto.
    unfold seq; lia.
  - unfold w1. rewrite !lookup_upd_ne by (try (unfold seq; lia); auto). exact Hfc.
  - split; [unfold seq; lia|]. exists s1, g1.
    split; [eapply lookup_upd_eq; rewrite lookup_upd_ne by (unfold seq; lia); exact Hsc|].
    split; [reflexivity|]. split; [reflexivity|].
    split; [unfold w1; rewrite lookup_upd_ne by (unfold seq; lia);
            eapply lookup_upd_eq; exact Hgc|].
    split; [exact Hgp|]. unfold g1. simpl. rewrite Hgt. reflexivity.
Qed.

End Wired.

(** X12.  The failure of the inner future becomes the failure of the
    derived future: with [f] and [g] two pending futures that have
    nothing queued, [seq = f.then(ok)] where [ok] returns [g], and
    [f.done(v)]; then [g.fail(e)] returns and leaves [seq] failed with
    the exception [e] and the same reason as [g], without another call
    of [ok]. *)
Theorem then_inner_failure {T : Type} (T_default : T) n (w : @world T) (f g : addr)
    (fut_f fut_g : @future T) t items v e :
  heap w !! f = Some fut_f -> state_ fut_f = pending -> tasks_ fut_f = [] ->
  heap w !! g = Some fut_g -> state_ fut_g = pending -> tasks_ fut_g = [] ->
  f <> g ->
  exists w1 w2 seq s2 g2,
    (let* seq := then_ T_default (run_task (S (S n))) f (k_return t g) items in
     done (run_task (S (S n))) f v >> ret seq) w = Ret w1 seq /\
    fail (run_task (S (S n))) g e w1 = Ret w2 g /\
    heap w2 !! seq = Some s2 /\ state_ s2 = failed /\ ex_ s2 = Some e /\
    failure_reason s2 = inl (reason_of e) /\
    heap w2 !! g = Some g2 /\ failure_reason s2 = failure_reason g2 /\
    log w2 = log w1.
Proof.
  intros Hf Hfp Hft Hg Hgp Hgt Hne.
  destruct (then_done_wires T_default (S n) w f g fut_f fut_g t items v
              Hf Hfp Hft Hg Hgp Hgt Hne) as (w1 & Hrun & _ & Hw).
  destruct (wired_inner_fail n w1 _ g e Hw)
    as (w2 & s2 & g2 & Hfail & Hs2 & Hst & Hex & Hr & Hg2 & _ & Hrr & Hlog).
  exists w1, w2, (length (heap w)), s2, g2. repeat split; assumption.
Qed.

(** X13.  Once [then] has tied the derived future to the inner one,
    cancelling either of them cancels both and throws: with [f] and [g]
    two pending futures that have nothing queued, [seq = f.then(ok)]
    where [ok] returns [g], and [f.done(v)]; then [seq.cancel()], and
    just as well [g.cancel()], leaves [seq] and [g] cancelled, and the
    [std::logic_error] of [apply_state] leaves the call, because each of
    the two futures holds a closure that cancels the other. *)
Theorem then_cancel_after_wiring {T : Type} (T_default : T) n (w : @world T) (f g : addr)
    (fut_f fut_g : @future T) t items v :
  heap w !! f = Some fut_f -> state_ fut_f = pending -> tasks_ fut_f = [] ->
  heap w !! g = Some fut_g -> state_ fut_g = pending -> tasks_ fut_g = [] ->
  f <> g ->
  exists w1 seq,
    (let* seq := then_ T_default (run_task (S (S n))) f (k_return t g) items in
     done (run_task (S (S n))) f v >> ret seq) w = Ret w1 seq /\
    (exists w2 s' g',
       cancel (run_task (S (S n))) seq w1 = Exc w2 (double_resolve cancelled s') /\
       heap w2 !! seq = Some s' /\ state_ s' = cancelled /\
       heap w2 !! g = Some g' /\ state_ g' = cancelled) /\
    (exists w2 s' g',
       cancel (run_task (S (S n))) g w1 = Exc w2 (double_resolve cancelled g') /\
       heap w2 !! seq = Some s' /\ state_ s' = cancelled /\
       heap w2 !! g = Some g' /\ state_ g' = cancelled).
Proof.
  intros Hf Hfp Hft Hg Hgp Hgt Hne.
  destruct (then_done_wires T_default (S n) w f g fut_f fut_g t items v
              Hf Hfp Hft Hg Hgp Hgt Hne) as (w1 & Hrun & _ & Hw).
  exists w1, (length (heap w)). split; [exact Hrun|]. split.
  - destruct (wired_cancel_derived n w1 _ g Hw) as (w2 & s' & g' & H1 & H2 & H3 & H4 & H5 & _).
    exists w2, s', g'. repeat split; assumption.
  - destruct (wired_cancel_inner n w1 _ g Hw) as (w2 & s' & g' & H1 & H2 & H3 & H4 & H5 & _).
    exists w2, s', g'. repeat split; assumption.
Qed.

(** X14.  Recovery through a failure handler: with [f] and [g] two
    pending futures that have nothing queued, [seq = f.then(ok,
    items...)], then [f.fail(e)], where the first handler of [items]
    that takes [e] returns [g].  That handler is called once (with
    [e.what()] if it takes a string, with [e] if it takes an exception
    type), [ok] and the handlers before and after it are not called,
    and [seq] stays pending; when [g.done(x)] follows, [seq] is done
    with the value [x]. *)
Theorem then_handler_recovers {T : Type} (T_default : T) n (w : @world T) (f g : addr)
    (fut_f fut_g : @future T) ok pre h post t e x :
  heap w !! f = Some fut_f -> state_ fut_f = pending -> tasks_ fut_f = [] ->
  heap w !! g = Some fut_g -> state_ fut_g = pending -> tasks_ fut_g = [] ->
  f <> g ->
  Forall (fun h => handles h e = false) pre ->
  handles h e = true -> code_of h = k_return t g ->
  exists w1 w2 seq s1 s2,
    (let* seq := then_ T_default (run_task (S (S n))) f ok (pre ++ h :: post) in
     fail (run_task (S (S n))) f e >> ret seq) w = Ret w1 seq /\
    log w1 = (log w ++ [(t, given_to h e)])%list /\
    heap w1 !! seq = Some s1 /\ state_ s1 = pending /\
    done (run_task (S (S n))) g x w1 = Ret w2 g /\
    heap w2 !! seq = Some s2 /\ state_ s2 = done_state /\ value s2 = inl x /\
    log w2 = log w1.
Proof.
  intros Hf Hfp Hft Hg Hgp Hgt Hne Hpre Hh Hc.
  destruct (then_fail_wires T_default (S n) w f g fut_f fut_g ok pre h post t e
              Hf Hfp Hft Hg Hgp Hgt Hne Hpre Hh Hc) as (w1 & Hrun & Hlog & _ & Hw).
  destruct (wired_inner_done n w1 _ g x Hw) as (w2 & s2 & Hdone & Hs2 & Hst & Hv & Hlog2).
  pose proof Hw as (_ & s1 & g1 & Hs1 & Hs1p & _).
  exists w1, w2, (length (heap w)), s1, s2. repeat split; assumption.
Qed.

(** ** A failed future holds its exception *)

Section Held.

Context {T : Type}.
Implicit Types (w : @world T) (f : @future T).

Lemma held_upd w a f :
  failures_held w -> (state_ f = failed -> ex_ f <> None) -> failures_held (upd a f w).
Proof.
  intros Hw Hf b g Hb Hs. simpl in Hb.
  destruct (decide (a = b)) as [->|Hne].
  - destruct (decide (b < length (heap w))) as [Hlt|Hge].
    + rewrite list_lookup_insert_eq in Hb by exact Hlt. injection Hb as <-. auto.
    + rewrite list_insert_ge in Hb by lia. eapply Hw; eauto.
  - rewrite list_lookup_insert_ne in Hb by exact Hne. eapply Hw; eauto.
Qed.

Lemma held_alloc w f : failures_held w -> state_ f = pending -> failures_held (alloc f w).
Proof.
  intros Hw Hf b g Hb Hs. simpl in Hb.
  apply lookup_app_Some in Hb as [Hb|[_ Hb]].
  - eapply Hw; eauto.
  - apply list_lookup_singleton_Some in Hb as [_ <-]. congruence.
Qed.

Lemma held_log w l : failures_held w -> failures_held (mk_world (heap w) l).
Proof. intros Hw b g Hb Hs. eapply Hw; eauto. Qed.

Lemma keeps_ret {A} (a : A) : keeps_failures (@ret T A a).
Proof. intros w Hw. exact Hw. Qed.

Lemma keeps_throw {A} e : keeps_failures (@throw T A e).
Proof. intros w Hw. exact Hw. Qed.

Lemma keeps_crash {A} : keeps_failures (@crash T A).
Proof. intros w Hw. exact I. Qed.

Lemma keeps_bind {A B} (m : @M T A) (k : A -> @M T B) :
  keeps_failures m -> (forall a, keeps_failures (k a)) -> keeps_failures (bind m k).
Proof.
  intros Hm Hk w Hw. unfold bind. specialize (Hm w Hw).
  destruct (m w) as [w' a|w' e| |]; simpl in *; auto. apply Hk. exact Hm.
Qed.

Lemma keeps_try_catch {A} (m : @M T A) h :
  keeps_failures m -> (forall e, keeps_failures (h e)) -> keeps_failures (try_catch m h).
Proof.
  intros Hm Hh w Hw. unfold try_catch. specialize (Hm w Hw).
  destruct (m w) as [w' a|w' e| |]; simpl in *; auto. apply Hh. exact Hm.
Qed.

Lemma keeps_for_each {A} (l : list A) (body : A -> @M T unit) :
  (forall x, keeps_failures (body x)) -> keeps_failures (for_each l body).
Proof.
  intros Hb. induction l as [|x l IH]; simpl.
  - apply keeps_ret.
  - apply keeps_bind; auto.
Qed.

Lemma keeps_get a : keeps_failures (@get T a).
Proof. intros w Hw. unfold get. destruct (heap w !! a); simpl; auto. Qed.

Lemma keeps_record t x : keeps_failures (@record T t x).
Proof. intros w Hw. apply held_log. exact Hw. Qed.

Lemma keeps_create_shared d l : keeps_failures (@create_shared T d l).
Proof. intros w Hw. apply (held_alloc w (new_future d l) Hw). reflexivity. Qed.

Lemma keeps_lift {A} (r : A + exn) : keeps_failures (@lift T A r).
Proof. destruct r; [apply keeps_ret|apply keeps_throw]. Qed.

(** Reading a future and going on knowing what was read. *)
Lemma keeps_get_bind {A} a (k : @future T -> @M T A) :
  (forall w f, failures_held w -> heap w !! a = Some f -> holding (k f w)) ->
  keeps_failures (bind (get a) k).
Proof.
  intros Hk w Hw. unfold bind, get.
  destruct (heap w !! a) as [f|] eqn:Ha; simpl; auto.
Qed.

(** An update that leaves the state and the exception alone. *)
Lemma keeps_modify_same a (g : @future T -> @future T) :
  (forall f, state_ (g f) = state_ f /\ ex_ (g f) = ex_ f) ->
  keeps_failures (modify a g).
Proof.
  intros Hg. unfold modify. apply keeps_get_bind. intros w f Hw Ha.
  apply (held_upd w a (g f) Hw). destruct (Hg f) as [-> ->]. intros Hs.
  eapply Hw; eauto.
Qed.

Lemma keeps_store_failure a e : keeps_failures (@modify T a (store_failure e)).
Proof.
  unfold modify. apply keeps_get_bind. intros w f Hw Ha.
  apply (held_upd w a (store_failure e f) Hw). intros _.
  unfold store_failure. destruct (what_of e); discriminate.
Qed.

(** What [apply_state] needs of the update it runs: failed futures keep
    their exceptions, and if the new state is [failed] the future being
    resolved has one afterwards. *)
Definition code_holds (s : state) (me : addr) (code : addr -> @M T unit) : Prop :=
  forall w, failures_held w ->
    match code me w with
    | Ret w' _ =>
        failures_held w' /\
        (s = failed -> forall f', heap w' !! me = Some f' -> ex_ f' <> None)
    | Exc w' _ => failures_held w'
    | Crash | OutOfFuel => True
    end.

Lemma code_holds_store_failure me e s :
  code_holds s me (fun me => modify me (store_failure e)).
Proof.
  intros w Hw. pose proof (keeps_store_failure me e w Hw) as K.
  unfold modify, bind, get, put in *.
  destruct (heap w !! me) as [f|] eqn:Ha; [|exact I].
  split; [exact K|]. intros _ f' Hf'. simpl in Hf'.
  rewrite list_lookup_insert_eq in Hf' by (eapply lookup_lt_Some; eauto).
  injection Hf' as <-. unfold store_failure. destruct (what_of e); discriminate.
Qed.

Section Run.

Variable run : task -> addr -> @M T unit.
Hypothesis run_keeps : forall t me, keeps_failures (run t me).

Lemma keeps_call_when_ready me code : keeps_failures (call_when_ready run me code).
Proof.
  unfold call_when_ready. apply keeps_get_bind. intros w f Hw Ha.
  destruct (state_eqb (state_ f) pending) eqn:Hs; simpl.
  - apply state_eqb_eq in Hs. unfold bind, put, ret, shared; simpl.
    apply (held_upd w me _ Hw). simpl. congruence.
  - unfold bind, ret, shared.
    specialize (run_keeps code me w Hw).
    destruct (run code me w); simpl in *; auto.
Qed.

Lemma keeps_apply_state me code s :
  code_holds s me code -> keeps_failures (apply_state run me code s).
Proof.
  intros Hcode. unfold apply_state.
  destruct (state_eqb s pending); [apply keeps_crash|].
  apply keeps_get_bind. intros w f Hw Ha.
  destruct (negb (state_eqb (state_ f) pending)); [exact Hw|].
  specialize (Hcode w Hw). unfold bind at 1.
  destruct (code me w) as [w1 []|w1 e| |]; simpl; auto.
  destruct Hcode as [Hw1 Hex].
  unfold bind at 1, get. destruct (heap w1 !! me) as [f1|] eqn:Ha1; [|exact I].
  unfold bind at 1, put.
  set (w2 := mk_world (<[me := set_tasks [] f1]> (heap w1)) (log w1)).
  assert (Hw2 : failures_held w2).
  { apply (held_upd w1 me (set_tasks [] f1) Hw1). simpl. intros Hs. eapply Hw1; eauto. }
  assert (Ha2 : heap w2 !! me = Some (set_tasks [] f1)).
  { simpl. apply list_lookup_insert_eq. eapply lookup_lt_Some; eauto. }
  unfold bind at 1. rewrite (modify_pending _ _ _ _ Ha2).
  set (w3 := mk_world (<[me := set_state s (set_tasks [] f1)]> (heap w2)) (log w2)).
  assert (Hw3 : failures_held w3).
  { apply (held_upd w2 me (set_state s (set_tasks [] f1)) Hw2). simpl. intros Hs.
    apply (Hex Hs f1 eq_refl). }
  pose proof (keeps_bind _ _ (keeps_for_each (tasks_ f1) (fun v => run v me)
                                 (fun v => run_keeps v me))
                (fun _ => keeps_ret me) w3 Hw3) as K.
  exact K.
Qed.

Lemma keeps_done me v : keeps_failures (done run me v).
Proof.
  apply keeps_apply_state. intros w Hw.
  pose proof (keeps_modify_same me (set_value v) (fun f => conj eq_refl eq_refl) w Hw) as K.
  destruct (modify me (set_value v) w) as [w' []|w' e| |]; simpl in *;
    try exact I; try exact K.
  split; [exact K|discriminate].
Qed.

Lemma keeps_fail me e : keeps_failures (fail run me e).
Proof. apply keeps_apply_state, code_holds_store_failure. Qed.

Lemma keeps_fail_exception_pointer me ex : keeps_failures (fail_exception_pointer run me ex).
Proof.
  apply keeps_apply_state. destruct ex as [e|].
  - apply code_holds_store_failure.
  - intros w _. exact I.
Qed.

Lemma keeps_cancel me : keeps_failures (cancel run me).
Proof.
  apply keeps_apply_state. intros w Hw. simpl. split; [exact Hw|discriminate].
Qed.

Lemma keeps_fail_from me src : keeps_failures (fail_from run me src).
Proof.
  unfold fail_from. apply keeps_bind; [apply keeps_get|]. intros s0.
  destruct (negb (is_failed s0)); [apply keeps_throw|].
  apply keeps_apply_state. intros w Hw.
  unfold bind, get. destruct (heap w !! src) as [s1|] eqn:Hsrc; [|exact I].
  destruct (exception_ptr s1) as [[e|]|e]; try exact I;
    apply (code_holds_store_failure me e failed w Hw).
Qed.

Lemma keeps_call_user u (x : @arg T) : keeps_failures (call_user u x).
Proof.
  unfold call_user. apply keeps_bind; [apply keeps_record|]. intros _.
  destruct (throws u); [apply keeps_throw|apply keeps_ret].
Qed.

Lemma keeps_call_continuation k (x : @arg T) : keeps_failures (call_continuation k x).
Proof.
  destruct k; simpl; (apply keeps_bind; [apply keeps_record|]); intros _;
    [apply keeps_ret|apply keeps_throw].
Qed.

Lemma keeps_call_handler h original : keeps_failures (@call_handler T h original).
Proof.
  unfold call_handler. destruct original as [e|]; [|apply keeps_crash].
  destruct h as [code|accepts code].
  - destruct (what_of e); [|apply keeps_ret].
    apply keeps_bind; [apply keeps_call_continuation|intros; apply keeps_ret].
  - destruct (accepts e); [|apply keeps_ret].
    apply keeps_bind; [apply keeps_call_continuation|intros; apply keeps_ret].
Qed.

Lemma keeps_wire (f inner : addr) : keeps_failures (wire run f inner).
Proof.
  unfold wire, on_done, on_fail, on_cancel.
  repeat (apply keeps_bind; [apply keeps_call_when_ready|intros ?]).
  apply keeps_ret.
Qed.

Lemma keeps_try_handlers items (f me : addr) : keeps_failures (try_handlers run items f me).
Proof.
  induction items as [|it rest IH]; simpl.
  - apply keeps_bind; [apply keeps_fail_from|intros; apply keeps_ret].
  - apply keeps_bind; [apply keeps_get|]. intros m.
    apply keeps_bind; [apply keeps_call_handler|]. intros [i|]; [apply keeps_wire|apply IH].
Qed.

Lemma keeps_then_task (f : addr) ok items me : keeps_failures (then_task run f ok items me).
Proof.
  unfold then_task. apply keeps_try_catch.
  - apply keeps_bind; [apply keeps_get|]. intros d.
    destruct (is_ready d); [apply keeps_ret|].
    apply keeps_bind; [apply keeps_get|]. intros m.
    destruct (is_done m).
    { apply keeps_bind; [apply keeps_lift|]. intros v.
      apply keeps_bind; [apply keeps_call_continuation|]. intros i. apply keeps_wire. }
    destruct (is_failed m); [apply keeps_try_handlers|].
    destruct (is_cancelled m); [|apply keeps_ret].
    apply keeps_bind; [apply keeps_cancel|intros; apply keeps_ret].
  - intros e. apply keeps_bind; [apply keeps_fail_exception_pointer|intros; apply keeps_ret].
Qed.

Lemma keeps_task_body t me : keeps_failures (task_body run t me).
Proof.
  destruct t as [code|code|code|code|f ok items]; simpl.
  - apply keeps_call_user.
  - apply keeps_bind; [apply keeps_get|]. intros f.
    destruct (is_done f); [|apply keeps_ret].
    apply keeps_bind; [apply keeps_lift|]. intros v.
    destruct code; simpl; [|apply keeps_call_user].
    apply keeps_bind; [apply keeps_done|intros; apply keeps_ret].
  - apply keeps_bind; [apply keeps_get|]. intros f.
    destruct (is_failed f); [|apply keeps_ret].
    apply keeps_bind; [apply keeps_lift|]. intros v.
    destruct code; simpl; [|apply keeps_call_user].
    apply keeps_bind; [apply keeps_fail_from|intros; apply keeps_ret].
  - apply keeps_bind; [apply keeps_get|]. intros f.
    destruct (is_cancelled f); [|apply keeps_ret].
    destruct code; simpl; [|apply keeps_call_user].
    apply keeps_bind; [apply keeps_cancel|intros; apply keeps_ret].
  - apply keeps_then_task.
Qed.

Lemma keeps_then_ d me ok items : keeps_failures (then_ d run me ok items).
Proof.
  unfold then_. apply keeps_bind; [apply keeps_create_shared|]. intros f.
  apply keeps_bind; [apply keeps_call_when_ready|intros; apply keeps_ret].
Qed.

End Run.

Lemma keeps_run_task n : forall t me, keeps_failures (@run_task T n t me).
Proof.
  induction n as [|n IH]; intros t me.
  - intros w _. exact I.
  - rewrite run_task_S. apply keeps_task_body. exact IH.
Qed.

End Held.

(** X15.  A failed future always holds an exception: if every failed
    future of the heap has a non-null [ex_] (as in the empty heap),
    then so it is after any member function has run, with whatever
    closures queued and however the call ends.  So on a failed future
    [value()] rethrows the stored exception and never throws
    [std::logic_error("no exception available")], and [fail_from] never
    rethrows a null pointer. *)
Theorem failed_futures_hold_exceptions {T : Type} (T_default : T) n (w : @world T) :
  failures_held w ->
  (forall me v, holding (done (run_task n) me v w)) /\
  (forall me e, holding (fail (run_task n) me e w)) /\
  (forall me, holding (cancel (run_task n) me w)) /\
  (forall me src, holding (fail_from (run_task n) me src w)) /\
  (forall me ex, holding (fail_exception_pointer (run_task n) me ex w)) /\
  (forall me t, holding (call_when_ready (run_task n) me t w)) /\
  (forall me ok items, holding (then_ T_default (run_task n) me ok items w)) /\
  (forall l, holding (create_shared T_default l w)) /\
  (forall a f, heap w !! a = Some f -> state_ f = failed ->
     exists e, ex_ f = Some e /\ value f = inr e /\ exception_ptr f = inl (Some e)).
Proof.
  intros Hw. pose proof (@keeps_run_task T n) as Hrun.
  repeat split; intros.
  - apply keeps_done; auto.
  - apply keeps_fail; auto.
  - apply keeps_cancel; auto.
  - apply keeps_fail_from; auto.
  - apply keeps_fail_exception_pointer; auto.
  - apply keeps_call_when_ready; auto.
  - apply keeps_then_; auto.
  - apply keeps_create_shared; auto.
  - destruct (ex_ f) as [e|] eqn:He.
    + exists e. unfold value, exception_ptr. rewrite H0, He. auto.
    + exfalso. eapply Hw; eauto.
Qed.

(** ** [resolved_future] *)

(** X16.  [resolved_future(v)] adds one future to the heap and changes
    nothing else: the new future is done, [value()] returns [v], its
    queue is empty, and like every resolved future it rejects a later
    [done], [fail] or [cancel]. *)
Theorem resolved_future_is_done {T : Type} (T_default : T) n (w : @world T) (v : T) :
  exists r,
    resolved_future T_default (run_task n) v w
    = Ret (mk_world (heap w ++ [r]) (log w)) (length (heap w)) /\
    state_ r = done_state /\ value r = inl v /\ tasks_ r = [] /\
    (forall x, done (run_task n) (length (heap w)) x (mk_world (heap w ++ [r]) (log w))
               = Exc (mk_world (heap w ++ [r]) (log w)) (double_resolve done_state r)) /\
    (forall e, fail (run_task n) (length (heap w)) e (mk_world (heap w ++ [r]) (log w))
               = Exc (mk_world (heap w ++ [r]) (log w)) (double_resolve failed r)) /\
    cancel (run_task n) (length (heap w)) (mk_world (heap w ++ [r]) (log w))
    = Exc (mk_world (heap w ++ [r]) (log w)) (double_resolve cancelled r).
Proof.
  set (fresh := new_future T_default "unlabelled future").
  set (r := resolved done_state (set_value v fresh)).
  exists r.
  assert (Hw : upd (length (heap w)) r (alloc fresh w) = mk_world (heap w ++ [r]) (log w)).
  { unfold upd, alloc. simpl. f_equal.
    rewrite insert_app_r_alt by lia. rewrite Nat.sub_diag. reflexivity. }
  assert (Hr : heap (mk_world (heap w ++ [r]) (log w)) !! length (heap w) = Some r).
  { simpl. apply list_lookup_middle. reflexivity. }
  split; [|split; [reflexivity|split; [reflexivity|split; [reflexivity|]]]].
  - unfold resolved_future. norm. rewrite create_shared_eq. fold fresh.
    rewrite (done_pending _ _ _ _ _ (lookup_alloc_new fresh w) eq_refl).
    fold r. rewrite Hw. reflexivity.
  - repeat split; intros; unfold done, fail, cancel;
      (erewrite apply_state_terminal; [reflexivity|discriminate|exact Hr|discriminate]).
Qed.

(** ** The laws at sample heaps *)

Lemma time_counts_recompose_witness :
  exists d h m s ms us ns,
    time_counts 90061001001001%Z = [d; h; m; s; ms; us; ns] /\
    nanoseconds_of (time_counts 90061001001001%Z) time_units = 90061001001001%Z /\
    (Z.abs d <= 106751)%Z /\
    (Z.abs h < 24)%Z /\ (Z.abs m < 60)%Z /\ (Z.abs s < 60)%Z /\
    (Z.abs ms < 1000)%Z /\ (Z.abs us < 1000)%Z /\ (Z.abs ns < 1000)%Z /\
    Forall (fun c => (0 <= 90061001001001%Z -> 0 <= c)%Z /\ (90061001001001%Z <= 0 -> c <= 0)%Z) (time_counts 90061001001001%Z).
Proof.
  apply (time_counts_recompose 90061001001001%Z). unfold int64_range. lia.
Defined.

Lemma resolved_future_is_final_witness :
  (forall me v, kept 0 done_five (done (run_task 1) me v one_done)) /\
  (forall me e, kept 0 done_five (fail (run_task 1) me e one_done)) /\
  (forall me msg, kept 0 done_five (fail_string (run_task 1) me msg one_done)) /\
  (forall me, kept 0 done_five (cancel (run_task 1) me one_done)) /\
  (forall me src, kept 0 done_five (fail_from (run_task 1) me src one_done)) /\
  (forall me ex, kept 0 done_five (fail_exception_pointer (run_task 1) me ex one_done)) /\
  (forall me t, kept 0 done_five (call_when_ready (run_task 1) me t one_done)) /\
  (forall me ok items, kept 0 done_five (then_ 0 (run_task 1) me ok items one_done)).
Proof.
  apply (resolved_future_is_final 0 1 one_done 0 done_five); [reflexivity|discriminate].
Defined.

Lemma registration_commutes_witness :
  (forall v, (call_when_ready (run_task 1) 0 (task_on_ready (mk_user 1 None)) >> done (run_task 1) 0 v) one_pending
             = (done (run_task 1) 0 v >> call_when_ready (run_task 1) 0 (task_on_ready (mk_user 1 None))) one_pending) /\
  (forall e, (call_when_ready (run_task 1) 0 (task_on_ready (mk_user 1 None)) >> fail (run_task 1) 0 e) one_pending
             = (fail (run_task 1) 0 e >> call_when_ready (run_task 1) 0 (task_on_ready (mk_user 1 None))) one_pending) /\
  (call_when_ready (run_task 1) 0 (task_on_ready (mk_user 1 None)) >> cancel (run_task 1) 0) one_pending
  = (cancel (run_task 1) 0 >> call_when_ready (run_task 1) 0 (task_on_ready (mk_user 1 None))) one_pending.
Proof.
  apply (registration_commutes 1 one_pending 0 (new_future 0 "f") (task_on_ready (mk_user 1 None)));
    reflexivity.
Defined.

Lemma then_commutes_witness :
  (forall v,
     (let* seq := then_ 0 (run_task 2) 0 (k_return 7 1) [] in
      done (run_task 2) 0 v >> ret seq) two_pending
     = (done (run_task 2) 0 v >> then_ 0 (run_task 2) 0 (k_return 7 1) []) two_pending) /\
  (forall e,
     (let* seq := then_ 0 (run_task 2) 0 (k_return 7 1) [] in
      fail (run_task 2) 0 e >> ret seq) two_pending
     = (fail (run_task 2) 0 e >> then_ 0 (run_task 2) 0 (k_return 7 1) []) two_pending) /\
  (let* seq := then_ 0 (run_task 2) 0 (k_return 7 1) [] in
   cancel (run_task 2) 0 >> ret seq) two_pending
  = (cancel (run_task 2) 0 >> then_ 0 (run_task 2) 0 (k_return 7 1) []) two_pending.
Proof.
  apply (then_commutes 0 2 two_pending 0 (new_future 0 "f") (k_return 7 1) []); reflexivity.
Defined.

Lemma callbacks_by_state_witness :
  (forall v,
     done (run_task (S 0)) 0 v with_callbacks
     = Ret (mk_world (<[0 := resolved done_state (set_value v four_callbacks)]> (heap with_callbacks))
              (log with_callbacks ++ flat_map (delivered 0 (resolved done_state (set_value v four_callbacks))) (tasks_ four_callbacks)))
           0) /\
  (forall e,
     fail (run_task (S 0)) 0 e with_callbacks
     = Ret (mk_world (<[0 := resolved failed (store_failure e four_callbacks)]> (heap with_callbacks))
              (log with_callbacks ++ flat_map (delivered 0 (resolved failed (store_failure e four_callbacks))) (tasks_ four_callbacks)))
           0) /\
  cancel (run_task (S 0)) 0 with_callbacks
  = Ret (mk_world (<[0 := resolved cancelled four_callbacks]> (heap with_callbacks))
           (log with_callbacks ++ flat_map (delivered 0 (resolved cancelled four_callbacks)) (tasks_ four_callbacks)))
        0.
Proof.
  apply (callbacks_by_state 0 with_callbacks 0 four_callbacks); try reflexivity.
  repeat constructor.
Defined.

Lemma late_registration_witness :
  call_when_ready (run_task (S 0)) 0 (task_on_ready (mk_user 1 None)) one_done
  = Ret (mk_world (heap one_done) (log one_done ++ delivered 0 done_five (task_on_ready (mk_user 1 None)))) 0.
Proof.
  apply (late_registration 0 one_done 0 done_five (task_on_ready (mk_user 1 None)));
    [reflexivity|discriminate|reflexivity].
Defined.

Lemma fail_round_trip_witness :
  exists w' f',
    fail (run_task 0) 0 (runtime_error "boom") one_pending = Ret w' 0 /\
    fail_exception_pointer (run_task 0) 0 (Some (runtime_error "boom")) one_pending = Ret w' 0 /\
    heap w' !! 0 = Some f' /\
    state_ f' = failed /\
    exception_ptr f' = inl (Some (runtime_error "boom")) /\
    value f' = inr (runtime_error "boom") /\
    failure_reason f' = inl (reason_of (runtime_error "boom")) /\
    (forall m, what_of (runtime_error "boom") = Some m -> failure_reason f' = inl m) /\
    (what_of (runtime_error "boom") = None -> failure_reason f' = inl "unknown").
Proof.
  apply (fail_round_trip 0 one_pending 0 (new_future 0 "f") (runtime_error "boom")); reflexivity.
Defined.

Lemma fail_from_copies_witness :
  fail_from (run_task 0) 0 1 two_pending = Exc two_pending (logic_error "future is not failed") /\
  exists w' f',
    fail_from (run_task 0) 0 1 failed_source = Ret w' 0 /\
    heap w' !! 0 = Some f' /\ state_ f' = failed /\
    ex_ f' = ex_ boom_future /\ failure_reason f' = inl (reason_of (runtime_error "boom")) /\
    value f' = value boom_future /\
    heap w' !! 1 = Some boom_future.
Proof.
  split.
  - apply (proj1 (fail_from_copies 0 two_pending 0 1 (new_future 0 "g") eq_refl)).
    discriminate.
  - apply (proj2 (fail_from_copies 0 failed_source 0 1 boom_future eq_refl)
             (new_future 0 "f") (runtime_error "boom")); reflexivity.
Defined.

Lemma then_ok_throws_witness :
  exists w' seq fut_seq,
    (let* seq := then_ 0 (run_task (S 0)) 0 (k_throw 7 (runtime_error "boom")) [] in
     done (run_task (S 0)) 0 10 >> ret seq) one_pending = Ret w' seq /\
    log w' = (log one_pending ++ [(7, arg_value 10)])%list /\
    heap w' !! 0 = Some (resolved done_state (set_value 10 (new_future 0 "f"))) /\
    heap w' !! seq = Some fut_seq /\ state_ fut_seq = failed /\
    ex_ fut_seq = Some (runtime_error "boom") /\ failure_reason fut_seq = inl (reason_of (runtime_error "boom")).
Proof.
  apply (then_ok_throws 0 0 one_pending 0 (new_future 0 "f") 7 (runtime_error "boom") [] 10); reflexivity.
Defined.

Lemma then_source_cancelled_witness :
  exists w' seq fut_seq,
    (let* seq := then_ 0 (run_task (S 0)) 0 (k_return 7 0) [] in
     cancel (run_task (S 0)) 0 >> ret seq) one_pending = Ret w' seq /\
    log w' = log one_pending /\
    heap w' !! 0 = Some (resolved cancelled (new_future 0 "f")) /\
    heap w' !! seq = Some fut_seq /\ state_ fut_seq = cancelled /\
    value fut_seq = inr WasCancelled.
Proof.
  apply (then_source_cancelled 0 0 one_pending 0 (new_future 0 "f") (k_return 7 0) []); reflexivity.
Defined.

Lemma then_inner_failure_witness :
  exists w1 w2 seq s2 g2,
    (let* seq := then_ 0 (run_task (S (S 0))) 0 (k_return 7 1) [] in
     done (run_task (S (S 0))) 0 10 >> ret seq) two_pending = Ret w1 seq /\
    fail (run_task (S (S 0))) 1 (runtime_error "boom") w1 = Ret w2 1 /\
    heap w2 !! seq = Some s2 /\ state_ s2 = failed /\ ex_ s2 = Some (runtime_error "boom") /\
    failure_reason s2 = inl (reason_of (runtime_error "boom")) /\
    heap w2 !! 1 = Some g2 /\ failure_reason s2 = failure_reason g2 /\
    log w2 = log w1.
Proof.
  apply (then_inner_failure 0 0 two_pending 0 1 (new_future 0 "f") (new_future 0 "g") 7 [] 10 (runtime_error "boom"));
    try reflexivity.
  discriminate.
Defined.

Lemma then_cancel_after_wiring_witness :
  exists w1 seq,
    (let* seq := then_ 0 (run_task (S (S 0))) 0 (k_return 7 1) [] in
     done (run_task (S (S 0))) 0 10 >> ret seq) two_pending = Ret w1 seq /\
    (exists w2 s' g',
       cancel (run_task (S (S 0))) seq w1 = Exc w2 (double_resolve cancelled s') /\
       heap w2 !! seq = Some s' /\ state_ s' = cancelled /\
       heap w2 !! 1 = Some g' /\ state_ g' = cancelled) /\
    (exists w2 s' g',
       cancel (run_task (S (S 0))) 1 w1 = Exc w2 (double_resolve cancelled g') /\
       heap w2 !! seq = Some s' /\ state_ s' = cancelled /\
       heap w2 !! 1 = Some g' /\ state_ g' = cancelled).
Proof.
  apply (then_cancel_after_wiring 0 0 two_pending 0 1 (new_future 0 "f") (new_future 0 "g") 7 [] 10);
    try reflexivity.
  discriminate.
Defined.

Lemma then_handler_recovers_witness :
  exists w1 w2 seq s1 s2,
    (let* seq := then_ 0 (run_task (S (S 0))) 0 (k_return 7 1) ([h_typed (fun _ => false) (k_return 8 1)] ++ (h_string (k_return 9 1)) :: []) in
     fail (run_task (S (S 0))) 0 (runtime_error "boom") >> ret seq) two_pending = Ret w1 seq /\
    log w1 = (log two_pending ++ [(9, given_to (h_string (k_return 9 1)) (runtime_error "boom"))])%list /\
    heap w1 !! seq = Some s1 /\ state_ s1 = pending /\
    done (run_task (S (S 0))) 1 20 w1 = Ret w2 1 /\
    heap w2 !! seq = Some s2 /\ state_ s2 = done_state /\ value s2 = inl 20 /\
    log w2 = log w1.
Proof.
  apply (then_handler_recovers 0 0 two_pending 0 1 (new_future 0 "f") (new_future 0 "g")
           (k_return 7 1) [h_typed (fun _ => false) (k_return 8 1)] (h_string (k_return 9 1)) [] 9 (runtime_error "boom") 20);
    try reflexivity.
  - discriminate.
  - repeat constructor.
Defined.

Lemma failed_futures_hold_exceptions_witness :
  (forall me v, holding (done (run_task 1) me v failed_source)) /\
  (forall me e, holding (fail (run_task 1) me e failed_source)) /\
  (forall me, holding (cancel (run_task 1) me failed_source)) /\
  (forall me src, holding (fail_from (run_task 1) me src failed_source)) /\
  (forall me ex, holding (fail_exception_pointer (run_task 1) me ex failed_source)) /\
  (forall me t, holding (call_when_ready (run_task 1) me t failed_source)) /\
  (forall me ok items, holding (then_ 0 (run_task 1) me ok items failed_source)) /\
  (forall l, holding (create_shared 0 l failed_source)) /\
  (forall a f, heap failed_source !! a = Some f -> state_ f = failed ->
     exists e, ex_ f = Some e /\ value f = inr e /\ exception_ptr f = inl (Some e)).
Proof.
  apply (failed_futures_hold_exceptions 0 1 failed_source).
  intros a f Ha Hs. destruct a as [|[|a]]; simpl in Ha; inversion Ha; subst; discriminate.
Defined.

End TypedLaws.

(** * More of cps::base_future *)
Module BaseLaws.
Import Base BaseFacts.

#[local] Arguments runner_at : simpl never.

(** ** Registering on a future that is ready *)

Section Ready.

Variable r : runner.

Lemma on_done_ready me code (f : base_future) w :
  heap w !! me = Some f -> state_ f <> pending ->
  on_done r me code w = ((if is_done f then run_thunk r code else ret tt) >> ret me) w.
Proof.
  intros H Hs. unfold on_done, bind. rewrite (base_get_Some _ _ _ H).
  unfold is_ready. destruct (state_ f); try congruence; reflexivity.
Qed.

Lemma on_cancel_ready me code (f : base_future) w :
  heap w !! me = Some f -> state_ f <> pending ->
  on_cancel r me code w = ((if is_cancelled f then run_thunk r code else ret tt) >> ret me) w.
Proof.
  intros H Hs. unfold on_cancel, bind. rewrite (base_get_Some _ _ _ H).
  unfold is_ready. destruct (state_ f); try congruence; reflexivity.
Qed.

Lemma on_fail_ready me code (f : base_future) w :
  heap w !! me = Some f -> state_ f <> pending ->
  on_fail r me code w
  = ((if is_failed f then
        match ex_ f with Some ex => run_fail_cb r code ex | None => crash end
      else ret tt) >> ret me) w.
Proof.
  intros H Hs. unfold on_fail, bind. rewrite (base_get_Some _ _ _ H).
  unfold is_ready. destruct (state_ f); try congruence; reflexivity.
Qed.

(** [fail(ex)] on a future with nothing in [on_fail_]. *)
Lemma fail_quiet me ex (f : base_future) w :
  heap w !! me = Some f -> on_fail_ f = [] ->
  fail r me ex w = Ret (upd me (failed_future ex) w) me.
Proof.
  intros H Hq. rewrite (fail_start _ _ _ _ _ H), Hq. unfold bind.
  erewrite drain_fail_empty; [reflexivity|eapply base_lookup_upd_eq; exact H|reflexivity].
Qed.

(** [propagate] and [then] on a pending future: three registrations. *)
Lemma propagate_pending me (f : addr) (m : base_future) w :
  heap w !! me = Some m -> state_ m = pending ->
  propagate r me f w
  = Ret (upd me (mk_future pending (on_done_ m ++ [propagate_done f])
                   (on_fail_ m ++ [fail_with f])
                   (on_cancel_ m ++ [propagate_cancel f]) (ex_ m)) w) f.
Proof.
  intros H Hs. unfold propagate. bnorm.
  rewrite (on_done_pending _ _ _ _ _ H Hs).
  erewrite on_cancel_pending; [|eapply base_lookup_upd_eq; exact H|exact Hs].
  rewrite base_upd_upd.
  erewrite on_fail_pending; [|eapply base_lookup_upd_eq; exact H|exact Hs].
  rewrite base_upd_upd. unfold set_on_fail, set_on_cancel, set_on_done. simpl.
  rewrite Hs. reflexivity.
Qed.

Lemma then_pending me ok (m : base_future) w :
  heap w !! me = Some m -> state_ m = pending ->
  then_ r me ok w
  = Ret (upd me (mk_future pending
                   (on_done_ m ++ [then_done me ok (length (heap w))])
                   (on_fail_ m ++ [then_fail me (length (heap w))])
                   (on_cancel_ m ++ [then_cancel me (length (heap w))]) (ex_ m))
           (alloc new_future w)) (length (heap w)).
Proof.
  intros H Hs. unfold then_. bnorm. rewrite create_eq.
  pose proof (base_lookup_alloc_old _ new_future _ _ H) as H'.
  rewrite (on_done_pending _ _ _ _ _ H' Hs).
  erewrite on_fail_pending; [|eapply base_lookup_upd_eq; exact H'|exact Hs].
  rewrite base_upd_upd.
  erewrite on_cancel_pending; [|eapply base_lookup_upd_eq; exact H'|exact Hs].
  rewrite base_upd_upd. unfold set_on_fail, set_on_cancel, set_on_done. simpl.
  rewrite Hs. reflexivity.
Qed.

End Ready.

(** ** [propagate] *)

(** The source of a [propagate] onto the idle future [t] resolves. *)
Lemma source_done n w (s t : addr) (fs ft : base_future) :
  s <> t ->
  heap w !! s = Some fs -> on_done_ fs = [propagate_done t] ->
  heap w !! t = Some ft -> on_done_ ft = [] ->
  done (runner_at (S (S n))) s w
  = Ret (upd t (mk_future complete [] [] [] (ex_ ft))
           (upd s (mk_future complete [] [] [] (ex_ fs)) w)) s.
Proof.
  intros Hne Hs Hq Ht Htq.
  rewrite (done_start _ _ _ _ Hs). rewrite runner_at_S. simpl rounds. rewrite <- runner_at_S.
  bnorm.
  erewrite drain_done_step; [|eapply base_lookup_upd_eq; exact Hs|simpl; exact Hq].
  rewrite base_upd_upd. simpl for_each. bnorm.
  rewrite runner_at_S. cbv beta iota delta [run_thunk]. rewrite <- runner_at_S.
  unfold guarded. cbv beta.
  rewrite (done_quiet _ t ft); [|rewrite base_lookup_upd_ne by exact Hne; exact Ht|exact Htq].
  erewrite drain_done_empty;
    [reflexivity
    |rewrite base_lookup_upd_ne by (intros ->; apply Hne; reflexivity);
     eapply base_lookup_upd_eq; exact Hs
    |reflexivity].
Qed.

Lemma source_fail n w (s t : addr) (fs ft : base_future) ex :
  s <> t ->
  heap w !! s = Some fs -> on_fail_ fs = [fail_with t] ->
  heap w !! t = Some ft -> on_fail_ ft = [] ->
  fail (runner_at (S (S n))) s ex w
  = Ret (upd t (failed_future ex) (upd s (failed_future ex) w)) s.
Proof.
  intros Hne Hs Hq Ht Htq.
  rewrite (fail_start _ _ _ _ _ Hs). rewrite runner_at_S. simpl rounds. rewrite <- runner_at_S.
  bnorm.
  erewrite drain_fail_step; [|eapply base_lookup_upd_eq; exact Hs|simpl; exact Hq].
  rewrite base_upd_upd. simpl for_each. bnorm.
  erewrite base_get_Some by (eapply base_lookup_upd_eq; exact Hs).
  simpl (ex_ _). cbv beta iota.
  rewrite runner_at_S. cbv beta iota delta [run_fail_cb]. rewrite <- runner_at_S.
  unfold guarded. cbv beta.
  rewrite (fail_quiet _ t ex ft); [|rewrite base_lookup_upd_ne by exact Hne; exact Ht|exact Htq].
  erewrite drain_fail_empty;
    [reflexivity
    |rewrite base_lookup_upd_ne by (intros ->; apply Hne; reflexivity);
     eapply base_lookup_upd_eq; exact Hs
    |reflexivity].
Qed.

(** X17.  [s->propagate(t)] makes [t] follow [s]: with source and target
    pending and nothing queued on them, [propagate] returns [t] still
    pending; when [s] then completes, [t] is complete; when [s] fails
    with [ex], [t] is failed and holds [ex]. *)
Theorem propagate_forwards n w (s t : addr) (fs ft : base_future) :
  heap w !! s = Some fs -> idle fs -> heap w !! t = Some ft -> idle ft -> s <> t ->
  exists w1,
    propagate (runner_at (S (S n))) s t w = Ret w1 t /\
    state_at w1 s = Some pending /\ state_at w1 t = Some pending /\
    (exists w2, done (runner_at (S (S n))) s w1 = Ret w2 s /\
       state_at w2 s = Some complete /\ state_at w2 t = Some complete) /\
    (forall ex, exists w2, fail (runner_at (S (S n))) s ex w1 = Ret w2 s /\
       state_at w2 s = Some failed /\ state_at w2 t = Some failed /\
       (ex_ <$> heap w2 !! t) = Some (Some ex)).
Proof.
  intros Hs (Hsp & Hsd & Hsf & Hsc) Ht (Htp & Htd & Htf & Htc) Hne.
  set (S1 := mk_future pending [propagate_done t] [fail_with t] [propagate_cancel t] (ex_ fs)).
  set (w1 := upd s S1 w).
  assert (Hs1 : heap w1 !! s = Some S1) by (eapply base_lookup_upd_eq; exact Hs).
  assert (Ht1 : heap w1 !! t = Some ft).
  { unfold w1. rewrite base_lookup_upd_ne by exact Hne. exact Ht. }
  assert (Hlook : forall a b x y (w0 : world) g,
            a <> b -> heap w0 !! a = Some g ->
            state_at (upd b y (upd a x w0)) a = Some (state_ x) /\
            (forall h, heap w0 !! b = Some h -> state_at (upd b y (upd a x w0)) b = Some (state_ y))).
  { intros a b x y w0 g Hab Ha. split.
    - unfold state_at. rewrite base_lookup_upd_ne by (intros ->; apply Hab; reflexivity).
      erewrite base_lookup_upd_eq by exact Ha. reflexivity.
    - intros h Hb. unfold state_at.
      erewrite base_lookup_upd_eq; [reflexivity|].
      rewrite base_lookup_upd_ne by exact Hab. exact Hb. }
  exists w1. split; [|split; [|split; [|split]]].
  - rewrite (propagate_pending _ _ _ _ _ Hs Hsp), Hsd, Hsf, Hsc. reflexivity.
  - rewrite (state_at_Some _ _ _ Hs1). reflexivity.
  - rewrite (state_at_Some _ _ _ Ht1). exact (f_equal Some Htp).
  - eexists. split; [apply (source_done n w1 s t S1 ft Hne Hs1 eq_refl Ht1 Htd)|].
    destruct (Hlook s t (mk_future complete [] [] [] (ex_ S1))
                (mk_future complete [] [] [] (ex_ ft)) w1 S1 Hne Hs1) as [H1 H2].
    split; [exact H1|exact (H2 ft Ht1)].
  - intros ex. eexists. split; [apply (source_fail n w1 s t S1 ft ex Hne Hs1 eq_refl Ht1 Htf)|].
    destruct (Hlook s t (failed_future ex) (failed_future ex) w1 S1 Hne Hs1) as [H1 H2].
    split; [exact H1|]. split; [exact (H2 ft Ht1)|].
    erewrite base_lookup_upd_eq; [reflexivity|].
    rewrite base_lookup_upd_ne by exact Hne. exact Ht1.
Qed.

(** ** [then] *)

(** Resolving a future that holds one closure in the queue drained. *)
Lemma done_one n w (s : addr) (fs : base_future) c :
  heap w !! s = Some fs -> on_done_ fs = [c] ->
  done (runner_at (S (S n))) s w
  = (guarded (thunk_body (runner_at (S n)) c) >>
     drain_done (runner_at (S (S n))) (S n) s >> ret s)
      (upd s (mk_future complete [] [] [] (ex_ fs)) w).
Proof.
  intros Hs Hq.
  rewrite (done_start _ _ _ _ Hs). rewrite runner_at_S. simpl rounds. rewrite <- runner_at_S.
  bnorm.
  erewrite drain_done_step; [|eapply base_lookup_upd_eq; exact Hs|simpl; exact Hq].
  rewrite base_upd_upd. simpl for_each. bnorm.
  rewrite runner_at_S. cbv beta iota delta [run_thunk]. rewrite <- runner_at_S.
  unfold set_on_done. simpl.
  destruct (guarded (thunk_body (runner_at (S n)) c)
              (upd s (mk_future complete [] [] [] (ex_ fs)) w)) as [w' []|w' e| |];
    reflexivity.
Qed.

Lemma fail_one n w (s : addr) (fs : base_future) c ex :
  heap w !! s = Some fs -> on_fail_ fs = [c] ->
  fail (runner_at (S (S n))) s ex w
  = (guarded (fail_cb_body (runner_at (S n)) c ex) >>
     drain_fail (runner_at (S (S n))) (S n) s >> ret s)
      (upd s (failed_future ex) w).
Proof.
  intros Hs Hq.
  rewrite (fail_start _ _ _ _ _ Hs). rewrite runner_at_S. simpl rounds. rewrite <- runner_at_S.
  bnorm.
  erewrite drain_fail_step; [|eapply base_lookup_upd_eq; exact Hs|simpl; exact Hq].
  rewrite base_upd_upd. simpl for_each. bnorm.
  erewrite base_get_Some by (eapply base_lookup_upd_eq; exact Hs).
  simpl (ex_ _). cbv beta iota.
  rewrite runner_at_S. cbv beta iota delta [run_fail_cb]. rewrite <- runner_at_S.
  unfold set_on_fail, failed_future. simpl.
  destruct (guarded (fail_cb_body (runner_at (S n)) c ex)
              (upd s (mk_future failed [] [] [] (Some ex)) w)) as [w' []|w' e| |];
    reflexivity.
Qed.

(** The closure [then] queues in [on_done_], when [ok] returns the
    pending future [g]. *)
Lemma then_done_closure r w (me f g : addr) (ff fg : base_future) t :
  heap w !! f = Some ff -> state_ ff = pending ->
  heap w !! g = Some fg -> state_ fg = pending ->
  thunk_body r (then_done me (seq_user t (inl g)) f) w
  = Ret (upd g (mk_future pending (on_done_ fg ++ [propagate_done f])
                  (on_fail_ fg ++ [fail_with f])
                  (on_cancel_ fg ++ [propagate_cancel f]) (ex_ fg))
           (logged (ev_call t) w)) tt.
Proof.
  intros Hf Hfp Hg Hgp. unfold thunk_body. bnorm. rewrite (base_get_Some _ _ _ Hf).
  unfold is_ready. rewrite Hfp. simpl (negb _). cbv beta iota.
  unfold call_seq. bnorm. rewrite emit_eq.
  rewrite (propagate_pending r g f fg (logged (ev_call t) w) Hg Hgp). reflexivity.
Qed.

(** ... when [ok] throws. *)
Lemma then_done_closure_throws r w (me f : addr) (ff : base_future) t e :
  heap w !! f = Some ff -> state_ ff = pending ->
  thunk_body r (then_done me (seq_user t (inr e)) f) w = Exc (logged (ev_call t) w) e.
Proof.
  intros Hf Hfp. unfold thunk_body. bnorm. rewrite (base_get_Some _ _ _ Hf).
  unfold is_ready. rewrite Hfp. simpl (negb _). cbv beta iota.
  unfold call_seq. bnorm. rewrite emit_eq. reflexivity.
Qed.

Section Then.

Variables (n : nat) (w : world) (me : addr) (fm : base_future) (ok : seq).
Hypothesis Hme : heap w !! me = Some fm.
Hypothesis Hidle : idle fm.

Local Abbreviation r := (runner_at (S (S n))).
Local Abbreviation f := (length (heap w)).
Local Abbreviation M1 :=
  (mk_future pending [then_done me ok f] [then_fail me f] [then_cancel me f] (ex_ fm)).
Local Abbreviation w1 := (upd me M1 (alloc new_future w)).

Lemma then_idle : then_ r me ok w = Ret w1 f.
Proof.
  destruct Hidle as (Hp & Hd & Hf & Hc).
  rewrite (then_pending _ _ _ _ _ Hme Hp), Hd, Hf, Hc. reflexivity.
Qed.

Lemma then_idle_source : heap w1 !! me = Some M1.
Proof. eapply base_lookup_upd_eq. apply base_lookup_alloc_old. exact Hme. Qed.

Lemma then_idle_derived : heap w1 !! f = Some new_future.
Proof.
  pose proof (lookup_lt_Some _ _ _ Hme) as Hlt.
  rewrite base_lookup_upd_ne by lia. apply base_lookup_alloc_new.
Qed.

Lemma then_idle_other (a : addr) (fa : base_future) :
  heap w !! a = Some fa -> a <> me -> heap w1 !! a = Some fa.
Proof.
  intros Ha Hne. rewrite base_lookup_upd_ne by auto. apply base_lookup_alloc_old. exact Ha.
Qed.

End Then.

(** X18.  [base_future::then]: [f = me->then(ok)] on a pending source
    with nothing queued, where [ok] returns the pending future [g],
    another future with nothing queued; [me->done()] calls [ok] once and
    leaves [f] pending, tied to [g] by [propagate]: when [g] completes
    [f] is complete, and when [g] fails with [ex] so does [f], [ok] not
    being called again. *)
Theorem base_then_follows n w (me g : addr) (fm fg : base_future) t :
  heap w !! me = Some fm -> idle fm -> heap w !! g = Some fg -> idle fg -> me <> g ->
  exists w2,
    (let* f := then_ (runner_at (S (S n))) me (seq_user t (inl g)) in
     done (runner_at (S (S n))) me >> ret f) w = Ret w2 (length (heap w)) /\
    trace w2 = (trace w ++ [ev_call t])%list /\
    state_at w2 me = Some complete /\
    state_at w2 (length (heap w)) = Some pending /\
    state_at w2 g = Some pending /\
    (exists w3, done (runner_at (S (S n))) g w2 = Ret w3 g /\
       state_at w3 (length (heap w)) = Some complete /\ trace w3 = trace w2) /\
    (forall ex, exists w3, fail (runner_at (S (S n))) g ex w2 = Ret w3 g /\
       state_at w3 (length (heap w)) = Some failed /\
       (ex_ <$> heap w3 !! length (heap w)) = Some (Some ex) /\ trace w3 = trace w2).
Proof.
  intros Hme Hidle Hg (Hgp & Hgd & Hgfl & Hgc) Hne.
  pose proof (lookup_lt_Some _ _ _ Hme) as Hmlt.
  pose proof (lookup_lt_Some _ _ _ Hg) as Hglt.
  set (ok := seq_user t (inl g)).
  set (f := length (heap w)).
  set (M1 := mk_future pending [then_done me ok f] [then_fail me f] [then_cancel me f] (ex_ fm)).
  set (w1 := upd me M1 (alloc new_future w)).
  set (Mc := mk_future complete [] [] [] (ex_ fm)).
  set (wc := upd me Mc w1).
  set (G1 := mk_future pending [propagate_done f] [fail_with f] [propagate_cancel f] (ex_ fg)).
  set (w2 := upd g G1 (logged (ev_call t) wc)).
  assert (Hm1 : heap w1 !! me = Some M1) by (apply then_idle_source; exact Hme).
  assert (Hf1 : heap w1 !! f = Some new_future) by (apply then_idle_derived with (fm := fm); exact Hme).
  assert (Hg1 : heap w1 !! g = Some fg).
  { apply then_idle_other; auto. }
  assert (Hfc : heap wc !! f = Some new_future).
  { unfold wc. rewrite base_lookup_upd_ne by (unfold f; lia). exact Hf1. }
  assert (Hgc' : heap wc !! g = Some fg).
  { unfold wc. rewrite base_lookup_upd_ne by exact Hne. exact Hg1. }
  assert (Hmc : heap wc !! me = Some Mc) by (eapply base_lookup_upd_eq; exact Hm1).
  assert (Hg2 : heap w2 !! g = Some G1) by (eapply base_lookup_upd_eq; exact Hgc').
  assert (Hf2 : heap w2 !! f = Some new_future).
  { unfold w2. rewrite base_lookup_upd_ne by (unfold f; lia). exact Hfc. }
  assert (Hm2 : heap w2 !! me = Some Mc).
  { unfold w2. rewrite base_lookup_upd_ne by (intros ->; apply Hne; reflexivity). exact Hmc. }
  assert (Hgf : g <> f) by (unfold f; lia).
  exists w2. split; [|split; [reflexivity|split; [|split; [|split; [|split]]]]].
  - bnorm. rewrite (then_idle n w me fm ok Hme Hidle). fold f M1 w1.
    rewrite (done_one n w1 me M1 (then_done me ok f) Hm1 eq_refl). fold Mc wc. bnorm.
    unfold guarded.
    rewrite (then_done_closure _ wc me f g new_future fg t Hfc eq_refl Hgc' Hgp).
    rewrite Hgd, Hgfl, Hgc. simpl app. fold G1 w2.
    erewrite drain_done_empty; [reflexivity|exact Hm2|reflexivity].
  - rewrite (state_at_Some _ _ _ Hm2). reflexivity.
  - rewrite (state_at_Some _ _ _ Hf2). reflexivity.
  - rewrite (state_at_Some _ _ _ Hg2). reflexivity.
  - eexists. split; [apply (source_done n w2 g f G1 new_future Hgf Hg2 eq_refl Hf2 eq_refl)|].
    split; [|reflexivity].
    unfold state_at. erewrite base_lookup_upd_eq; [reflexivity|].
    rewrite base_lookup_upd_ne by exact Hgf. exact Hf2.
  - intros ex. eexists.
    split; [apply (source_fail n w2 g f G1 new_future ex Hgf Hg2 eq_refl Hf2 eq_refl)|].
    assert (Hl : heap (upd f (failed_future ex) (upd g (failed_future ex) w2)) !! f
                 = Some (failed_future ex)).
    { eapply base_lookup_upd_eq. rewrite base_lookup_upd_ne by exact Hgf. exact Hf2. }
    split; [unfold state_at; rewrite Hl; reflexivity|].
    split; [rewrite Hl; reflexivity|reflexivity].
Qed.

(** X19.  [base_future::then] when the source fails:
    [f = me->then(ok)] on a pending source with nothing queued; if the
    source then fails with [ex], [f] is failed and holds [ex], and [ok]
    is not called. *)
Theorem base_then_source_fails n w (me : addr) (fm : base_future) (ok : seq) ex :
  heap w !! me = Some fm -> idle fm ->
  exists w2,
    (let* f := then_ (runner_at (S (S n))) me ok in
     fail (runner_at (S (S n))) me ex >> ret f) w = Ret w2 (length (heap w)) /\
    state_at w2 me = Some failed /\
    state_at w2 (length (heap w)) = Some failed /\
    (ex_ <$> heap w2 !! length (heap w)) = Some (Some ex) /\
    trace w2 = trace w.
Proof.
  intros Hme Hidle.
  pose proof (lookup_lt_Some _ _ _ Hme) as Hmlt.
  set (f := length (heap w)).
  set (M1 := mk_future pending [then_done me ok f] [then_fail me f] [then_cancel me f] (ex_ fm)).
  set (w1 := upd me M1 (alloc new_future w)).
  assert (Hm1 : heap w1 !! me = Some M1) by (apply then_idle_source; exact Hme).
  assert (Hf1 : heap w1 !! f = Some new_future) by (apply then_idle_derived with (fm := fm); exact Hme).
  assert (Hmf : me <> f) by (unfold f; lia).
  set (wc := upd me (failed_future ex) w1).
  set (w2 := upd f (failed_future ex) wc).
  assert (Hfc : heap wc !! f = Some new_future).
  { unfold wc. rewrite base_lookup_upd_ne by exact Hmf. exact Hf1. }
  assert (Hm2 : heap w2 !! me = Some (failed_future ex)).
  { unfold w2. rewrite base_lookup_upd_ne by (intros E; apply Hmf; symmetry; exact E).
    eapply base_lookup_upd_eq. exact Hm1. }
  assert (Hf2 : heap w2 !! f = Some (failed_future ex)) by (eapply base_lookup_upd_eq; exact Hfc).
  exists w2. split; [|split; [|split; [|split]]].
  - bnorm. rewrite (then_idle n w me fm ok Hme Hidle). fold f M1 w1.
    rewrite (fail_one n w1 me M1 (then_fail me f) ex Hm1 eq_refl). fold wc. bnorm.
    unfold guarded, fail_cb_body. bnorm. rewrite (base_get_Some _ _ _ Hfc).
    change (is_ready new_future) with false. cbv beta iota.
    rewrite (fail_quiet _ f ex new_future wc Hfc eq_refl). fold w2.
    erewrite drain_fail_empty; [reflexivity|exact Hm2|reflexivity].
  - rewrite (state_at_Some _ _ _ Hm2). reflexivity.
  - rewrite (state_at_Some _ _ _ Hf2). reflexivity.
  - rewrite Hf2. reflexivity.
  - reflexivity.
Qed.

(** X20.  [base_future::then] has no [try] around [ok]: when [ok]
    throws, the derived future is not failed, it stays pending.  If
    what [ok] throws is a [std::string], the drain of [me->done()]
    swallows it and [done] returns; anything else leaves [done] and
    reaches the caller that completed the source. *)
Theorem base_then_ok_throws n w (me : addr) (fm : base_future) t e :
  heap w !! me = Some fm -> idle fm ->
  exists w2,
    (let* f := then_ (runner_at (S (S n))) me (seq_user t (inr e)) in
     done (runner_at (S (S n))) me >> ret f) w
    = (if is_thrown_string e then Ret w2 (length (heap w)) else Exc w2 e) /\
    trace w2 = (trace w ++ [ev_call t])%list /\
    state_at w2 me = Some complete /\
    heap w2 !! length (heap w) = Some new_future.
Proof.
  intros Hme Hidle.
  pose proof (lookup_lt_Some _ _ _ Hme) as Hmlt.
  set (ok := seq_user t (inr e)).
  set (f := length (heap w)).
  set (M1 := mk_future pending [then_done me ok f] [then_fail me f] [then_cancel me f] (ex_ fm)).
  set (w1 := upd me M1 (alloc new_future w)).
  set (Mc := mk_future complete [] [] [] (ex_ fm)).
  set (wc := upd me Mc w1).
  set (w2 := logged (ev_call t) wc).
  assert (Hm1 : heap w1 !! me = Some M1) by (apply then_idle_source; exact Hme).
  assert (Hf1 : heap w1 !! f = Some new_future) by (apply then_idle_derived with (fm := fm); exact Hme).
  assert (Hmf : me <> f) by (unfold f; lia).
  assert (Hfc : heap wc !! f = Some new_future).
  { unfold wc. rewrite base_lookup_upd_ne by exact Hmf. exact Hf1. }
  assert (Hm2 : heap w2 !! me = Some Mc) by (eapply base_lookup_upd_eq; exact Hm1).
  exists w2. split; [|split; [reflexivity|split; [|exact Hfc]]].
  - bnorm. rewrite (then_idle n w me fm ok Hme Hidle). fold f M1 w1.
    rewrite (done_one n w1 me M1 (then_done me ok f) Hm1 eq_refl). fold Mc wc. bnorm.
    unfold guarded.
    rewrite (then_done_closure_throws _ wc me f new_future t e Hfc eq_refl). fold w2.
    destruct e; simpl; try reflexivity.
    erewrite drain_done_empty; [reflexivity|exact Hm2|reflexivity].
  - rewrite (state_at_Some _ _ _ Hm2). reflexivity.
Qed.

(** ** [on_ready] *)

Lemma call_user_outcome (u : user_code) w :
  call_user u w
  = match throws u with
    | Some e => Exc (logged (ev_call (tag u)) w) e
    | None => Ret (logged (ev_call (tag u)) w) tt
    end.
Proof. unfold call_user. bnorm. rewrite emit_eq. destruct (throws u); reflexivity. Qed.

Section OnReady.

Variables (n : nat) (w : world) (me : addr) (fm : base_future) (u : user_code).
Hypothesis Hme : heap w !! me = Some fm.
Hypothesis Hidle : idle fm.

Local Abbreviation r := (runner_at (S (S n))).
Local Abbreviation code := (ready_user u).
Local Abbreviation M1 :=
  (mk_future pending [ready_handler me code] [ready_fail_handler me code]
     [ready_handler me code] (ex_ fm)).

Lemma on_ready_idle : on_ready r me code w = Ret (upd me M1 w) me.
Proof.
  destruct Hidle as (Hp & Hd & Hf & Hc).
  rewrite (on_ready_pending _ _ _ _ _ Hme Hp), Hd, Hf, Hc. reflexivity.
Qed.

(** Registered first, then resolved. *)
Lemma on_ready_then_done :
  (on_ready r me code >> done r me) w
  = match throws u with
    | None => Ret (logged (ev_call (tag u)) (upd me (mk_future complete [] [] [] (ex_ fm)) w)) me
    | Some e =>
        if is_thrown_string e
        then Ret (logged (ev_call (tag u)) (upd me (mk_future complete [] [] [] (ex_ fm)) w)) me
        else Exc (logged (ev_call (tag u)) (upd me (mk_future complete [] [] [] (ex_ fm)) w)) e
    end.
Proof.
  bnorm. rewrite on_ready_idle.
  rewrite (done_one n (upd me M1 w) me M1 (ready_handler me code));
    [|eapply base_lookup_upd_eq; exact Hme|reflexivity].
  rewrite base_upd_upd. simpl (ex_ _). bnorm. unfold guarded, thunk_body, call_ready_code.
  rewrite call_user_outcome.
  assert (Hl : heap (logged (ev_call (tag u)) (upd me (mk_future complete [] [] [] (ex_ fm)) w)) !! me
               = Some (mk_future complete [] [] [] (ex_ fm)))
    by (eapply base_lookup_upd_eq; exact Hme).
  destruct (throws u) as [[]|]; simpl; try reflexivity;
    (erewrite drain_done_empty; [reflexivity|exact Hl|reflexivity]).
Qed.

Lemma on_ready_then_fail ex :
  (on_ready r me code >> fail r me ex) w
  = match throws u with
    | None => Ret (logged (ev_call (tag u)) (upd me (failed_future ex) w)) me
    | Some e =>
        if is_thrown_string e
        then Ret (logged (ev_call (tag u)) (upd me (failed_future ex) w)) me
        else Exc (logged (ev_call (tag u)) (upd me (failed_future ex) w)) e
    end.
Proof.
  bnorm. rewrite on_ready_idle.
  rewrite (fail_one n (upd me M1 w) me M1 (ready_fail_handler me code) ex);
    [|eapply base_lookup_upd_eq; exact Hme|reflexivity].
  rewrite base_upd_upd. bnorm. unfold guarded, fail_cb_body, call_ready_code.
  rewrite call_user_outcome.
  assert (Hl : heap (logged (ev_call (tag u)) (upd me (failed_future ex) w)) !! me
               = Some (failed_future ex))
    by (eapply base_lookup_upd_eq; exact Hme).
  destruct (throws u) as [[]|]; simpl; try reflexivity;
    (erewrite drain_fail_empty; [reflexivity|exact Hl|reflexivity]).
Qed.

(** Resolved first, then registered: the callback runs inside
    [on_ready], outside any [try]. *)
Lemma done_then_on_ready :
  (done r me >> on_ready r me code) w
  = match throws u with
    | None => Ret (logged (ev_call (tag u)) (upd me (mk_future complete [] [] [] (ex_ fm)) w)) me
    | Some e => Exc (logged (ev_call (tag u)) (upd me (mk_future complete [] [] [] (ex_ fm)) w)) e
    end.
Proof.
  destruct Hidle as (Hp & Hd & Hf & Hc).
  bnorm. rewrite (done_quiet _ _ _ _ Hme Hd).
  set (Mc := mk_future complete [] [] [] (ex_ fm)).
  assert (Hc1 : heap (upd me Mc w) !! me = Some Mc) by (eapply base_lookup_upd_eq; exact Hme).
  unfold on_ready. bnorm.
  rewrite (on_done_ready _ _ _ _ _ Hc1) by discriminate.
  change (is_done Mc) with true. bnorm.
  rewrite runner_at_S. cbv beta iota delta [run_thunk]. rewrite <- runner_at_S.
  unfold thunk_body, call_ready_code. rewrite call_user_outcome.
  destruct (throws u) as [e|]; [reflexivity|].
  assert (Hc2 : heap (logged (ev_call (tag u)) (upd me Mc w)) !! me = Some Mc) by exact Hc1.
  rewrite (on_cancel_ready _ _ _ _ _ Hc2) by discriminate.
  change (is_cancelled Mc) with false. bnorm.
  rewrite (on_fail_ready _ _ _ _ _ Hc2) by discriminate.
  reflexivity.
Qed.

End OnReady.

(** X21.  An [on_ready] callback that returns is called exactly once:
    on a pending future with nothing queued, [on_ready(code)] followed
    by [done()] or by [fail(ex)] calls [code] once, although [on_ready]
    puts it in all three queues, and leaves the three queues empty.  And
    registering after the resolution gives the same as before it:
    [done()] followed by [on_ready(code)] ends in the same world as
    [on_ready(code)] followed by [done()]. *)
Theorem on_ready_once n w (me : addr) (fm : base_future) (u : user_code) :
  heap w !! me = Some fm -> idle fm -> throws u = None ->
  (on_ready (runner_at (S (S n))) me (ready_user u) >> done (runner_at (S (S n))) me) w
  = Ret (logged (ev_call (tag u)) (upd me (mk_future complete [] [] [] (ex_ fm)) w)) me /\
  (forall ex,
     (on_ready (runner_at (S (S n))) me (ready_user u) >> fail (runner_at (S (S n))) me ex) w
     = Ret (logged (ev_call (tag u)) (upd me (failed_future ex) w)) me) /\
  (done (runner_at (S (S n))) me >> on_ready (runner_at (S (S n))) me (ready_user u)) w
  = (on_ready (runner_at (S (S n))) me (ready_user u) >> done (runner_at (S (S n))) me) w.
Proof.
  intros Hme Hidle Hu. split; [|split].
  - rewrite (on_ready_then_done n w me fm u Hme Hidle), Hu. reflexivity.
  - intros ex. rewrite (on_ready_then_fail n w me fm u Hme Hidle), Hu. reflexivity.
  - rewrite (on_ready_then_done n w me fm u Hme Hidle),
      (done_then_on_ready n w me fm u Hme Hidle), Hu. reflexivity.
Qed.

(** X22.  The [catch(std::string)] of the drains does not cover a
    callback that runs at registration: an [on_ready] callback that
    throws a [std::string] is called and the string swallowed when the
    future is completed after the registration, so [done()] returns;
    registered on the future once it is complete, the same callback is
    called and the string leaves [on_ready]. *)
Theorem thrown_string_guard_is_drain_only n w (me : addr) (fm : base_future)
    (u : user_code) msg :
  heap w !! me = Some fm -> idle fm -> throws u = Some (thrown_string msg) ->
  (on_ready (runner_at (S (S n))) me (ready_user u) >> done (runner_at (S (S n))) me) w
  = Ret (logged (ev_call (tag u)) (upd me (mk_future complete [] [] [] (ex_ fm)) w)) me /\
  (done (runner_at (S (S n))) me >> on_ready (runner_at (S (S n))) me (ready_user u)) w
  = Exc (logged (ev_call (tag u)) (upd me (mk_future complete [] [] [] (ex_ fm)) w))
        (thrown_string msg).
Proof.
  intros Hme Hidle Hu. split.
  - rewrite (on_ready_then_done n w me fm u Hme Hidle), Hu. reflexivity.
  - rewrite (done_then_on_ready n w me fm u Hme Hidle), Hu. reflexivity.
Qed.

(** ** A future that is ready stays ready *)

Section Steady.

Lemma stays_refl w : stays_ready w w.
Proof. intros a f H. eauto. Qed.

Lemma stays_trans w1 w2 w3 : stays_ready w1 w2 -> stays_ready w2 w3 -> stays_ready w1 w3.
Proof.
  intros H12 H23 a f Ha.
  destruct (H12 a f Ha) as (f2 & Ha2 & E2).
  destruct (H23 a f2 Ha2) as (f3 & Ha3 & E3).
  exists f3. split; [assumption|]. auto.
Qed.

Lemma stays_upd w a f f' :
  heap w !! a = Some f -> (state_ f <> pending -> state_ f' <> pending) ->
  stays_ready w (upd a f' w).
Proof.
  intros Ha Hs b g Hb.
  destruct (decide (a = b)) as [->|Hne].
  - exists f'. split; [eapply base_lookup_upd_eq; exact Ha|].
    intros H. apply Hs. congruence.
  - exists g. split; [rewrite base_lookup_upd_ne by exact Hne; exact Hb|auto].
Qed.

Lemma stays_same_heap w w' : heap w' = heap w -> stays_ready w w'.
Proof. intros E a f H. rewrite E. eauto. Qed.

Lemma stays_alloc w f : stays_ready w (alloc f w).
Proof. intros a g H. exists g. split; [apply base_lookup_alloc_old; exact H|auto]. Qed.

Lemma outcome_steady_trans {A} w w' (o : outcome A) :
  stays_ready w w' -> outcome_steady w' o -> outcome_steady w o.
Proof. destruct o; simpl; eauto using stays_trans. Qed.

Lemma steady_ret {A} (a : A) : steady (ret a).
Proof. intros w. apply stays_refl. Qed.

Lemma steady_throw {A} e : steady (@throw A e).
Proof. intros w. apply stays_refl. Qed.

Lemma steady_crash {A} : steady (@crash A).
Proof. intros w. exact I. Qed.

Lemma steady_out_of_fuel {A} : steady (@out_of_fuel A).
Proof. intros w. exact I. Qed.

Lemma steady_bind {A B} (m : M A) (k : A -> M B) :
  steady m -> (forall a, steady (k a)) -> steady (bind m k).
Proof.
  intros Hm Hk w. unfold bind. specialize (Hm w).
  destruct (m w) as [w' a|w' e| |]; simpl in *; auto.
  eapply outcome_steady_trans; [eassumption|apply Hk].
Qed.

Lemma steady_guarded (m : M unit) : steady m -> steady (guarded m).
Proof.
  intros Hm w. unfold guarded. specialize (Hm w).
  destruct (m w) as [w' a|w' []| |]; simpl in *; auto.
Qed.

Lemma steady_for_each {A} (l : list A) (body : A -> M unit) :
  (forall x, steady (body x)) -> steady (for_each l body).
Proof.
  intros Hb. induction l as [|x l IH]; simpl.
  - apply steady_ret.
  - apply steady_bind; auto.
Qed.

Lemma steady_get a : steady (get a).
Proof. intros w. unfold get. destruct (heap w !! a); simpl; auto using stays_refl. Qed.

Lemma steady_get_bind {A} a (k : base_future -> M A) :
  (forall w f, heap w !! a = Some f -> outcome_steady w (k f w)) ->
  steady (bind (get a) k).
Proof.
  intros Hk w. unfold bind, get.
  destruct (heap w !! a) as [f|] eqn:Ha; simpl; auto.
Qed.

Lemma steady_modify a (g : base_future -> base_future) :
  (forall f, state_ f <> pending -> state_ (g f) <> pending) -> steady (modify a g).
Proof.
  intros Hg. unfold modify. apply steady_get_bind. intros w f Ha.
  apply (stays_upd w a f (g f) Ha). apply Hg.
Qed.

Lemma steady_emit e : steady (emit e).
Proof. intros w. apply stays_same_heap. reflexivity. Qed.

Lemma steady_get_trace : steady get_trace.
Proof. intros w. apply stays_refl. Qed.

Lemma steady_create : steady create.
Proof. intros w. apply (stays_alloc w new_future). Qed.

Lemma steady_new_counter : steady new_counter.
Proof. intros w. apply stays_same_heap. reflexivity. Qed.

Lemma steady_store_counter c v : steady (store_counter c v).
Proof. intros w. apply stays_same_heap. reflexivity. Qed.

Lemma steady_pre_decrement c : steady (pre_decrement c).
Proof.
  intros w. unfold pre_decrement. destruct (counters w !! c); simpl; [|exact I].
  apply stays_same_heap. reflexivity.
Qed.

Lemma steady_push_frame fr : steady (push_frame fr).
Proof. intros w. apply stays_same_heap. reflexivity. Qed.

Lemma steady_kill_frame i : steady (kill_frame i).
Proof.
  intros w. unfold kill_frame. destruct (frames w !! i); simpl; [|exact I].
  apply stays_same_heap. reflexivity.
Qed.

Lemma steady_get_frame i : steady (get_frame i).
Proof.
  intros w. unfold get_frame. destruct (frames w !! i) as [fr|]; simpl; [|exact I].
  destruct (alive fr); simpl; [apply stays_refl|exact I].
Qed.

Lemma steady_call_user u : steady (call_user u).
Proof.
  unfold call_user. apply steady_bind; [apply steady_emit|]. intros _.
  destruct (throws u); [apply steady_throw|apply steady_ret].
Qed.

Lemma steady_mark_ready me s : s <> pending -> steady (mark_ready me s).
Proof. intros Hs. apply steady_modify. intros f _. exact Hs. Qed.

Section Run.

Variable r : runner.
Hypothesis r_steady : steady_runner r.

Lemma steady_drain_done_rounds k me : forall copy, steady (drain_done_rounds r k me copy).
Proof.
  induction k as [|k IH]; intros copy; simpl.
  - apply steady_out_of_fuel.
  - apply steady_bind; [apply steady_modify; auto|]. intros _.
    apply steady_bind.
    { apply steady_for_each. intros it. apply steady_guarded. apply r_steady. }
    intros _. apply steady_bind; [apply steady_get|]. intros f.
    destruct (on_done_ f); [apply steady_ret|apply IH].
Qed.

Lemma steady_drain_done k me : steady (drain_done r k me).
Proof.
  unfold drain_done. apply steady_bind; [apply steady_get|]. intros f.
  destruct (on_done_ f); [apply steady_ret|apply steady_drain_done_rounds].
Qed.

Lemma steady_drain_cancel_rounds k me : forall copy, steady (drain_cancel_rounds r k me copy).
Proof.
  induction k as [|k IH]; intros copy; simpl.
  - apply steady_out_of_fuel.
  - apply steady_bind; [apply steady_modify; auto|]. intros _.
    apply steady_bind.
    { apply steady_for_each. intros it. apply steady_guarded. apply r_steady. }
    intros _. apply steady_bind; [apply steady_get|]. intros f.
    destruct (on_cancel_ f); [apply steady_ret|apply IH].
Qed.

Lemma steady_drain_cancel k me : steady (drain_cancel r k me).
Proof.
  unfold drain_cancel. apply steady_bind; [apply steady_get|]. intros f.
  destruct (on_cancel_ f); [apply steady_ret|apply steady_drain_cancel_rounds].
Qed.

Lemma steady_drain_fail_rounds k me : forall copy, steady (drain_fail_rounds r k me copy).
Proof.
  induction k as [|k IH]; intros copy; simpl.
  - apply steady_out_of_fuel.
  - apply steady_bind; [apply steady_modify; auto|]. intros _.
    apply steady_bind.
    { apply steady_for_each. intros it.
      apply steady_bind; [apply steady_get|]. intros f'.
      destruct (ex_ f'); [apply steady_guarded; apply r_steady|apply steady_crash]. }
    intros _. apply steady_bind; [apply steady_get|]. intros f.
    destruct (on_fail_ f); [apply steady_ret|apply IH].
Qed.

Lemma steady_drain_fail k me : steady (drain_fail r k me).
Proof.
  unfold drain_fail. apply steady_bind; [apply steady_get|]. intros f.
  destruct (on_fail_ f); [apply steady_ret|apply steady_drain_fail_rounds].
Qed.

Lemma steady_done me : steady (done r me).
Proof.
  unfold done.
  apply steady_bind; [apply steady_mark_ready; discriminate|]. intros _.
  apply steady_bind; [apply steady_modify; auto|]. intros _.
  apply steady_bind; [apply steady_modify; auto|]. intros _.
  apply steady_bind; [apply steady_drain_done|]. intros _. apply steady_ret.
Qed.

Lemma steady_fail_ me : steady (fail_ r me).
Proof.
  unfold fail_.
  apply steady_bind; [apply steady_mark_ready; discriminate|]. intros _.
  apply steady_bind; [apply steady_modify; auto|]. intros _.
  apply steady_bind; [apply steady_modify; auto|]. intros _.
  apply steady_bind; [apply steady_drain_fail|]. intros _. apply steady_ret.
Qed.

Lemma steady_fail me ex : steady (fail r me ex).
Proof.
  unfold fail. apply steady_bind; [apply steady_modify; auto|]. intros _. apply steady_fail_.
Qed.

Lemma steady_fail_ptr me e c : steady (fail_ptr r me e c).
Proof.
  unfold fail_ptr. apply steady_bind; [apply steady_modify; auto|]. intros _. apply steady_fail_.
Qed.

Lemma steady_fail_string me e c : steady (fail_string r me e c).
Proof.
  unfold fail_string. apply steady_bind; [apply steady_modify; auto|]. intros _.
  apply steady_fail_.
Qed.

Lemma steady_cancel me : steady (cancel r me).
Proof.
  unfold cancel.
  apply steady_bind; [apply steady_mark_ready; discriminate|]. intros _.
  apply steady_bind; [apply steady_modify; auto|]. intros _.
  apply steady_bind; [apply steady_modify; auto|]. intros _.
  apply steady_bind; [apply steady_drain_cancel|]. intros _. apply steady_crash.
Qed.

Lemma steady_on_done me code : steady (on_done r me code).
Proof.
  unfold on_done. apply steady_get_bind. intros w f Ha.
  destruct (negb (is_ready f)).
  - unfold bind, put, ret. simpl. apply (stays_upd w me f _ Ha). auto.
  - apply (steady_bind (if is_done f then run_thunk r code else ret tt) (fun _ => ret me)).
    + destruct (is_done f); [apply r_steady|apply steady_ret].
    + intros _. apply steady_ret.
Qed.

Lemma steady_on_cancel me code : steady (on_cancel r me code).
Proof.
  unfold on_cancel. apply steady_get_bind. intros w f Ha.
  destruct (negb (is_ready f)).
  - unfold bind, put, ret. simpl. apply (stays_upd w me f _ Ha). auto.
  - apply (steady_bind (if is_cancelled f then run_thunk r code else ret tt) (fun _ => ret me)).
    + destruct (is_cancelled f); [apply r_steady|apply steady_ret].
    + intros _. apply steady_ret.
Qed.

Lemma steady_on_fail me code : steady (on_fail r me code).
Proof.
  unfold on_fail. apply steady_get_bind. intros w f Ha.
  destruct (negb (is_ready f)).
  - unfold bind, put, ret. simpl. apply (stays_upd w me f _ Ha). auto.
  - apply (steady_bind
             (if is_failed f then
                match ex_ f with Some ex => run_fail_cb r code ex | None => crash end
              else ret tt) (fun _ => ret me)).
    + destruct (is_failed f); [|apply steady_ret].
      destruct (ex_ f); [apply r_steady|apply steady_crash].
    + intros _. apply steady_ret.
Qed.

Lemma steady_on_ready me code : steady (on_ready r me code).
Proof.
  unfold on_ready.
  apply steady_bind; [apply steady_on_done|]. intros _.
  apply steady_bind; [apply steady_on_cancel|]. intros _.
  apply steady_bind; [apply steady_on_fail|]. intros _. apply steady_ret.
Qed.

Lemma steady_propagate me f : steady (propagate r me f).
Proof.
  unfold propagate.
  apply steady_bind; [apply steady_on_done|]. intros _.
  apply steady_bind; [apply steady_on_cancel|]. intros _.
  apply steady_bind; [apply steady_on_fail|]. intros _. apply steady_ret.
Qed.

Lemma steady_then_ me ok : steady (then_ r me ok).
Proof.
  unfold then_. apply steady_bind; [apply steady_create|]. intros f.
  apply steady_bind; [apply steady_on_done|]. intros _.
  apply steady_bind; [apply steady_on_fail|]. intros _.
  apply steady_bind; [apply steady_on_cancel|]. intros _. apply steady_ret.
Qed.

Lemma steady_needs_all p : steady (needs_all r p).
Proof.
  unfold needs_all. apply steady_bind; [apply steady_create|]. intros f.
  apply steady_bind; [apply steady_new_counter|]. intros c.
  apply steady_bind; [apply steady_store_counter|]. intros _.
  apply steady_bind; [|intros; apply steady_ret].
  apply steady_for_each. intros it.
  apply steady_bind; [apply steady_on_done|]. intros _.
  apply steady_bind; [apply steady_on_fail|]. intros _.
  apply steady_bind; [apply steady_on_cancel|]. intros _. apply steady_ret.
Qed.

Lemma steady_needs_all_h f c : steady (needs_all_h r f c).
Proof.
  unfold needs_all_h. apply steady_bind; [apply steady_pre_decrement|]. intros v.
  apply steady_bind; [apply steady_get|]. intros d.
  destruct ((0 =? v)%Z && negb (is_ready d)); [|apply steady_ret].
  apply steady_bind; [apply steady_done|intros; apply steady_ret].
Qed.

Lemma steady_cancel_pending p : steady (cancel_pending r p).
Proof.
  unfold cancel_pending. apply steady_for_each. intros it.
  apply steady_bind; [apply steady_get|]. intros i.
  destruct (negb (is_ready i)); [|apply steady_ret].
  apply steady_bind; [apply steady_cancel|intros; apply steady_ret].
Qed.

Lemma steady_call_check fr in_ : steady (call_check fr in_).
Proof.
  unfold call_check. apply steady_bind; [apply steady_get_trace|]. intros tr.
  cbv zeta. apply steady_bind; [apply steady_emit|]. intros _. apply steady_ret.
Qed.

Lemma steady_call_each fr in_ : steady (call_each r fr in_).
Proof.
  unfold call_each. apply steady_bind; [apply steady_get_trace|]. intros tr.
  apply steady_bind; [apply steady_create|]. intros out.
  apply steady_bind.
  { destruct (each fr (length (filter is_each tr))).
    - apply steady_bind; [apply steady_done|intros; apply steady_ret].
    - apply steady_ret.
    - apply steady_bind; [apply steady_fail_string|intros; apply steady_ret].
    - apply steady_bind; [apply steady_cancel|intros; apply steady_ret]. }
  intros _. apply steady_bind; [apply steady_emit|]. intros _. apply steady_ret.
Qed.

Lemma steady_recurse frame_id in_ : steady (recurse r frame_id in_).
Proof.
  unfold recurse. apply steady_bind; [apply steady_get_frame|]. intros fr.
  cbv zeta. apply steady_bind; [apply steady_get|]. intros lf.
  destruct (is_ready lf); [apply steady_ret|].
  apply steady_bind; [apply steady_call_check|]. intros status.
  destruct status; [apply steady_done|].
  apply steady_bind; [apply steady_call_each|]. intros in'.
  apply steady_bind; [apply steady_then_|]. intros d.
  apply steady_bind; [apply steady_on_fail|]. intros d1.
  apply steady_on_cancel.
Qed.

Lemma steady_repeat u check each : steady (repeat r u check each).
Proof.
  unfold repeat. apply steady_bind; [apply steady_create|]. intros f.
  apply steady_bind; [apply steady_on_ready|]. intros _.
  apply steady_bind; [apply steady_create|]. intros next.
  apply steady_bind; [apply steady_done|]. intros _.
  destruct u; [apply steady_crash|].
  apply steady_bind; [apply steady_push_frame|]. intros frame_id.
  apply steady_bind.
  { intros w. pose proof (steady_recurse frame_id next w) as Hr.
    destruct (recurse r frame_id next w) as [w' a|w' e| |]; simpl in *; auto.
    - eapply outcome_steady_trans; [exact Hr|apply steady_kill_frame].
    - eapply outcome_steady_trans; [exact Hr|].
      apply (steady_bind (kill_frame frame_id) (fun _ => throw e));
        [apply steady_kill_frame|intros; apply steady_throw]. }
  intros _. apply steady_bind; [apply steady_on_ready|]. intros _. apply steady_ret.
Qed.

Lemma steady_complete_base_future : steady (complete_base_future r).
Proof.
  unfold complete_base_future. apply steady_bind; [apply steady_create|]. intros f.
  apply steady_bind; [apply steady_done|intros; apply steady_ret].
Qed.

Lemma steady_call_ready_code code self : steady (call_ready_code r code self).
Proof.
  destruct code; simpl.
  - apply steady_ret.
  - apply steady_bind; [apply steady_create|]. intros g.
    apply steady_bind; [apply steady_done|intros; apply steady_ret].
  - apply steady_call_user.
Qed.

Lemma steady_call_seq s : steady (call_seq r s).
Proof.
  destruct s as [f in_ fr|t [a|e]]; simpl.
  - apply steady_recurse.
  - apply steady_bind; [apply steady_emit|intros; apply steady_ret].
  - apply steady_bind; [apply steady_emit|intros; apply steady_throw].
Qed.

Lemma steady_thunk_body c : steady (thunk_body r c).
Proof.
  destruct c; simpl.
  - apply steady_call_ready_code.
  - apply steady_bind; [apply steady_done|intros; apply steady_ret].
  - apply steady_bind; [apply steady_cancel|intros; apply steady_ret].
  - apply steady_bind; [apply steady_get|]. intros d.
    destruct (is_ready d); [apply steady_ret|].
    apply steady_bind; [apply steady_call_seq|]. intros s.
    apply steady_bind; [apply steady_propagate|intros; apply steady_ret].
  - apply steady_bind; [apply steady_get|]. intros d.
    destruct (is_ready d); [apply steady_ret|].
    apply steady_bind; [apply steady_cancel|intros; apply steady_ret].
  - apply steady_bind; [apply steady_get|]. intros d.
    destruct (is_ready d); [apply steady_ret|apply steady_needs_all_h].
  - apply steady_bind; [apply steady_get|]. intros d.
    destruct (is_ready d); [apply steady_ret|].
    apply steady_bind; [apply steady_cancel_pending|]. intros _.
    apply steady_bind; [apply steady_cancel|intros; apply steady_ret].
  - apply steady_bind; [apply steady_fail_string|intros; apply steady_ret].
  - apply steady_call_user.
Qed.

Lemma steady_fail_cb_body c ex : steady (fail_cb_body r c ex).
Proof.
  destruct c; simpl.
  - apply steady_call_ready_code.
  - apply steady_bind; [apply steady_fail|intros; apply steady_ret].
  - apply steady_bind; [apply steady_get|]. intros d.
    destruct (is_ready d); [apply steady_ret|].
    apply steady_bind; [apply steady_fail|intros; apply steady_ret].
  - apply steady_bind; [apply steady_get|]. intros d.
    destruct (is_ready d); [apply steady_ret|].
    apply steady_bind; [apply steady_cancel_pending|]. intros _.
    apply steady_bind; [apply steady_fail|intros; apply steady_ret].
  - apply steady_call_user.
Qed.

End Run.

Lemma steady_runner_at n : steady_runner (runner_at n).
Proof.
  induction n as [|n IH].
  - split; intros; apply steady_out_of_fuel.
  - rewrite runner_at_S. split; simpl; intros.
    + apply steady_thunk_body. exact IH.
    + apply steady_fail_cb_body. exact IH.
Qed.

End Steady.

Lemma is_ready_iff (f : base_future) : is_ready f = true <-> state_ f <> pending.
Proof. unfold is_ready. destruct (state_ f); simpl; split; congruence. Qed.

Lemma still_ready_of_steady {A} (m : M A) w a f :
  steady m -> heap w !! a = Some f -> state_ f <> pending -> still_ready a (m w).
Proof.
  intros Hm Ha Hs. specialize (Hm w).
  destruct (m w) as [w' x|w' e| |]; simpl in *; auto;
    destruct (Hm a f Ha) as (f' & Ha' & Hs'); exists f';
    (split; [exact Ha'|apply is_ready_iff; auto]).
Qed.

(** X25.  A [base_future] that is ready is never pending again, and no
    future is lost: whichever member function or composition runs,
    whatever closures are queued on whichever futures and however the
    call ends (by returning or by throwing), a future that had been
    resolved before the call is still there and [is_ready()] afterwards.
    Its state may have been overwritten by another resolution, since
    [base_future] does not refuse one, but never back to pending. *)
Theorem ready_stays_ready n (w : world) (a : addr) (f : base_future) :
  heap w !! a = Some f -> state_ f <> pending ->
  (forall me, still_ready a (done (runner_at n) me w)) /\
  (forall me ex, still_ready a (fail (runner_at n) me ex w)) /\
  (forall me e c, still_ready a (fail_string (runner_at n) me e c w)) /\
  (forall me e c, still_ready a (fail_ptr (runner_at n) me e c w)) /\
  (forall me, still_ready a (cancel (runner_at n) me w)) /\
  (forall me code, still_ready a (on_done (runner_at n) me code w)) /\
  (forall me code, still_ready a (on_cancel (runner_at n) me code w)) /\
  (forall me code, still_ready a (on_fail (runner_at n) me code w)) /\
  (forall me code, still_ready a (on_ready (runner_at n) me code w)) /\
  (forall me t, still_ready a (propagate (runner_at n) me t w)) /\
  (forall me ok, still_ready a (then_ (runner_at n) me ok w)) /\
  (forall p, still_ready a (needs_all (runner_at n) p w)) /\
  (forall u check each, still_ready a (repeat (runner_at n) u check each w)) /\
  still_ready a (complete_base_future (runner_at n) w).
Proof.
  intros Ha Hs. pose proof (steady_runner_at n) as Hr.
  repeat split; intros; eapply still_ready_of_steady; try eassumption.
  - apply steady_done; exact Hr.
  - apply steady_fail; exact Hr.
  - apply steady_fail_string; exact Hr.
  - apply steady_fail_ptr; exact Hr.
  - apply steady_cancel; exact Hr.
  - apply steady_on_done; exact Hr.
  - apply steady_on_cancel; exact Hr.
  - apply steady_on_fail; exact Hr.
  - apply steady_on_ready; exact Hr.
  - apply steady_propagate; exact Hr.
  - apply steady_then_; exact Hr.
  - apply steady_needs_all; exact Hr.
  - apply steady_repeat; exact Hr.
  - apply steady_complete_base_future; exact Hr.
Qed.

(** ** [needs_all] when the inputs complete *)

Lemma done_each_armed (p : list addr) (f c n : nat) :
  forall (l : list addr) w,
    armed w p f c -> NoDup l -> (forall x, x ∈ l -> x ∈ p) ->
    (forall x, x ∈ l -> is_pending_at w x = true) ->
    exists w', done_each (runner_at (S n)) l w = Ret w' tt /\
      armed w' p f c /\
      (forall x, x ∈ l -> state_at w' x = Some complete) /\
      (forall a, a ∉ l -> heap w' !! a = heap w !! a) /\
      trace w' = trace w.
Proof.
  induction l as [|x l IH]; intros w Ha Hnd Hsub Hp.
  - exists w. split; [reflexivity|]. split; [exact Ha|].
    split; [intros x Hx; inversion Hx|]. split; reflexivity.
  - apply NoDup_cons in Hnd as [Hx Hnd].
    destruct (done_keeps_armed p f c n w x Ha (Hsub x ltac:(left)) (Hp x ltac:(left)))
      as (w1 & Hrun & Ha1 & Hs1 & Hoth & Htr).
    destruct (IH w1 Ha1 Hnd) as (w2 & Hrun2 & Ha2 & Hs2 & Hoth2 & Htr2).
    { intros y Hy. apply Hsub. right. exact Hy. }
    { intros y Hy. unfold is_pending_at. rewrite Hoth by (intros ->; contradiction).
      apply (Hp y). right. exact Hy. }
    exists w2. split.
    { unfold done_each. simpl for_each. unfold done_each in Hrun2.
      bnorm. rewrite Hrun. exact Hrun2. }
    split; [exact Ha2|]. split; [|split].
    + intros y Hy. apply elem_of_cons in Hy as [->|Hy]; [|apply Hs2; exact Hy].
      unfold state_at. rewrite (Hoth2 x Hx). exact Hs1.
    + intros a Hna. apply not_elem_of_cons in Hna as [Hne Hna].
      rewrite (Hoth2 a Hna). apply Hoth. exact Hne.
    + congruence.
Qed.

(** X26.  The aggregate of [needs_all] never completes.  [count] is set
    from [pending.size()] after [pending] has been moved into [p], that
    is from an empty vector, so [--*count] goes down from 0 and, the
    [int] wrapping around, is 0 again only after 2^32 decrements: after
    [needs_all(p)] over fewer than 2^32 distinct pending inputs without
    callbacks, completing any of them in any order, all of them
    included, leaves the aggregate pending, with no callbacks of its
    own. *)
Theorem needs_all_never_completes n w (p l : list addr) :
  NoDup p ->
  (forall x, x ∈ p -> exists i, heap w !! x = Some i /\ idle i) ->
  (Z.of_nat (length p) < 4294967296)%Z ->
  NoDup l -> (forall x, x ∈ l -> x ∈ p) ->
  exists w1 w2 d,
    needs_all (runner_at (S n)) p w = Ret w1 (length (heap w)) /\
    done_each (runner_at (S n)) l w1 = Ret w2 tt /\
    (forall x, x ∈ l -> state_at w2 x = Some complete) /\
    heap w2 !! length (heap w) = Some d /\ idle d /\
    trace w2 = trace w.
Proof.
  intros Hp Hidle Hlen Hl Hsub.
  destruct (needs_all_armed (runner_at (S n)) w p Hp Hidle Hlen)
    as (w1 & Hrun & Ha & Hpend & _ & Htr).
  destruct (done_each_armed p (length (heap w)) (length (counters w)) n l w1 Ha Hl Hsub)
    as (w2 & Hrun2 & Ha2 & Hs2 & _ & Htr2).
  { intros x Hx. apply Hpend. apply Hsub. exact Hx. }
  destruct Ha2 as ((d & Hd & Hdi) & _).
  exists w1, w2, d. repeat split; try assumption; try apply Hdi. congruence.
Qed.

(** ** The laws at sample heaps *)

Lemma propagate_forwards_witness :
  exists w1,
    propagate (runner_at (S (S 0))) 0 1 two_idle = Ret w1 1 /\
    state_at w1 0 = Some pending /\ state_at w1 1 = Some pending /\
    (exists w2, done (runner_at (S (S 0))) 0 w1 = Ret w2 0 /\
       state_at w2 0 = Some complete /\ state_at w2 1 = Some complete) /\
    (forall ex, exists w2, fail (runner_at (S (S 0))) 0 ex w1 = Ret w2 0 /\
       state_at w2 0 = Some failed /\ state_at w2 1 = Some failed /\
       (ex_ <$> heap w2 !! 1) = Some (Some ex)).
Proof.
  apply (propagate_forwards 0 two_idle 0 1 new_future new_future);
    [reflexivity|repeat split|reflexivity|repeat split|discriminate].
Defined.

Lemma base_then_follows_witness :
  exists w2,
    (let* f := then_ (runner_at (S (S 0))) 0 (seq_user 7 (inl 1)) in
     done (runner_at (S (S 0))) 0 >> ret f) two_idle = Ret w2 (length (heap two_idle)) /\
    trace w2 = (trace two_idle ++ [ev_call 7])%list /\
    state_at w2 0 = Some complete /\
    state_at w2 (length (heap two_idle)) = Some pending /\
    state_at w2 1 = Some pending /\
    (exists w3, done (runner_at (S (S 0))) 1 w2 = Ret w3 1 /\
       state_at w3 (length (heap two_idle)) = Some complete /\ trace w3 = trace w2) /\
    (forall ex, exists w3, fail (runner_at (S (S 0))) 1 ex w2 = Ret w3 1 /\
       state_at w3 (length (heap two_idle)) = Some failed /\
       (ex_ <$> heap w3 !! length (heap two_idle)) = Some (Some ex) /\ trace w3 = trace w2).
Proof.
  apply (base_then_follows 0 two_idle 0 1 new_future new_future 7);
    [reflexivity|repeat split|reflexivity|repeat split|discriminate].
Defined.

Lemma base_then_source_fails_witness :
  exists w2,
    (let* f := then_ (runner_at (S (S 0))) 0 (seq_user 7 (inl 1)) in
     fail (runner_at (S (S 0))) 0 (new_exception (runtime_error "boom") "c") >> ret f) two_idle
    = Ret w2 (length (heap two_idle)) /\
    state_at w2 0 = Some failed /\
    state_at w2 (length (heap two_idle)) = Some failed /\
    (ex_ <$> heap w2 !! length (heap two_idle))
    = Some (Some (new_exception (runtime_error "boom") "c")) /\
    trace w2 = trace two_idle.
Proof.
  apply (base_then_source_fails 0 two_idle 0 new_future (seq_user 7 (inl 1))
           (new_exception (runtime_error "boom") "c"));
    [reflexivity|repeat split].
Defined.

Lemma base_then_ok_throws_witness :
  exists w2,
    (let* f := then_ (runner_at (S (S 0))) 0 (seq_user 7 (inr (runtime_error "boom"))) in
     done (runner_at (S (S 0))) 0 >> ret f) two_idle
    = (if is_thrown_string (runtime_error "boom") then Ret w2 (length (heap two_idle)) else Exc w2 (runtime_error "boom")) /\
    trace w2 = (trace two_idle ++ [ev_call 7])%list /\
    state_at w2 0 = Some complete /\
    heap w2 !! length (heap two_idle) = Some new_future.
Proof.
  apply (base_then_ok_throws 0 two_idle 0 new_future 7 (runtime_error "boom"));
    [reflexivity|repeat split].
Defined.

Lemma on_ready_once_witness :
  (on_ready (runner_at (S (S 0))) 0 (ready_user (mk_user 1 None)) >> done (runner_at (S (S 0))) 0) two_idle
  = Ret (logged (ev_call (tag (mk_user 1 None))) (upd 0 (mk_future complete [] [] [] (ex_ new_future)) two_idle)) 0 /\
  (forall ex,
     (on_ready (runner_at (S (S 0))) 0 (ready_user (mk_user 1 None)) >> fail (runner_at (S (S 0))) 0 ex) two_idle
     = Ret (logged (ev_call (tag (mk_user 1 None))) (upd 0 (failed_future ex) two_idle)) 0) /\
  (done (runner_at (S (S 0))) 0 >> on_ready (runner_at (S (S 0))) 0 (ready_user (mk_user 1 None))) two_idle
  = (on_ready (runner_at (S (S 0))) 0 (ready_user (mk_user 1 None)) >> done (runner_at (S (S 0))) 0) two_idle.
Proof.
  apply (on_ready_once 0 two_idle 0 new_future (mk_user 1 None));
    [reflexivity|repeat split|reflexivity].
Defined.

Lemma thrown_string_guard_is_drain_only_witness :
  (on_ready (runner_at (S (S 0))) 0 (ready_user (mk_user 1 (Some (thrown_string "oops")))) >> done (runner_at (S (S 0))) 0) two_idle
  = Ret (logged (ev_call (tag (mk_user 1 (Some (thrown_string "oops"))))) (upd 0 (mk_future complete [] [] [] (ex_ new_future)) two_idle)) 0 /\
  (done (runner_at (S (S 0))) 0 >> on_ready (runner_at (S (S 0))) 0 (ready_user (mk_user 1 (Some (thrown_string "oops"))))) two_idle
  = Exc (logged (ev_call (tag (mk_user 1 (Some (thrown_string "oops"))))) (upd 0 (mk_future complete [] [] [] (ex_ new_future)) two_idle))
        (thrown_string "oops").
Proof.
  apply (thrown_string_guard_is_drain_only 0 two_idle 0 new_future
           (mk_user 1 (Some (thrown_string "oops"))) "oops");
    [reflexivity|repeat split|reflexivity].
Defined.

Lemma ready_stays_ready_witness :
  (forall me, still_ready 0 (done (runner_at 1) me one_complete)) /\
  (forall me ex, still_ready 0 (fail (runner_at 1) me ex one_complete)) /\
  (forall me e c, still_ready 0 (fail_string (runner_at 1) me e c one_complete)) /\
  (forall me e c, still_ready 0 (fail_ptr (runner_at 1) me e c one_complete)) /\
  (forall me, still_ready 0 (cancel (runner_at 1) me one_complete)) /\
  (forall me code, still_ready 0 (on_done (runner_at 1) me code one_complete)) /\
  (forall me code, still_ready 0 (on_cancel (runner_at 1) me code one_complete)) /\
  (forall me code, still_ready 0 (on_fail (runner_at 1) me code one_complete)) /\
  (forall me code, still_ready 0 (on_ready (runner_at 1) me code one_complete)) /\
  (forall me t, still_ready 0 (propagate (runner_at 1) me t one_complete)) /\
  (forall me ok, still_ready 0 (then_ (runner_at 1) me ok one_complete)) /\
  (forall p, still_ready 0 (needs_all (runner_at 1) p one_complete)) /\
  (forall u check each, still_ready 0 (repeat (runner_at 1) u check each one_complete)) /\
  still_ready 0 (complete_base_future (runner_at 1) one_complete).
Proof.
  apply (ready_stays_ready 1 one_complete 0 complete_future); [reflexivity|discriminate].
Defined.

Lemma needs_all_never_completes_witness :
  exists w1 w2 d,
    needs_all (runner_at (S 0)) [0; 1] two_idle = Ret w1 (length (heap two_idle)) /\
    done_each (runner_at (S 0)) [1; 0] w1 = Ret w2 tt /\
    (forall x, x ∈ [1; 0] -> state_at w2 x = Some complete) /\
    heap w2 !! length (heap two_idle) = Some d /\ idle d /\
    trace w2 = trace two_idle.
Proof.
  apply (needs_all_never_completes 0 two_idle [0; 1] [1; 0]).
  - constructor; [|apply NoDup_singleton].
    intros H. apply list_elem_of_singleton in H. discriminate.
  - intros x Hx.
    apply elem_of_cons in Hx as [->|Hx]; [|apply list_elem_of_singleton in Hx as ->];
      exists new_future; (split; [reflexivity|repeat split]).
  - reflexivity.
  - constructor; [|apply NoDup_singleton].
    intros H. apply list_elem_of_singleton in H. discriminate.
  - intros x Hx.
    apply elem_of_cons in Hx as [->|Hx]; [|apply list_elem_of_singleton in Hx as ->];
      [right; left|left].
Defined.

End BaseLaws.

(** * The two implementations side by side *)

(** C4 (as amended).  A callback that throws during a drain never costs
    the future its resolution, but the drain does not always go on.  On
    [future<T>] what [done], [fail] or [cancel] stored is there whatever
    the queued closures did and however the call ended; the exception of
    a callback leaves the call, after the callbacks queued before it
    have run and without those queued after it being called.  On
    [base_future], with callbacks that return or throw a [std::string]
    the drains of [done] and [fail] go on to the last callback, and any
    other exception leaves the call, the callbacks after it not being
    called.  The drain of [cancel] is the same, but a drain that gets to
    its end is followed by the end of a function that returns nothing:
    the call is undefined. *)
Theorem callback_exception_policy :
  (forall (T : Type) n (w : @Typed.world T) (a : addr) f,
     Typed.heap w !! a = Some f -> Typed.state_ f = Typed.pending ->
     (forall v, Typed.kept a (Typed.resolved Typed.done_state (Typed.set_value v f))
                  (Typed.done (Typed.run_task n) a v w)) /\
     (forall e, Typed.kept a (Typed.resolved Typed.failed (Typed.store_failure e f))
                  (Typed.fail (Typed.run_task n) a e w)) /\
     Typed.kept a (Typed.resolved Typed.cancelled f) (Typed.cancel (Typed.run_task n) a w)) /\
  (forall (T : Type) n (w : @Typed.world T) (a : addr) f pre t post e,
     Typed.heap w !! a = Some f -> Typed.state_ f = Typed.pending ->
     Typed.tasks_ f = (pre ++ t :: post)%list ->
     Forall (fun t => Typed.quiet t = true) pre ->
     (forall v,
        Typed.raised (Typed.resolved Typed.done_state (Typed.set_value v f)) t = Some e ->
        Typed.done (Typed.run_task (S n)) a v w
        = Typed.Exc
            (Typed.mk_world
               (<[a := Typed.resolved Typed.done_state (Typed.set_value v f)]> (Typed.heap w))
               (Typed.log w ++
                flat_map (Typed.delivered a (Typed.resolved Typed.done_state (Typed.set_value v f)))
                  (pre ++ [t])))
            e) /\
     (forall x,
        Typed.raised (Typed.resolved Typed.failed (Typed.store_failure x f)) t = Some e ->
        Typed.fail (Typed.run_task (S n)) a x w
        = Typed.Exc
            (Typed.mk_world
               (<[a := Typed.resolved Typed.failed (Typed.store_failure x f)]> (Typed.heap w))
               (Typed.log w ++
                flat_map (Typed.delivered a (Typed.resolved Typed.failed (Typed.store_failure x f)))
                  (pre ++ [t])))
            e) /\
     (Typed.raised (Typed.resolved Typed.cancelled f) t = Some e ->
      Typed.cancel (Typed.run_task (S n)) a w
      = Typed.Exc
          (Typed.mk_world (<[a := Typed.resolved Typed.cancelled f]> (Typed.heap w))
             (Typed.log w ++
              flat_map (Typed.delivered a (Typed.resolved Typed.cancelled f)) (pre ++ [t])))
          e)) /\
  (forall n w (a : addr) f us,
     Base.heap w !! a = Some f -> Forall Base.caught us ->
     (Base.on_done_ f = map Base.thunk_user us ->
      Base.done (Base.runner_at (S n)) a w
      = Base.Ret
          (Base.mk_world (<[a := Base.mk_future Base.complete [] [] [] (Base.ex_ f)]> (Base.heap w))
             (Base.counters w) (Base.frames w) (Base.trace w ++ Base.trace_entries us))
          a) /\
     (forall ex, Base.on_fail_ f = map Base.fail_user us ->
      Base.fail (Base.runner_at (S n)) a ex w
      = Base.Ret
          (Base.mk_world (<[a := Base.failed_future ex]> (Base.heap w))
             (Base.counters w) (Base.frames w) (Base.trace w ++ Base.trace_entries us))
          a) /\
     (Base.on_cancel_ f = map Base.thunk_user us ->
      Base.cancel (Base.runner_at (S n)) a w = Base.Crash)) /\
  (forall n w (a : addr) f pre post u e,
     Base.heap w !! a = Some f ->
     Forall Base.caught pre -> Base.throws u = Some e -> Base.is_thrown_string e = false ->
     (Base.on_done_ f = map Base.thunk_user (pre ++ u :: post) ->
      Base.done (Base.runner_at (S n)) a w
      = Base.Exc
          (Base.mk_world (<[a := Base.mk_future Base.complete [] [] [] (Base.ex_ f)]> (Base.heap w))
             (Base.counters w) (Base.frames w)
             (Base.trace w ++ Base.trace_entries (pre ++ [u])))
          e) /\
     (forall ex, Base.on_fail_ f = map Base.fail_user (pre ++ u :: post) ->
      Base.fail (Base.runner_at (S n)) a ex w
      = Base.Exc
          (Base.mk_world (<[a := Base.failed_future ex]> (Base.heap w))
             (Base.counters w) (Base.frames w)
             (Base.trace w ++ Base.trace_entries (pre ++ [u])))
          e) /\
     (Base.on_cancel_ f = map Base.thunk_user (pre ++ u :: post) ->
      Base.cancel (Base.runner_at (S n)) a w
      = Base.Exc
          (Base.mk_world (<[a := Base.mk_future Base.cancelled [] [] [] (Base.ex_ f)]> (Base.heap w))
             (Base.counters w) (Base.frames w)
             (Base.trace w ++ Base.trace_entries (pre ++ [u])))
          e)).
Proof.
  split; [|split; [|split]].
  - intros T n w a f Ha Hs. split; [|split].
    + intros v.
      apply (TypedFacts.done_outcome (Typed.run_task n) (TypedFacts.safe_run_task n) a v f w Ha Hs).
    + intros e.
      apply (TypedFacts.fail_outcome (Typed.run_task n) (TypedFacts.safe_run_task n) a e f w Ha Hs).
    + apply (TypedFacts.cancel_outcome (Typed.run_task n) (TypedFacts.safe_run_task n) a f w Ha Hs).
  - intros T n w a f pre t post e Ha Hs Ht Hq. split; [|split].
    + intros v Hr. rewrite (TypedFacts.done_pending _ _ _ _ _ Ha Hs), Ht.
      unfold Typed.bind.
      rewrite (TypedLaws.drain_raised n a _ pre post t e _
                 (TypedFacts.lookup_upd_eq _ _ _ _ Ha) Hq Hr).
      reflexivity.
    + intros x Hr. rewrite (TypedFacts.fail_pending _ _ _ _ _ Ha Hs), Ht.
      unfold Typed.bind.
      rewrite (TypedLaws.drain_raised n a _ pre post t e _
                 (TypedFacts.lookup_upd_eq _ _ _ _ Ha) Hq Hr).
      reflexivity.
    + intros Hr. rewrite (TypedFacts.cancel_pending _ _ _ _ Ha Hs), Ht.
      unfold Typed.bind.
      rewrite (TypedLaws.drain_raised n a _ pre post t e _
                 (TypedFacts.lookup_upd_eq _ _ _ _ Ha) Hq Hr).
      reflexivity.
  - intros n w a f us Ha Hus. split; [|split].
    + intros Hq. apply (BaseFacts.done_users_caught (Base.runner_at (S n))); auto.
    + intros ex Hq. apply (BaseFacts.fail_users_caught (Base.runner_at (S n))) with (f := f); auto.
    + intros Hq. apply (BaseFacts.cancel_users_caught (Base.runner_at (S n))) with (f := f) (us := us); auto.
  - intros n w a f pre post u e Ha Hpre Hu He. split; [|split].
    + intros Hq.
      apply (BaseFacts.done_users_rethrow (Base.runner_at (S n))) with (post := post); auto.
    + intros ex Hq.
      apply (BaseFacts.fail_users_rethrow (Base.runner_at (S n))) with (f := f) (post := post); auto.
    + intros Hq.
      apply (BaseFacts.cancel_users_rethrow (Base.runner_at (S n))) with (post := post); auto.
Qed.

(** The test [if(f->is_ready()) return;] stands at the head of the
    closures [then] queues on the source, in both implementations: when
    the derived future [f] is no longer pending as the source resolves,
    they return at once, writing nothing, calling no handler and
    throwing nothing.  The closures that [future<T>::then] queues on an
    inner future have no such test: they leave [f] as it is, and the
    [std::logic_error] of [apply_state] goes out into the drain of the
    inner future. *)
Theorem then_guard_at_source :
  (forall (T : Type) n (w : @Typed.world T) (f me : addr) ok items d,
     Typed.heap w !! f = Some d -> Typed.state_ d <> Typed.pending ->
     Typed.run_task (S n) (Typed.task_then f ok items) me w = Typed.Ret w tt) /\
  (forall r w (f self : addr) ok ex d,
     Base.heap w !! f = Some d -> Base.state_ d <> Base.pending ->
     Base.thunk_body r (Base.then_done self ok f) w = Base.Ret w tt /\
     Base.thunk_body r (Base.then_cancel self f) w = Base.Ret w tt /\
     Base.fail_cb_body r (Base.then_fail self f) ex w = Base.Ret w tt) /\
  (forall (T : Type) n (w : @Typed.world T) (f me : addr) d m,
     Typed.heap w !! f = Some d -> Typed.state_ d <> Typed.pending ->
     Typed.heap w !! me = Some m ->
     (Typed.state_ m = Typed.done_state ->
      Typed.run_task (S n) (Typed.task_on_done (Typed.done_into f)) me w
      = Typed.Exc w (Typed.double_resolve Typed.done_state d)) /\
     (Typed.state_ m = Typed.cancelled ->
      Typed.run_task (S n) (Typed.task_on_cancel (Typed.cancel_of f)) me w
      = Typed.Exc w (Typed.double_resolve Typed.cancelled d))).
Proof.
  split; [|split].
  - intros T n w f me ok items d Hd Hs.
    apply (TypedFacts.then_guard n w f me ok items d d Hd Hs).
  - intros r w f self ok ex d Hd Hs. apply (BaseFacts.base_then_guard r w f self ok ex d Hd Hs).
  - intros T n w f me d m Hd Hs Hm.
    destruct (TypedFacts.then_guard n w f me (Typed.k_return 0 0) [] d m Hd Hs) as (_ & H1 & H2).
    split; auto.
Qed.

(** A callback that throws ends the drain of [future<T>]: the callback
    queued after it (tag 2) is never called, and the exception leaves
    [done]. *)
Example drain_aborted_by_exception :
  Typed.verdict_of (Typed.throwing_callback_first Typed.empty_world)
  = threw (std_exception "oops") /\
  Typed.states_of (Typed.throwing_callback_first Typed.empty_world) = [Typed.done_state] /\
  Typed.log (Typed.world_of (Typed.throwing_callback_first Typed.empty_world))
  = [(1, Typed.arg_future 0)].
Proof. vm_compute. repeat split; reflexivity. Qed.



(** C9.  Propagation into a future that is resolved already is not
    always a no-op.  On [future<T>]: the derived future (address 2) is
    done before the inner future (address 1) completes; completing the
    inner future leaves the derived one as it was, but throws the
    [std::logic_error] of [apply_state] at the caller of [done].  On
    [base_future]: the target of [propagate] (address 1) fails before
    the source (address 0) completes; the completion of the source is
    written over the failure. *)
Example propagation_not_guarded :
  Typed.verdict_of (Typed.then_resolved_outside Typed.empty_world) = returned /\
  Typed.states_of (Typed.then_resolved_outside Typed.empty_world)
  = [Typed.done_state; Typed.pending; Typed.done_state] /\
  Typed.verdict_of (Typed.then_inner_completes_late Typed.empty_world)
  = threw (logic_error "tried to resolve future twice, wanted done:unlabelled future (done), ") /\
  Typed.heap (Typed.world_of (Typed.then_inner_completes_late Typed.empty_world)) !! 2
  = Typed.heap (Typed.world_of (Typed.then_resolved_outside Typed.empty_world)) !! 2 /\
  Base.states_of (Base.propagate_target_failed Base.empty_world)
  = [Base.pending; Base.failed] /\
  Base.verdict_of (Base.propagate_source_done_late Base.empty_world) = returned /\
  Base.states_of (Base.propagate_source_done_late Base.empty_world)
  = [Base.complete; Base.complete].
Proof. vm_compute. repeat split; reflexivity. Qed.

(** * The theorems at concrete inputs *)

Lemma resolve_twice_rejected_witness :
  Typed.cancel (Typed.run_task 1) 0
    (Typed.mk_world [Typed.mk_future Typed.done_state [] 5 "" None "f"] [])
  = Typed.Exc
      (Typed.mk_world [Typed.mk_future Typed.done_state [] 5 "" None "f"] [])
      (Typed.double_resolve Typed.cancelled
         (Typed.mk_future Typed.done_state [] 5 "" None "f")).
Proof.
  apply (TypedFacts.resolve_twice_rejected 1
           (Typed.mk_world [Typed.mk_future Typed.done_state [] 5 "" None "f"] []) 0
           (Typed.mk_future Typed.done_state [] 5 "" None "f")).
  - reflexivity.
  - discriminate.
Defined.



Lemma callback_exception_policy_witness :
  Typed.cancel (Typed.run_task 1) 0
    (Typed.mk_world
       [Typed.mk_future Typed.pending
          ([Typed.task_on_ready (Typed.mk_user 1 None);
            Typed.task_on_done (Typed.done_user (Typed.mk_user 2 None))] ++
           Typed.task_on_cancel (Typed.cancel_user (Typed.mk_user 3 (Some (foreign 3)))) ::
           [Typed.task_on_ready (Typed.mk_user 4 None)])
          0 "" None "f"] [])
  = Typed.Exc
      (Typed.mk_world
         [Typed.mk_future Typed.cancelled [] 0 "" None "f"]
         [(1, Typed.arg_future 0); (3, Typed.arg_none)])
      (foreign 3).
Proof.
  destruct callback_exception_policy as (_ & H & _).
  destruct (H nat 0
              (Typed.mk_world
                 [Typed.mk_future Typed.pending
                    ([Typed.task_on_ready (Typed.mk_user 1 None);
                      Typed.task_on_done (Typed.done_user (Typed.mk_user 2 None))] ++
                     Typed.task_on_cancel (Typed.cancel_user (Typed.mk_user 3 (Some (foreign 3)))) ::
                     [Typed.task_on_ready (Typed.mk_user 4 None)])
                    0 "" None "f"] [])
              0 _
              [Typed.task_on_ready (Typed.mk_user 1 None);
               Typed.task_on_done (Typed.done_user (Typed.mk_user 2 None))]
              (Typed.task_on_cancel (Typed.cancel_user (Typed.mk_user 3 (Some (foreign 3)))))
              [Typed.task_on_ready (Typed.mk_user 4 None)] (foreign 3)
              eq_refl eq_refl eq_refl) as (_ & _ & Hc).
  - repeat constructor.
  - apply Hc. reflexivity.
Defined.
